(** * world.core.js: the world engine of World JS

    A shallow embedding of [src/js/world.core.js] (constructor, [add],
    [remove], [addRandomPeople], [run], [start], [stop]) and the properties
    of its tick loop, its admission and eviction operations and its
    distributed-tick counters.

    Conventions of the embedding.
    - A JavaScript Number is an integer or NaN ([Number]); integers are the
      exact ones (below 2^53).  [%] is the truncated remainder ([Z.rem]) and
      yields NaN on a zero divisor.  [undefined] read from an array coerces to
      NaN in every use the file makes of it (comparison, [++], [--]).
    - The one place where fractions occur is [Math.random() * n + min]: there
      a Number is a double, a rational with a 53-bit significand, and each
      operation rounds its exact result to the nearest double.
    - A seed is a mutable object: seeds live in a heap ([heap], a list that
      only grows) and are referred to by their address ([ref]).  Tile slots
      and [relationSeed] hold addresses, so two places can alias one seed.
    - [world.Tile], [world.Statistic], [world.Rules], [world.Knowledge], the
      seed classes and the canvas are other files of the repository.  What
      [world.core.js] needs from them is gathered in the class [Host]; the
      tile buckets and the statistics notifications are modelled from the
      specification and marked as such.
    - Calls that leave the engine during one [run] (drawing, [seed.tick],
      timers, the stop callback) are recorded in a trace of [Event]s.
    - [world.fps] and [world.lastTickTime] are floating point values that no
      operation reads back; [world.canvas] and [world.sprite] are handles
      passed through to drawing; [seed.world] points back to the one world.
      They are not represented. *)

From Stdlib Require Import ZArith QArith Qround Qpower Lia Lqa.
From stdpp Require Import base list.

Local Open Scope Z_scope.

(** ** JavaScript numbers *)

Inductive Number : Type :=
| Int (z : Z)
| NaN.

Definition num_add (a b : Number) : Number :=
  match a, b with
  | Int p, Int q => Int (p + q)
  | _, _ => NaN
  end.

Definition num_sub (a b : Number) : Number :=
  match a, b with
  | Int p, Int q => Int (p - q)
  | _, _ => NaN
  end.

(** [a % b]: the sign follows the dividend; NaN when [b] is zero. *)
Definition num_rem (a b : Number) : Number :=
  match a, b with
  | Int p, Int q => if q =? 0 then NaN else Int (Z.rem p q)
  | _, _ => NaN
  end.

(** [a < b]: false as soon as one side is NaN. *)
Definition num_ltb (a b : Number) : bool :=
  match a, b with
  | Int p, Int q => p <? q
  | _, _ => false
  end.

(** [a == b] and [a === b] on numbers: NaN equals nothing, not even itself. *)
Definition num_eqb (a b : Number) : bool :=
  match a, b with
  | Int p, Int q => p =? q
  | _, _ => false
  end.

Definition is_int (a : Number) : Prop :=
  match a with Int _ => True | NaN => False end.

(** ** JavaScript arrays of numbers *)

(** [a[i]] read as a number: a missing element is [undefined], which every
    use below coerces to NaN. *)
Definition array_get (a : list Number) (i : nat) : Number :=
  default NaN (a !! i).

(** [a[i] = v]: in range the element is replaced; past the end the array is
    extended, the skipped elements being holes (read back as [undefined]). *)
Definition array_set (a : list Number) (i : nat) (v : Number) : list Number :=
  if decide (i < length a)%nat then <[i:=v]> a
  else a ++ replicate (i - length a) NaN ++ [v].

(** Sum of an array of numbers. *)
Definition num_sum (a : list Number) : Number :=
  foldr num_add (Int 0) a.

(** ** Double-precision arithmetic

    The result of [Math.random()], and of [*] and [+] applied to it, is an
    IEEE 754 binary64 value.  The finite ones are the rationals [m * 2^e]
    with [|m| < 2^53] and [-1074 <= e <= 971] ([is_double]).  An operation
    computes the exact result and rounds it to the nearest such value, a tie
    going to the even significand ([double_round]).  The results met here
    stay far below the overflow threshold, and a sum or product of a double
    and integers is a multiple of 2^-1074, which rounding to 53 significant
    bits leaves alone below 2^-1022: the rounding needs no bound on the
    exponent.  Integers are doubles as long as they are below 2^53. *)

(** [x] rounded to the nearest integer, a tie going to the even one. *)
Definition rne (x : Q) : Z :=
  let f := Qfloor x in
  match (x - inject_Z f ?= 1 # 2)%Q with
  | Lt => f
  | Gt => f + 1
  | Eq => if Z.even f then f else f + 1
  end.

(** The position of the leading bit of [q] > 0: the [k] with
    [2^k <= q < 2^(k+1)]. *)
Definition ilog2 (q : Q) : Z :=
  let d := Z.log2 (Qnum q) - Z.log2 (Z.pos (Qden q)) in
  if Qle_bool (2 ^ d) q then d else d - 1.

(** [q] > 0 rounded to 53 significant bits. *)
Definition round_pos (q : Q) : Q :=
  let e := ilog2 q - 52 in
  (inject_Z (rne (q / 2 ^ e)) * 2 ^ e)%Q.

Definition double_round (q : Q) : Q :=
  match Qnum q with
  | Z0 => 0%Q
  | Z.pos _ => round_pos q
  | Z.neg _ => (- round_pos (- q))%Q
  end.

Definition is_double (q : Q) : Prop :=
  exists m e : Z,
    Z.abs m < 2 ^ 53 /\ -1074 <= e <= 971 /\ (q == inject_Z m * 2 ^ e)%Q.

(** [a * b] and [a + b] on doubles. *)
Definition double_mul (a b : Q) : Q := double_round (a * b).
Definition double_add (a b : Q) : Q := double_round (a + b).

(** ** Math.random *)

(** The values [Math.random()] returns, in call order: doubles in [0, 1)
    ([in_unit]). *)
Definition Random : Type := nat -> Q.

Definition in_unit (g : Random) : Prop :=
  forall n, is_double (g n) /\ (0 <= g n)%Q /\ (g n < 1)%Q.

Definition Math_random (g : Random) : Q * Random :=
  (g 0%nat, fun n => g (S n)).

(** [Math.floor(Math.random() * (max - min + 1) + min)] for the draw [u]:
    the product is rounded, then the sum. *)
Definition random_of (u : Q) (min max : Z) : Z :=
  Qfloor (double_add (double_mul u (inject_Z (max - min + 1))) (inject_Z min)).

Definition random (min max : Z) (g : Random) : Z * Random :=
  let '(u, g') := Math_random g in (random_of u min max, g').

(** ** Seeds *)

(** Address of a seed object in the heap. *)
Abbreviation ref := nat.

Module Seed.

(** The fields of a seed that [world.core.js] reads or writes.  [x] and [y]
    are [None] while the source holds [false] there (no position yet), and
    [relationSeed] is [None] for [false]. *)
Record t : Type := mk {
  id : Z;
  age : Z;
  tickCount : Number;
  stepCount : Number;
  tickMod : Number;
  IQ : Z;
  x : option Z;
  y : option Z;
  appearance_width : Z;
  appearance_height : Z;
  actionInterval : Z;
  tileIndex : nat;
  tickIndex : nat;
  married : bool;
  relationSeed : option ref;
  instanceofMale : bool;
  maxChildAge : Z
}.

Definition set_id (v : Z) (s : t) : t :=
  mk v (age s) (tickCount s) (stepCount s) (tickMod s) (IQ s) (x s) (y s)
     (appearance_width s) (appearance_height s) (actionInterval s)
     (tileIndex s) (tickIndex s) (married s) (relationSeed s)
     (instanceofMale s) (maxChildAge s).

Definition set_age (v : Z) (s : t) : t :=
  mk (id s) v (tickCount s) (stepCount s) (tickMod s) (IQ s) (x s) (y s)
     (appearance_width s) (appearance_height s) (actionInterval s)
     (tileIndex s) (tickIndex s) (married s) (relationSeed s)
     (instanceofMale s) (maxChildAge s).

Definition set_tickCount (v : Number) (s : t) : t :=
  mk (id s) (age s) v (stepCount s) (tickMod s) (IQ s) (x s) (y s)
     (appearance_width s) (appearance_height s) (actionInterval s)
     (tileIndex s) (tickIndex s) (married s) (relationSeed s)
     (instanceofMale s) (maxChildAge s).

Definition set_stepCount (v : Number) (s : t) : t :=
  mk (id s) (age s) (tickCount s) v (tickMod s) (IQ s) (x s) (y s)
     (appearance_width s) (appearance_height s) (actionInterval s)
     (tileIndex s) (tickIndex s) (married s) (relationSeed s)
     (instanceofMale s) (maxChildAge s).

Definition set_tickMod (v : Number) (s : t) : t :=
  mk (id s) (age s) (tickCount s) (stepCount s) v (IQ s) (x s) (y s)
     (appearance_width s) (appearance_height s) (actionInterval s)
     (tileIndex s) (tickIndex s) (married s) (relationSeed s)
     (instanceofMale s) (maxChildAge s).

Definition set_IQ (v : Z) (s : t) : t :=
  mk (id s) (age s) (tickCount s) (stepCount s) (tickMod s) v (x s) (y s)
     (appearance_width s) (appearance_height s) (actionInterval s)
     (tileIndex s) (tickIndex s) (married s) (relationSeed s)
     (instanceofMale s) (maxChildAge s).

Definition set_x (v : option Z) (s : t) : t :=
  mk (id s) (age s) (tickCount s) (stepCount s) (tickMod s) (IQ s) v (y s)
     (appearance_width s) (appearance_height s) (actionInterval s)
     (tileIndex s) (tickIndex s) (married s) (relationSeed s)
     (instanceofMale s) (maxChildAge s).

Definition set_y (v : option Z) (s : t) : t :=
  mk (id s) (age s) (tickCount s) (stepCount s) (tickMod s) (IQ s) (x s) v
     (appearance_width s) (appearance_height s) (actionInterval s)
     (tileIndex s) (tickIndex s) (married s) (relationSeed s)
     (instanceofMale s) (maxChildAge s).

Definition set_tileIndex (v : nat) (s : t) : t :=
  mk (id s) (age s) (tickCount s) (stepCount s) (tickMod s) (IQ s) (x s) (y s)
     (appearance_width s) (appearance_height s) (actionInterval s)
     v (tickIndex s) (married s) (relationSeed s)
     (instanceofMale s) (maxChildAge s).

Definition set_tickIndex (v : nat) (s : t) : t :=
  mk (id s) (age s) (tickCount s) (stepCount s) (tickMod s) (IQ s) (x s) (y s)
     (appearance_width s) (appearance_height s) (actionInterval s)
     (tileIndex s) v (married s) (relationSeed s)
     (instanceofMale s) (maxChildAge s).

Definition set_married (v : bool) (s : t) : t :=
  mk (id s) (age s) (tickCount s) (stepCount s) (tickMod s) (IQ s) (x s) (y s)
     (appearance_width s) (appearance_height s) (actionInterval s)
     (tileIndex s) (tickIndex s) v (relationSeed s)
     (instanceofMale s) (maxChildAge s).

Definition set_relationSeed (v : option ref) (s : t) : t :=
  mk (id s) (age s) (tickCount s) (stepCount s) (tickMod s) (IQ s) (x s) (y s)
     (appearance_width s) (appearance_height s) (actionInterval s)
     (tileIndex s) (tickIndex s) (married s) v
     (instanceofMale s) (maxChildAge s).

End Seed.

(** The [data] argument of a seed constructor, as [addRandomPeople] builds
    it; an absent property is [None]. *)
Record Data : Type := {
  d_age : option Z;
  d_tickCount : option Z;
  d_x : option Z;
  d_y : option Z
}.

(** ** The world *)

(** A stop callback: the empty function the source installs, or a function
    of the host, named by a number. *)
Inductive Callback : Type :=
| noop
| fn (k : nat).

Inductive DisplayMode : Type :=
| full
| dot
| none
| other_mode.

(** The record [run] hands to [Statistic.yearPassed]. *)
Record Aggregates : Type := {
  population : Z;
  IQ : Z;
  men : Z;
  women : Z;
  boys : Z;
  girls : Z;
  families : Z
}.

Definition no_aggregates : Aggregates :=
  {| population := 0; IQ := 0; men := 0; women := 0;
     boys := 0; girls := 0; families := 0 |}.

(** Modelled from the spec: the Statistics collaborator ([world.Statistic],
    not in [world.core.js]) is notified of every admission, eviction and year
    boundary ([onAdmitted], [onEvicted], [onYearPassed]); its state is the
    sequence of notifications it has received. *)
Inductive StatCall : Type :=
| Statistic_seedAdded (r : ref)
| Statistic_seedRemoved (r : ref)
| Statistic_yearPassed (a : Aggregates).

(** The tunables [world.Rules] holds; [baseIQ] is the one the core reads. *)
Record RulesState : Type := { baseIQ : Z }.

Record World : Type := mkWorld {
  running : bool;
  stopCallback : Callback;
  width : Z;
  height : Z;
  padding : Z;
  displayMode : DisplayMode;
  nextSeedId : Z;
  maxSafeSeedsForDisplay : Z;
  tickPerYear : Z;
  speed : Z;
  tickMod : Number;
  distributedTicks : list Number;
  (** [world.Tile.list]: one bucket per tile, a slot holding a seed or
      [false] ([None]). *)
  Tile_list : list (list (option ref));
  Tile_maxDisplayedSeeds : Z;
  Rules : RulesState;
  Statistic : list StatCall;
  heap : list Seed.t
}.

Definition with_running (v : bool) (w : World) : World :=
  mkWorld v (stopCallback w) (width w) (height w) (padding w) (displayMode w)
    (nextSeedId w) (maxSafeSeedsForDisplay w) (tickPerYear w) (speed w)
    (tickMod w) (distributedTicks w) (Tile_list w) (Tile_maxDisplayedSeeds w)
    (Rules w) (Statistic w) (heap w).

Definition with_stopCallback (v : Callback) (w : World) : World :=
  mkWorld (running w) v (width w) (height w) (padding w) (displayMode w)
    (nextSeedId w) (maxSafeSeedsForDisplay w) (tickPerYear w) (speed w)
    (tickMod w) (distributedTicks w) (Tile_list w) (Tile_maxDisplayedSeeds w)
    (Rules w) (Statistic w) (heap w).

Definition with_nextSeedId (v : Z) (w : World) : World :=
  mkWorld (running w) (stopCallback w) (width w) (height w) (padding w)
    (displayMode w) v (maxSafeSeedsForDisplay w) (tickPerYear w) (speed w)
    (tickMod w) (distributedTicks w) (Tile_list w) (Tile_maxDisplayedSeeds w)
    (Rules w) (Statistic w) (heap w).

Definition with_tickMod (v : Number) (w : World) : World :=
  mkWorld (running w) (stopCallback w) (width w) (height w) (padding w)
    (displayMode w) (nextSeedId w) (maxSafeSeedsForDisplay w) (tickPerYear w)
    (speed w) v (distributedTicks w) (Tile_list w) (Tile_maxDisplayedSeeds w)
    (Rules w) (Statistic w) (heap w).

Definition with_tickPerYear (v : Z) (w : World) : World :=
  mkWorld (running w) (stopCallback w) (width w) (height w) (padding w)
    (displayMode w) (nextSeedId w) (maxSafeSeedsForDisplay w) v
    (speed w) (tickMod w) (distributedTicks w) (Tile_list w)
    (Tile_maxDisplayedSeeds w) (Rules w) (Statistic w) (heap w).

Definition with_distributedTicks (v : list Number) (w : World) : World :=
  mkWorld (running w) (stopCallback w) (width w) (height w) (padding w)
    (displayMode w) (nextSeedId w) (maxSafeSeedsForDisplay w) (tickPerYear w)
    (speed w) (tickMod w) v (Tile_list w) (Tile_maxDisplayedSeeds w)
    (Rules w) (Statistic w) (heap w).

Definition with_Tile_list (v : list (list (option ref))) (w : World) : World :=
  mkWorld (running w) (stopCallback w) (width w) (height w) (padding w)
    (displayMode w) (nextSeedId w) (maxSafeSeedsForDisplay w) (tickPerYear w)
    (speed w) (tickMod w) (distributedTicks w) v (Tile_maxDisplayedSeeds w)
    (Rules w) (Statistic w) (heap w).

Definition with_Rules (v : RulesState) (w : World) : World :=
  mkWorld (running w) (stopCallback w) (width w) (height w) (padding w)
    (displayMode w) (nextSeedId w) (maxSafeSeedsForDisplay w) (tickPerYear w)
    (speed w) (tickMod w) (distributedTicks w) (Tile_list w)
    (Tile_maxDisplayedSeeds w) v (Statistic w) (heap w).

Definition with_Statistic (v : list StatCall) (w : World) : World :=
  mkWorld (running w) (stopCallback w) (width w) (height w) (padding w)
    (displayMode w) (nextSeedId w) (maxSafeSeedsForDisplay w) (tickPerYear w)
    (speed w) (tickMod w) (distributedTicks w) (Tile_list w)
    (Tile_maxDisplayedSeeds w) (Rules w) v (heap w).

Definition with_heap (v : list Seed.t) (w : World) : World :=
  mkWorld (running w) (stopCallback w) (width w) (height w) (padding w)
    (displayMode w) (nextSeedId w) (maxSafeSeedsForDisplay w) (tickPerYear w)
    (speed w) (tickMod w) (distributedTicks w) (Tile_list w)
    (Tile_maxDisplayedSeeds w) (Rules w) (Statistic w) v.

(** [world.maxSafeSeedsForDisplay = v], the field being public. *)
Definition with_maxSafeSeedsForDisplay (v : Z) (w : World) : World :=
  mkWorld (running w) (stopCallback w) (width w) (height w) (padding w)
    (displayMode w) (nextSeedId w) v (tickPerYear w) (speed w) (tickMod w)
    (distributedTicks w) (Tile_list w) (Tile_maxDisplayedSeeds w) (Rules w)
    (Statistic w) (heap w).

(** [seed.f = v] for the seed at address [r]: an update in place, seen through
    every alias of [r]. *)
Definition update_seed (r : ref) (f : Seed.t -> Seed.t) (w : World) : World :=
  with_heap (alter f r (heap w)) w.

(** ** The collaborators *)

(** What [world.core.js] calls in the other files of the repository.
    [Seed_tick speed r] is [seed.tick(speed)] on the seed at [r]: the seed's
    own behaviour, free to move it and to alter the world (a birth is
    [world.add], a death [world.remove]).  [Rules_change] and
    [Knowledge_gain] adjust the global tunables once a year.
    [Callback_call k] is the body of the host's stop callback [fn k]. *)
Class Host : Type := {
  Tile_getIndex : Seed.t -> nat;
  Seed_tick : Z -> ref -> World -> World;
  Rules_change : World -> RulesState;
  Knowledge_gain : World -> RulesState;
  Statistic_population : list StatCall -> Z;
  Callback_call : nat -> World -> World;
  Male : Data -> Seed.t;
  Female : Data -> Seed.t
}.

(** The constructor [WorldJS]: the defaults of lines 41-126.  The tile
    buckets, the display cap and the tunables come from [new WorldJS.Tile]
    and [new WorldJS.Rules], which are given. *)
Definition WorldJS (tiles : list (list (option ref))) (cap : Z)
    (rules : RulesState) : World :=
  {| running := false;
     stopCallback := noop;
     width := 640;
     height := 360;
     padding := 10;
     displayMode := full;
     nextSeedId := 1;
     maxSafeSeedsForDisplay := 30000;
     tickPerYear := 60;
     speed := 1;
     tickMod := Int 0;
     distributedTicks := replicate (Z.to_nat (60 - 1)) (Int 0);
     Tile_list := tiles;
     Tile_maxDisplayedSeeds := cap;
     Rules := rules;
     Statistic := [];
     heap := [] |}.

(** ** The tile buckets *)

(** Modelled from the spec: [place(entity)] "inserts the entity's reference
    into [tile[entity.tileIndex]], reusing a vacated slot if one exists in
    that tile's sequence, else appending", without reordering the other
    occupants.  ([world.Tile.set], not in [world.core.js].) *)
Fixpoint place (r : ref) (bucket : list (option ref)) : list (option ref) :=
  match bucket with
  | [] => [Some r]
  | None :: rest => Some r :: rest
  | Some o :: rest => Some o :: place r rest
  end.

(** Modelled from the spec: [remove(entity)] "vacates the entity's current
    slot (sets to empty rather than shifting the sequence)".
    ([world.Tile.rem], not in [world.core.js]; the occupancy bookkeeping the
    spec mentions is read by nothing here and is not represented.) *)
Fixpoint vacate (r : ref) (bucket : list (option ref)) : list (option ref) :=
  match bucket with
  | [] => []
  | None :: rest => None :: vacate r rest
  | Some o :: rest =>
      if decide (o = r) then None :: rest else Some o :: vacate r rest
  end.

(** A tile index past the end of the tile list names no bucket: nothing is
    stored (the spec leaves this case open). *)
Definition Tile_place (r : ref) (tileIndex : nat)
    (tiles : list (list (option ref))) : list (list (option ref)) :=
  alter (place r) tileIndex tiles.

Definition Tile_set (r : ref) (w : World) : World :=
  match heap w !! r with
  | Some seed => with_Tile_list (Tile_place r (Seed.tileIndex seed) (Tile_list w)) w
  | None => w
  end.

Definition Tile_rem (r : ref) (w : World) : World :=
  match heap w !! r with
  | Some seed =>
      with_Tile_list (alter (vacate r) (Seed.tileIndex seed) (Tile_list w)) w
  | None => w
  end.

(** ** add *)

(** Lines 205-213: the scan for the frame with the fewest seeds.  Returns
    [minIndex] and [minValue]. *)
Definition scan_min (a : list Number) : nat * Number :=
  foldl (fun (m : nat * Number) (i : nat) =>
           if num_ltb (array_get a i) (snd m) then (i, array_get a i) else m)
        (0%nat, array_get a 0) (seq 0 (length a)).

(** [WorldJS.prototype.add], lines 168-228.  [SeedCtor] is the class [Seed]
    of the source, [SeedCtor data] the object [new Seed(data)]; the new seed
    is allocated at the end of the heap. *)
Definition add `{Host} (SeedCtor : Data -> Seed.t) (data : Data)
    (g : Random) (w : World) : World * Random :=
  let seed := SeedCtor data in
  let r : ref := length (heap w) in
  let seed := Seed.set_id (nextSeedId w) seed in
  let w := with_nextSeedId (nextSeedId w + 1) w in
  let seed := Seed.set_age (default 0 (d_age data)) seed in
  let seed :=
    if 0 <? Seed.age seed
    then Seed.set_tickCount (Int (Seed.age seed * tickPerYear w)) seed
    else seed in
  let seed := Seed.set_tickMod (tickMod w) seed in
  let seed := Seed.set_IQ (Seed.IQ seed + baseIQ (Rules w)) seed in
  let sg :=
    match Seed.x seed with
    | None =>
        let vg := random 0 (width w - 1
                            - Z.max (Seed.appearance_width seed) (padding w)) g in
        (Seed.set_x (Some (fst vg)) seed, snd vg)
    | Some _ => (seed, g)
    end in
  let sg :=
    match Seed.y (fst sg) with
    | None =>
        let vg := random 0 (height w - 1
                            - Seed.appearance_height (fst sg) - padding w) (snd sg) in
        (Seed.set_y (Some (fst vg)) (fst sg), snd vg)
    | Some _ => sg
    end in
  let seed := fst sg in
  let seed := Seed.set_tileIndex (Tile_getIndex seed) seed in
  let w := with_Tile_list (Tile_place r (Seed.tileIndex seed) (Tile_list w)) w in
  let minIndex := fst (scan_min (distributedTicks w)) in
  let w := with_distributedTicks
             (array_set (distributedTicks w) minIndex
                (num_add (array_get (distributedTicks w) minIndex) (Int 1))) w in
  let seed := Seed.set_tickIndex minIndex seed in
  let seed :=
    Seed.set_tickCount
      (num_add (Seed.tickCount seed)
         (num_rem (num_add (num_add (tickMod w) (Seed.tickCount seed))
                     (Int (Z.of_nat minIndex)))
            (Int (Seed.actionInterval seed)))) seed in
  let seed := Seed.set_stepCount (Seed.tickCount seed) seed in
  let w := with_Statistic (Statistic w ++ [Statistic_seedAdded r]) w in
  (with_heap (heap w ++ [seed]) w, snd sg).

(** ** remove *)

(** How a call ends: it returns, or a [TypeError] is thrown; either way with
    the state reached so far. *)
Inductive outcome : Type :=
| Returned (w : World)
| TypeError (w : World).

Definition world_after (o : outcome) : World :=
  match o with Returned w => w | TypeError w => w end.

(** [WorldJS.prototype.remove], lines 234-253.  The file is in strict mode:
    with [seed.married] set and [seed.relationSeed] still [false], the
    assignment [seed.relationSeed.married = false] throws.  An address outside
    the heap names no object and cannot be passed; the world is then returned
    as it is. *)
Definition remove (r : ref) (w : World) : outcome :=
  let w := with_Statistic (Statistic w ++ [Statistic_seedRemoved r]) w in
  match heap w !! r with
  | None => Returned w
  | Some seed =>
      let finish (w : World) : outcome :=
        let w := Tile_rem r w in
        Returned
          (with_distributedTicks
             (array_set (distributedTicks w) (Seed.tickIndex seed)
                (num_sub (array_get (distributedTicks w) (Seed.tickIndex seed))
                   (Int 1))) w) in
      if Seed.married seed then
        let w := update_seed r (Seed.set_married false) w in
        match Seed.relationSeed seed with
        | None => TypeError w
        | Some partner =>
            let w := update_seed partner (Seed.set_married false) w in
            let w := update_seed partner (Seed.set_relationSeed None) w in
            let w := update_seed r (Seed.set_relationSeed None) w in
            finish w
        end
      else finish w
  end.

(** ** addRandomPeople *)

(** Lines 282-300: the coordinate forced when people come from a border. *)
Definition from_border (fromBorder : Z) (data : Data) (g : Random) (w : World)
    : Data * Random :=
  if 0 <? fromBorder then
    let bg := if fromBorder =? 5 then random 1 4 g else (fromBorder, g) in
    let border := fst bg in
    let g := snd bg in
    let padding := 10 in
    if border =? 1 then
      let vg := random 0 padding g in
      ({| d_age := d_age data; d_tickCount := d_tickCount data;
          d_x := d_x data; d_y := Some (fst vg) |}, snd vg)
    else if border =? 2 then
      let vg := random (height w - padding - 1) (height w - 1) g in
      ({| d_age := d_age data; d_tickCount := d_tickCount data;
          d_x := d_x data; d_y := Some (fst vg) |}, snd vg)
    else if border =? 3 then
      let vg := random 0 padding g in
      ({| d_age := d_age data; d_tickCount := d_tickCount data;
          d_x := Some (fst vg); d_y := d_y data |}, snd vg)
    else if border =? 4 then
      let vg := random (width w - padding - 1) (width w - 1) g in
      ({| d_age := d_age data; d_tickCount := d_tickCount data;
          d_x := Some (fst vg); d_y := d_y data |}, snd vg)
    else (data, g)
  else (data, g).

(** One round of the loop of lines 274-307, for the index [i]. *)
Definition addRandomPeople_body `{Host} (count minAge maxAge fromBorder : Z)
    (tickPerYear0 : Z) (i : Z) (wg : World * Random) : World * Random :=
  let w := fst wg in
  let ag := random minAge maxAge (snd wg) in
  let age := fst ag in
  let data := {| d_age := Some age; d_tickCount := Some (age * tickPerYear0);
                 d_x := None; d_y := None |} in
  let dg := from_border fromBorder data (snd ag) w in
  if 2 * i <? count
  then add Male (fst dg) (snd dg) w
  else add Female (fst dg) (snd dg) w.

(** [WorldJS.prototype.addRandomPeople], lines 262-310; an argument left out
    is [None].  [i < count] holds for [i] = 0, ..., [count] - 1, and for no
    [i] when [count] is not positive. *)
Definition addRandomPeople `{Host} (count : Z) (minAge maxAge fromBorder : option Z)
    (g : Random) (w : World) : World * Random :=
  let tickPerYear0 := tickPerYear w in
  let minAge := default 15 minAge in
  let maxAge := default 20 maxAge in
  let fromBorder := default 0 fromBorder in
  foldl (fun wg (i : nat) =>
           addRandomPeople_body count minAge maxAge fromBorder tickPerYear0
             (Z.of_nat i) wg)
        (w, g) (seq 0 (Z.to_nat count)).

(** ** run *)

(** The calls one [run] makes outside the world, in order. *)
Inductive Event : Type :=
| clearRect
| draw (r : ref) (sprite : bool)
| tick (r : ref) (speed : Z)
| Rules_changed
| Knowledge_gained
| setTimeout_yearPassed
| requestAnimationFrame
| stopCallback_call (cb : Callback).

(** The state of one pass over the tiles: the world, the statistics
    re-calculated so far ([sPopulation], [sIQ], ...) and the calls made. *)
Record Pass : Type := {
  world_of : World;
  stats : Aggregates;
  events : list Event
}.

(** Lines 372-389, for a seed whose age was just incremented. *)
Definition count_seed (seed : Seed.t) (a : Aggregates) : Aggregates :=
  let child := Seed.age seed <=? Seed.maxChildAge seed in
  let male := Seed.instanceofMale seed in
  {| population := population a + 1;
     IQ := IQ a + Seed.IQ seed;
     men := if male && negb child then men a + 1 else men a;
     women := if negb male && negb child then women a + 1 else women a;
     boys := if male && child then boys a + 1 else boys a;
     girls := if negb male && child then girls a + 1 else girls a;
     families := if male && negb child && Seed.married seed
                 then families a + 1 else families a |}.

(** Lines 392-408: the seed is drawn while the tile's cap is not reached. *)
Definition draw_seed (reDraw : bool) (maxDisplayedSeeds : Z) (mode : DisplayMode)
    (r : ref) (ed : list Event * Z) : list Event * Z :=
  if reDraw && (snd ed <? maxDisplayedSeeds) then
    (match mode with
     | full => fst ed ++ [draw r true]
     | dot => fst ed ++ [draw r false]
     | none | other_mode => fst ed
     end, snd ed + 1)
  else ed.

(** Lines 412-421: the seed is moved to the bucket of its new tile. *)
Definition relocate `{Host} (r : ref) (oldTileIndex : nat) (w : World) : World :=
  match heap w !! r with
  | Some seed =>
      let newTileIndex := Tile_getIndex seed in
      if decide (newTileIndex = oldTileIndex) then w
      else Tile_set r (update_seed r (Seed.set_tileIndex newTileIndex) (Tile_rem r w))
  | None => w
  end.

(** The body of the inner loop (lines 351-422) at slot [j] of tile [i];
    [displayedSeeds] is carried along.  The bucket is the array the loop
    holds, read again at every [j]: it is updated in place by [Tile.set] and
    [Tile.rem].  A slot holds [false] or a seed of the heap. *)
Definition visit `{Host} (yearPassed reDraw : bool) (speed0 maxDisplayedSeeds : Z)
    (i j : nat) (st : Pass * Z) : Pass * Z :=
  let p := fst st in
  let w := world_of p in
  match Tile_list w !! i ≫= (fun seeds => seeds !! j) with
  | Some (Some r) =>
      match heap w !! r with
      | Some seed =>
          let oldTileIndex := Seed.tileIndex seed in
          if num_eqb (Seed.tickMod seed) (tickMod w) then st
          else
            let w := update_seed r (Seed.set_tickMod (tickMod w)) w in
            let w := if yearPassed
                     then update_seed r (Seed.set_age (Seed.age seed + 1)) w
                     else w in
            let a := if yearPassed
                     then count_seed (Seed.set_age (Seed.age seed + 1) seed) (stats p)
                     else stats p in
            let ed := draw_seed reDraw maxDisplayedSeeds (displayMode w) r
                        (events p, snd st) in
            let w := Seed_tick speed0 r w in
            let w := relocate r oldTileIndex w in
            ({| world_of := w; stats := a; events := fst ed ++ [tick r speed0] |},
             snd ed)
      | None => st
      end
  | _ => st
  end.

(** The inner loop over one tile: [len2] is read once, before the loop.  The
    tile list is never shortened ([Tile.set] and [Tile.rem] update the
    buckets in place), so [listTile[i]] is a bucket; were it missing, the
    tile is passed over. *)
Definition visit_tile `{Host} (yearPassed reDraw : bool)
    (speed0 maxDisplayedSeeds : Z) (p : Pass) (i : nat) : Pass :=
  let len2 := length (default [] (Tile_list (world_of p) !! i)) in
  fst (foldl (fun st j => visit yearPassed reDraw speed0 maxDisplayedSeeds i j st)
         (p, 0) (seq 0 len2)).

(** The outer loop (line 347): [len] is read once, before the loop. *)
Definition traverse `{Host} (yearPassed reDraw : bool)
    (speed0 maxDisplayedSeeds : Z) (p : Pass) : Pass :=
  foldl (visit_tile yearPassed reDraw speed0 maxDisplayedSeeds) p
    (seq 0 (length (Tile_list (world_of p)))).

(** Lines 452-462: the next frame is requested, or the stop callback is
    called and replaced by the empty function. *)
Definition loop_animation `{Host} (w : World) (ev : list Event)
    : World * list Event :=
  if running w then (w, ev ++ [requestAnimationFrame])
  else
    let cb := stopCallback w in
    let w := match cb with noop => w | fn k => Callback_call k w end in
    (with_stopCallback noop w, ev ++ [stopCallback_call cb]).

(** Line 324. *)
Definition next_tickMod (w : World) : Number :=
  num_rem (num_add (tickMod w) (Int 1)) (Int (tickPerYear w)).

(** [WorldJS.prototype.run], lines 315-465: the world after the tick and the
    calls it made. *)
Definition run `{Host} (w : World) : World * list Event :=
  let w := with_tickMod (next_tickMod w) w in
  let yearPassed := num_eqb (tickMod w) (Int 0) in
  let reDraw :=
    (Statistic_population (Statistic w) <=? maxSafeSeedsForDisplay w) || yearPassed in
  let p := traverse yearPassed reDraw (speed w) (Tile_maxDisplayedSeeds w)
             {| world_of := w; stats := no_aggregates;
                events := if reDraw then [clearRect] else [] |} in
  let w := world_of p in
  if yearPassed then
    let w := with_Statistic (Statistic w ++ [Statistic_yearPassed (stats p)]) w in
    let w := with_Rules (Rules_change w) w in
    let w := with_Rules (Knowledge_gain w) w in
    let ev := events p ++ [Rules_changed; Knowledge_gained; setTimeout_yearPassed] in
    if population (stats p) =? 0 then (with_running false w, ev)
    else loop_animation w ev
  else loop_animation w (events p).

(** [WorldJS.prototype.start], lines 470-473. *)
Definition start `{Host} (w : World) : World * list Event :=
  run (with_running true w).

(** [WorldJS.prototype.stop], lines 479-484; [callback] is [None] when the
    argument is not a function. *)
Definition stop (callback : option Callback) (w : World) : World :=
  let w := with_running false w in
  match callback with
  | Some cb => with_stopCallback cb w
  | None => w
  end.

(** ** Notions used in the statements *)

(** [k] is the first index of a minimum of [zs]. *)
Definition first_min (zs : list Z) (k : nat) : Prop :=
  exists zk, zs !! k = Some zk
    /\ (forall i z, zs !! i = Some z -> zk <= z)
    /\ (forall i z, (i < k)%nat -> zs !! i = Some z -> zk < z).

(** The seed [add] has just admitted: it sits at the end of the heap. *)
Definition admitted `{Host} (SeedCtor : Data -> Seed.t) (data : Data)
    (g : Random) (w : World) : option Seed.t :=
  heap (fst (add SeedCtor data g w)) !! length (heap w).

(** The tick count a seed starts from (lines 178-181): its age in ticks, or
    what its constructor left when it has no age. *)
Definition baseTickCount (SeedCtor : Data -> Seed.t) (data : Data) (w : World)
    : Number :=
  if 0 <? default 0 (d_age data)
  then Int (default 0 (d_age data) * tickPerYear w)
  else Seed.tickCount (SeedCtor data).


(** Sequences of admissions and evictions. *)
Inductive Op : Type :=
| op_add (SeedCtor : Data -> Seed.t) (data : Data)
| op_remove (r : ref).

Definition apply_op `{Host} (wg : World * Random) (o : Op) : World * Random :=
  match o with
  | op_add SeedCtor data => add SeedCtor data (snd wg) (fst wg)
  | op_remove r => (world_after (remove r (fst wg)), snd wg)
  end.

Definition apply_ops `{Host} (ops : list Op) (wg : World * Random)
    : World * Random :=
  foldl apply_op wg ops.

(** The live seeds, as the statistics collaborator has been told: admitted
    and not evicted since. *)
Definition live_step (l : list ref) (c : StatCall) : list ref :=
  match c with
  | Statistic_seedAdded r => l ++ [r]
  | Statistic_seedRemoved r => filter (fun r' => r' <> r) l
  | Statistic_yearPassed _ => l
  end.

Definition live (w : World) : list ref :=
  foldl live_step [] (Statistic w).

(** A sequence of operations in which every eviction is of a seed live at
    that point, and every constructor returns an unmarried seed. *)
Fixpoint admissible `{Host} (ops : list Op) (wg : World * Random) : Prop :=
  match ops with
  | [] => True
  | o :: ops' =>
      match o with
      | op_add SeedCtor data => Seed.married (SeedCtor data) = false
      | op_remove r => r ∈ live (fst wg)
      end
      /\ admissible ops' (apply_op wg o)
  end.

(** The invariant behind the counters: they are integers, there is at least
    one, they add up to the number of live seeds, and every live seed is an
    unmarried object of the heap whose [tickIndex] names a counter. *)
Definition counters_inv (w : World) : Prop :=
  exists zs,
    distributedTicks w = Int <$> zs
    /\ zs <> []
    /\ foldr Z.add 0 zs = Z.of_nat (length (live w))
    /\ NoDup (live w)
    /\ forall r, r ∈ live w ->
         exists seed, heap w !! r = Some seed
           /\ Seed.married seed = false
           /\ (Seed.tickIndex seed < length zs)%nat.

(** Identities follow the order of admission: the seed at address [i] has
    identity [i + 1], and the next identity is one more than the last. *)
Definition ids_inv (w : World) : Prop :=
  nextSeedId w = Z.of_nat (length (heap w)) + 1
  /\ forall i seed, heap w !! i = Some seed -> Seed.id seed = Z.of_nat i + 1.

(** The seed lies in the arena, its footprint and the padding taken off
    (lines 192 and 195). *)
Definition in_arena (w : World) (seed : Seed.t) : Prop :=
  exists x y,
    Seed.x seed = Some x /\ Seed.y seed = Some y
    /\ 0 <= x <= width w - 1 - Z.max (Seed.appearance_width seed) (padding w)
    /\ 0 <= y <= height w - 1 - Seed.appearance_height seed - padding w.

(** The seed classes take the position [data] gives and none otherwise. *)
Definition position_from_data `{Host} : Prop :=
  forall d,
    Seed.x (Male d) = d_x d /\ Seed.y (Male d) = d_y d
    /\ Seed.x (Female d) = d_x d /\ Seed.y (Female d) = d_y d.

(** The arena has room for a seed of class [SeedCtor] and the padding. *)
Definition fits (w : World) (SeedCtor : Data -> Seed.t) : Prop :=
  forall d,
    0 <= width w - 1 - Z.max (Seed.appearance_width (SeedCtor d)) (padding w)
    /\ 0 <= height w - 1 - Seed.appearance_height (SeedCtor d) - padding w.

(** A world in which identities follow admissions, every seed lies in the
    arena, and the counters add up to the number of seeds. *)
Definition settled (w : World) : Prop :=
  ids_inv w
  /\ (forall i seed, heap w !! i = Some seed -> in_arena w seed)
  /\ exists zs,
       distributedTicks w = Int <$> zs /\ zs <> []
       /\ foldr Z.add 0 zs = Z.of_nat (length (heap w)).

(** The pass over the tiles that [run] makes on [w] (lines 324-424): the
    counter is advanced, then every tile is visited. *)
Definition pass_of `{Host} (w : World) : Pass :=
  let w := with_tickMod (next_tickMod w) w in
  let yearPassed := num_eqb (tickMod w) (Int 0) in
  let reDraw :=
    (Statistic_population (Statistic w) <=? maxSafeSeedsForDisplay w) || yearPassed in
  traverse yearPassed reDraw (speed w) (Tile_maxDisplayedSeeds w)
    {| world_of := w; stats := no_aggregates;
       events := if reDraw then [clearRect] else [] |}.

(** The seeds whose [tick] was called, in call order. *)
Definition ticked (ev : list Event) : list ref :=
  omap (fun e => match e with tick r _ => Some r | _ => None end) ev.

(** From [w] to [w'] the world's counter and the stamp of every seed are
    kept (seeds may be created, and anything else may change). *)
Definition stamps_kept (w w' : World) : Prop :=
  tickMod w' = tickMod w
  /\ forall r s, heap w !! r = Some s ->
       exists s', heap w' !! r = Some s' /\ Seed.tickMod s' = Seed.tickMod s.

(** The seed at [r] carries the stamp of the current tick. *)
Definition stamped (w : World) (r : ref) : Prop :=
  exists s, heap w !! r = Some s /\ Seed.tickMod s = tickMod w.

(** What holds all along a pass: the counter is a number, no seed was ticked
    twice, and every seed ticked carries the stamp of the current tick. *)
Definition pass_ok (p : Pass) : Prop :=
  is_int (tickMod (world_of p))
  /\ NoDup (ticked (events p))
  /\ forall r, r ∈ ticked (events p) -> stamped (world_of p) r.

(** The world a visit that does call [tick] on the seed at [r] produces:
    the stamp is written first, then the age, then the seed acts and is
    moved to its new bucket. *)
Definition visited `{Host} (yearPassed : bool) (speed0 : Z) (r : ref)
    (seed : Seed.t) (w : World) : World :=
  let w1 := update_seed r (Seed.set_tickMod (tickMod w)) w in
  let w2 := if yearPassed
            then update_seed r (Seed.set_age (Seed.age seed + 1)) w1 else w1 in
  relocate r (Seed.tileIndex seed) (Seed_tick speed0 r w2).

(** [n] ticks in a row, each the frame the one before requested: the world
    after the last and the calls of each. *)
Fixpoint ticks `{Host} (n : nat) (w : World) : World * list (list Event) :=
  match n with
  | O => (w, [])
  | S n' =>
      let r := run (fst (ticks n' w)) in
      (fst r, snd (ticks n' w) ++ [snd r])
  end.

(** No slot of any tile holds a seed. *)
Definition no_seeds (w : World) : Prop :=
  forall i j r, Tile_list w !! i ≫= (fun seeds => seeds !! j) <> Some (Some r).

#[export] Instance Callback_eq_dec : EqDecision Callback.
Proof. solve_decision. Defined.

#[export] Instance Event_eq_dec : EqDecision Event.
Proof. solve_decision. Defined.

(** How often the stop callback [cb] was called. *)
Definition calls_of (cb : Callback) (ev : list Event) : nat :=
  length (filter (fun e => e = stopCallback_call cb) ev).

(** The calls a pass makes are to the canvas and to the seeds. *)
Definition pass_event (e : Event) : Prop :=
  match e with
  | clearRect | draw _ _ | tick _ _ => True
  | _ => False
  end.

(** ** A sample host

    Concrete collaborators on which the statements are instantiated: two tiles
    side by side, seeds that walk to the right, 13 x 20 sprites. *)

Definition demo_seed (male : bool) (data : Data) : Seed.t :=
  {| Seed.id := 0;
     Seed.age := 0;
     Seed.tickCount := Int (default 0 (d_tickCount data));
     Seed.stepCount := Int 0;
     Seed.tickMod := Int 0;
     Seed.IQ := 0;
     Seed.x := d_x data;
     Seed.y := d_y data;
     Seed.appearance_width := 13;
     Seed.appearance_height := 20;
     Seed.actionInterval := 30;
     Seed.tileIndex := 0;
     Seed.tickIndex := 0;
     Seed.married := false;
     Seed.relationSeed := None;
     Seed.instanceofMale := male;
     Seed.maxChildAge := 15 |}.

Definition demo_step (speed : Z) (seed : Seed.t) : Seed.t :=
  Seed.set_x (Some (default 0 (Seed.x seed) + 320 * speed)) seed.

#[export] Instance demo_host : Host :=
  {| Tile_getIndex :=
       fun seed => Z.to_nat (Z.max 0 (Z.min 1 (default 0 (Seed.x seed) / 320)));
     Seed_tick := fun speed r w => update_seed r (demo_step speed) w;
     Rules_change := fun w => {| baseIQ := baseIQ (Rules w) + 1 |};
     Knowledge_gain := fun w => Rules w;
     Statistic_population := fun calls => Z.of_nat (length calls);
     Callback_call := fun _ w => w;
     Male := demo_seed true;
     Female := demo_seed false |}.

Definition demo_random : Random :=
  fun n => Qmake (Z.of_nat ((n * 37 + 11) mod 128)) 128.

(** Draws that are all 1 - 2^-53, the largest double below 1. *)
Definition edge_random : Random :=
  fun _ => (1 - 1 / inject_Z (2 ^ 53))%Q.

Definition demo_data (age x y : option Z) : Data :=
  {| d_age := age; d_tickCount := None; d_x := x; d_y := y |}.

(** A freshly constructed world over two empty tiles. *)
Definition demo_world : World :=
  WorldJS [[]; []] 5 {| baseIQ := 0 |}.

(** Two spouses, at addresses 0 and 1, and a single seed at address 2, each
    in the bucket of tile 0. *)
Definition demo_family : World :=
  let spouse (male : bool) (partner : ref) (phase : nat) : Seed.t :=
    Seed.set_tickIndex phase
      (Seed.set_relationSeed (Some partner)
         (Seed.set_married true
            (demo_seed male (demo_data (Some 20) (Some 10) (Some 10))))) in
  with_Statistic [Statistic_seedAdded 0%nat; Statistic_seedAdded 1%nat;
                  Statistic_seedAdded 2%nat]
    (with_distributedTicks ([Int 1; Int 1; Int 1] ++ replicate 56 (Int 0))
       (with_Tile_list [[Some 0%nat; Some 1%nat; Some 2%nat]; []]
          (with_heap [spouse true 1%nat 0%nat; spouse false 0%nat 1%nat;
                      Seed.set_tickIndex 2%nat
                        (demo_seed true (demo_data (Some 9) (Some 20) (Some 20)))]
             demo_world))).

(** A seed about to cross from tile 0 into tile 1, where a slot was vacated
    ahead of a second seed; the year is at its 41st tick. *)
Definition demo_crossing : World :=
  with_running true
    (with_tickMod (Int 41)
       (with_Tile_list [[Some 0%nat]; [None; Some 1%nat]]
          (with_heap [Seed.set_tickMod (Int 41)
                        (demo_seed true (demo_data (Some 20) (Some 10) (Some 10)));
                      Seed.set_tickMod (Int 41)
                        (Seed.set_tileIndex 1%nat
                           (demo_seed false
                              (demo_data (Some 20) (Some 400) (Some 10))))]
             demo_world))).

(** The same world with both seeds on the statistics' record. *)
Definition demo_crossing_live : World :=
  with_Statistic [Statistic_seedAdded 0%nat; Statistic_seedAdded 1%nat]
    demo_crossing.

(** Collaborators whose seeds walk to the right and, at every tick, give
    birth to a boy at x = 500 (in tile 1). *)
Definition breeding_host : Host :=
  {| Tile_getIndex := @Tile_getIndex demo_host;
     Seed_tick :=
       fun speed r w =>
         fst (@add demo_host (demo_seed true)
                (demo_data None (Some 500) (Some 10)) demo_random
                (update_seed r (demo_step speed) w));
     Rules_change := @Rules_change demo_host;
     Knowledge_gain := @Knowledge_gain demo_host;
     Statistic_population := @Statistic_population demo_host;
     Callback_call := @Callback_call demo_host;
     Male := demo_seed true;
     Female := demo_seed false |}.

(** ** Further notions *)

(** A sequence of admissions, with no eviction. *)
Definition only_adds (ops : list Op) : Prop :=
  Forall (fun o => match o with op_add _ _ => True | op_remove _ => False end) ops.

(** [n] seeds shared out over [m] frames in turn, lowest frame first: frame
    [i] holds [n / m] seeds, and one more when [i < n mod m]. *)
Definition shared_out (m n : nat) : list Z :=
  (fun i : nat =>
     Z.of_nat (n / m) + (if decide (i < n mod m)%nat then 1 else 0))
  <$> seq 0 m.

(** The counters and the seeds' frames after admissions only. *)
Definition in_turn (w : World) : Prop :=
  distributedTicks w
  = Int <$> shared_out (length (distributedTicks w)) (length (heap w))
  /\ forall i seed, heap w !! i = Some seed ->
       Seed.tickIndex seed = (i mod length (distributedTicks w))%nat.

(** Where [addRandomPeople] puts people who come from a border: one
    coordinate is forced into a strip along that border, the other is left
    to [add].  At the top and on the left the strip is [0, 10].  At the
    bottom and on the right the sum [random * 11 + min] is rounded once more
    and can reach [height] or [width] itself. *)
Definition at_top (d : Data) : Prop :=
  d_x d = None /\ exists y, d_y d = Some y /\ 0 <= y <= 10.

Definition at_bottom (w : World) (d : Data) : Prop :=
  d_x d = None /\ exists y, d_y d = Some y /\ height w - 11 <= y <= height w.

Definition at_left (d : Data) : Prop :=
  d_y d = None /\ exists x, d_x d = Some x /\ 0 <= x <= 10.

Definition at_right (w : World) (d : Data) : Prop :=
  d_y d = None /\ exists x, d_x d = Some x /\ width w - 11 <= x <= width w.

(** What [addRandomPeople] has done after [k] rounds on [w]: [k] seeds were
    appended to the heap, with the next [k] identities, the ages drawn
    between [minAge] and [maxAge] + 1 (the rounded sum can reach
    [maxAge] + 1), men first; the statistics were told of each in turn. *)
Definition peopled `{Host} (count minAge maxAge : Z) (w : World) (k : nat)
    (w' : World) : Prop :=
  length (heap w') = (length (heap w) + k)%nat
  /\ (forall i, (i < length (heap w))%nat -> heap w' !! i = heap w !! i)
  /\ nextSeedId w' = nextSeedId w + Z.of_nat k
  /\ Statistic w'
     = Statistic w ++ (Statistic_seedAdded <$> seq (length (heap w)) k)
  /\ forall i seed,
       heap w' !! (length (heap w) + i)%nat = Some seed ->
       Seed.id seed = nextSeedId w + Z.of_nat i
       /\ minAge <= Seed.age seed <= maxAge + 1
       /\ Seed.instanceofMale seed = (2 * Z.of_nat i <? count).

(** What the statistics of a year add up to: everybody ticked is counted
    once, as a man, a woman, a boy or a girl, and a family is a married man. *)
Definition tallied (p : Pass) : Prop :=
  population (stats p) = Z.of_nat (length (ticked (events p)))
  /\ population (stats p)
     = men (stats p) + women (stats p) + boys (stats p) + girls (stats p)
  /\ 0 <= families (stats p) <= men (stats p)
  /\ 0 <= women (stats p) /\ 0 <= boys (stats p) /\ 0 <= girls (stats p).

(** A call to the canvas: clearing it, or drawing a seed. *)
Definition canvas_call (e : Event) : Prop :=
  match e with
  | clearRect | draw _ _ => True
  | _ => False
  end.

(** How many seeds were drawn. *)
Definition draws (ev : list Event) : nat :=
  length (omap (fun e => match e with draw r _ => Some r | _ => None end) ev).

(** The test of line 329. *)
Definition reDraw_of `{Host} (w : World) : bool :=
  (Statistic_population (Statistic w) <=? maxSafeSeedsForDisplay w)
  || num_eqb (next_tickMod w) (Int 0).

(** The pass of [run] on [w] once the first [n] tiles were visited: the
    state of the outer loop of line 347 when [i] = [n]. *)
Definition tiles_visited `{Host} (n : nat) (w : World) : Pass :=
  let w := with_tickMod (next_tickMod w) w in
  let yearPassed := num_eqb (tickMod w) (Int 0) in
  let reDraw :=
    (Statistic_population (Statistic w) <=? maxSafeSeedsForDisplay w) || yearPassed in
  foldl (visit_tile yearPassed reDraw (speed w) (Tile_maxDisplayedSeeds w))
    {| world_of := w; stats := no_aggregates;
       events := if reDraw then [clearRect] else [] |}
    (seq 0 n).

(** The seeds a bucket holds, in slot order, the vacated slots left out. *)
Definition occupants (bucket : list (option ref)) : list ref :=
  omap id bucket.

(** Every seed created since the heap held [n] objects carries the stamp of
    the current tick. *)
Definition newborns_stamped (n : nat) (w : World) : Prop :=
  forall r, (n <= r < length (heap w))%nat -> stamped w r.

(** ** The tiles as an index of the seeds *)

(** The slot [j] of the bucket of tile [i] holds the seed [r]. *)
Definition occupies (tiles : list (list (option ref))) (r : ref) (i j : nat)
    : Prop :=
  tiles !! i ≫= (fun seeds => seeds !! j) = Some (Some r).

(** No seed sits in two slots. *)
Definition one_slot (tiles : list (list (option ref))) : Prop :=
  forall r i j i' j',
    occupies tiles r i j -> occupies tiles r i' j' -> i = i' /\ j = j'.

(** [Tile.getIndex] reads the position of the seed and nothing else. *)
Definition position_only `{Host} : Prop :=
  forall s s',
    Seed.x s = Seed.x s' -> Seed.y s = Seed.y s' ->
    Tile_getIndex s = Tile_getIndex s'.

(** Every seed a bucket holds is an object of the heap, sits in no other
    slot, and the bucket is that of the tile its position maps to, which its
    [tileIndex] names. *)
Definition tiles_sorted `{Host} (w : World) : Prop :=
  one_slot (Tile_list w)
  /\ forall r i j, occupies (Tile_list w) r i j ->
       exists seed, heap w !! r = Some seed
         /\ Seed.tileIndex seed = i /\ Tile_getIndex seed = i.

(** The same while the seed [r0] acts: it may have moved, and is still in
    the bucket of the tile [old] it was found in. *)
Definition tiles_sorted_but `{Host} (r0 : ref) (old : nat) (w : World) : Prop :=
  one_slot (Tile_list w)
  /\ forall r i j, occupies (Tile_list w) r i j ->
       exists seed, heap w !! r = Some seed
         /\ Seed.tileIndex seed = i
         /\ if decide (r = r0) then i = old else Tile_getIndex seed = i.

(** Every live seed is held by the bucket its [tileIndex] names. *)
Definition live_indexed (w : World) : Prop :=
  forall r, r ∈ live w ->
    exists seed j, heap w !! r = Some seed
      /\ occupies (Tile_list w) r (Seed.tileIndex seed) j.

(** The tiles are an index of the live seeds: there are [n] buckets; every
    live seed is held by a bucket, in one slot, and a bucket holds nothing
    but seeds of the tile it stands for, whose position maps to that tile. *)
Definition tiles_index `{Host} (n : nat) (w : World) : Prop :=
  length (Tile_list w) = n /\ tiles_sorted w /\ live_indexed w.

Definition tiles_index_but `{Host} (n : nat) (r0 : ref) (old : nat)
    (w : World) : Prop :=
  length (Tile_list w) = n /\ tiles_sorted_but r0 old w /\ live_indexed w.

(** ** Ages *)

(** From [w] to [w'] every seed keeps its age (seeds may be created). *)
Definition ages_kept (w w' : World) : Prop :=
  forall r s, heap w !! r = Some s ->
    exists s', heap w' !! r = Some s' /\ Seed.age s' = Seed.age s.

(** The years a tick adds to the age of the seed at [r]: one when the tick
    closes a year and the seed was ticked, none otherwise. *)
Definition years_added (yearPassed : bool) (ev : list Event) (r : ref) : Z :=
  if decide (r ∈ ticked ev) then (if yearPassed then 1 else 0) else 0.

(** * Properties *)

(** ** Arrays of integer counters *)

Lemma array_get_int (zs : list Z) (i : nat) (z : Z) :
  zs !! i = Some z -> array_get (Int <$> zs) i = Int z.
Proof.
  intros Hz. unfold array_get. rewrite list_lookup_fmap, Hz. reflexivity.
Qed.

Lemma array_set_int (zs : list Z) (i : nat) (z : Z) :
  (i < length zs)%nat -> array_set (Int <$> zs) i (Int z) = Int <$> <[i:=z]> zs.
Proof.
  intros Hi. unfold array_set. rewrite length_fmap.
  destruct (decide (i < length zs)%nat) as [_|Hn]; [|lia].
  symmetry. apply list_fmap_insert.
Qed.

Lemma num_sum_int (zs : list Z) :
  num_sum (Int <$> zs) = Int (foldr Z.add 0 zs).
Proof.
  induction zs as [|z zs IH]; [reflexivity|].
  cbn. unfold num_sum in IH. rewrite IH. reflexivity.
Qed.

Lemma sum_insert (zs : list Z) (i : nat) (z d : Z) :
  zs !! i = Some z ->
  foldr Z.add 0 (<[i:=z + d]> zs) = foldr Z.add 0 zs + d.
Proof.
  revert i. induction zs as [|a zs IH]; intros [|i] Hz; try discriminate.
  - cbn in *. injection Hz as ->. lia.
  - cbn in Hz. pose proof (IH i Hz) as IHi.
    change (a + foldr Z.add 0 (<[i:=z + d]> zs) = a + foldr Z.add 0 zs + d).
    lia.
Qed.

(** ** The scan for the least loaded frame *)

Lemma scan_min_prefix (zs : list Z) (n : nat) :
  zs <> [] -> (n <= length zs)%nat ->
  exists k zk,
    foldl (fun (m : nat * Number) (i : nat) =>
             if num_ltb (array_get (Int <$> zs) i) (snd m)
             then (i, array_get (Int <$> zs) i) else m)
          (0%nat, array_get (Int <$> zs) 0) (seq 0 n) = (k, Int zk)
    /\ zs !! k = Some zk
    /\ (forall i z, (i < n)%nat -> zs !! i = Some z -> zk <= z)
    /\ (forall i z, (i < k)%nat -> zs !! i = Some z -> zk < z).
Proof.
  intros Hne. induction n as [|n IH]; intros Hn.
  - destruct zs as [|z0 zs]; [congruence|].
    exists 0%nat, z0. cbn. repeat split; intros; lia.
  - destruct IH as (k & zk & Hfold & Hk & Hle & Hlt); [lia|].
    rewrite seq_S, foldl_snoc, Hfold. cbn [snd Nat.add].
    destruct (lookup_lt_is_Some_2 zs n) as [zn Hzn]; [lia|].
    rewrite (array_get_int _ _ _ Hzn). cbn [num_ltb].
    destruct (Z.ltb_spec zn zk) as [Hcmp|Hcmp].
    + exists n, zn. repeat split; [exact Hzn| |].
      * intros i z Hi Hz. destruct (decide (i = n)) as [->|Hin].
        -- rewrite Hzn in Hz. injection Hz as ->. lia.
        -- pose proof (Hle i z ltac:(lia) Hz). lia.
      * intros i z Hi Hz. pose proof (Hle i z Hi Hz). lia.
    + exists k, zk. repeat split; [exact Hk| |exact Hlt].
      intros i z Hi Hz. destruct (decide (i = n)) as [->|Hin].
      * rewrite Hzn in Hz. injection Hz as ->. lia.
      * apply (Hle i z); [lia|exact Hz].
Qed.

Lemma scan_min_first_min (zs : list Z) :
  zs <> [] -> first_min zs (fst (scan_min (Int <$> zs))).
Proof.
  intros Hne.
  destruct (scan_min_prefix zs (length zs) Hne (Nat.le_refl _))
    as (k & zk & Hfold & Hk & Hle & Hlt).
  unfold scan_min. rewrite length_fmap, Hfold. cbn [fst].
  exists zk. repeat split; [exact Hk| |exact Hlt].
  intros i z Hz. apply (Hle i z); [|exact Hz].
  apply lookup_lt_Some in Hz. exact Hz.
Qed.

(** ** What add stores *)

Arguments scan_min : simpl never.

(** Case analysis on the three tests of [add] (an age, a forced [x], a forced
    [y]), for a goal about the admitted seed. *)
Ltac admitted_cases :=
  unfold admitted, add; cbn;
  rewrite lookup_app_r, Nat.sub_diag by lia; cbn;
  match goal with |- context [0 <? ?a] => destruct (0 <? a) end; cbn;
  match goal with |- context [Seed.x ?s] => destruct (Seed.x s) end; cbn;
  match goal with |- context [Seed.y ?s] => destruct (Seed.y s) end; cbn;
  intros [= <-]; cbn.

Section Admission.
Context `{Host}.
Variables (SeedCtor : Data -> Seed.t) (data : Data) (g : Random) (w : World).

Lemma add_heap :
  exists seed, heap (fst (add SeedCtor data g w)) = heap w ++ [seed].
Proof. eexists. reflexivity. Qed.

Lemma admitted_is_Some : is_Some (admitted SeedCtor data g w).
Proof.
  unfold admitted. destruct add_heap as [seed ->].
  rewrite lookup_app_r, Nat.sub_diag by lia. eexists. reflexivity.
Qed.

Lemma add_distributedTicks :
  distributedTicks (fst (add SeedCtor data g w)) =
  array_set (distributedTicks w) (fst (scan_min (distributedTicks w)))
    (num_add (array_get (distributedTicks w) (fst (scan_min (distributedTicks w))))
       (Int 1)).
Proof. reflexivity. Qed.

Lemma add_nextSeedId :
  nextSeedId (fst (add SeedCtor data g w)) = nextSeedId w + 1.
Proof. reflexivity. Qed.

Lemma add_Statistic :
  Statistic (fst (add SeedCtor data g w)) =
  Statistic w ++ [Statistic_seedAdded (length (heap w))].
Proof. reflexivity. Qed.

Lemma admitted_tickIndex (seed : Seed.t) :
  admitted SeedCtor data g w = Some seed ->
  Seed.tickIndex seed = fst (scan_min (distributedTicks w)).
Proof. admitted_cases; reflexivity. Qed.

Lemma admitted_id (seed : Seed.t) :
  admitted SeedCtor data g w = Some seed -> Seed.id seed = nextSeedId w.
Proof. admitted_cases; reflexivity. Qed.

Lemma admitted_tickCount (seed : Seed.t) :
  admitted SeedCtor data g w = Some seed ->
  Seed.tickCount seed =
    num_add (baseTickCount SeedCtor data w)
      (num_rem (num_add (num_add (tickMod w) (baseTickCount SeedCtor data w))
                  (Int (Z.of_nat (Seed.tickIndex seed))))
         (Int (Seed.actionInterval (SeedCtor data))))
  /\ Seed.stepCount seed = Seed.tickCount seed.
Proof. unfold baseTickCount. admitted_cases; split; reflexivity. Qed.

End Admission.

(** ** Phase assignment at admission *)

(** The counters after [add], when they are integers: the first index of a
    minimum has gone up by one. *)
Lemma add_counters `{Host} (SeedCtor : Data -> Seed.t) (data : Data)
    (g : Random) (w : World) (zs : list Z) :
  distributedTicks w = Int <$> zs -> zs <> [] ->
  exists k zk,
    fst (scan_min (distributedTicks w)) = k
    /\ first_min zs k
    /\ zs !! k = Some zk
    /\ distributedTicks (fst (add SeedCtor data g w)) = Int <$> <[k:=zk + 1]> zs.
Proof.
  intros Hdt Hne.
  pose proof (scan_min_first_min zs Hne) as Hmin.
  pose proof Hmin as (zk & Hk & _).
  exists (fst (scan_min (Int <$> zs))), zk.
  split; [rewrite Hdt; reflexivity|]. split; [exact Hmin|]. split; [exact Hk|].
  rewrite add_distributedTicks, Hdt, (array_get_int _ _ _ Hk). cbn [num_add].
  apply array_set_int. apply lookup_lt_Some in Hk. exact Hk.
Qed.

(** C3: at admission the seed's [tickIndex] is the index of a minimum of the
    counters [distributedTicks], the lowest such index; that counter is
    incremented by one and no other counter changes (the array keeps its
    length). *)
Theorem add_assigns_least_loaded_phase `{Host} (SeedCtor : Data -> Seed.t)
    (data : Data) (g : Random) (w : World) (zs : list Z) :
  distributedTicks w = Int <$> zs -> zs <> [] ->
  exists seed k zk,
    admitted SeedCtor data g w = Some seed
    /\ Seed.tickIndex seed = k
    /\ first_min zs k
    /\ zs !! k = Some zk
    /\ distributedTicks (fst (add SeedCtor data g w)) = Int <$> <[k:=zk + 1]> zs
    /\ (forall i, i <> k ->
          distributedTicks (fst (add SeedCtor data g w)) !! i
          = distributedTicks w !! i).
Proof.
  intros Hdt Hne.
  destruct (admitted_is_Some SeedCtor data g w) as [seed Hseed].
  destruct (add_counters SeedCtor data g w zs Hdt Hne)
    as (k & zk & Hscan & Hmin & Hk & Hnew).
  exists seed, k, zk.
  split; [exact Hseed|].
  split; [rewrite (admitted_tickIndex _ _ _ _ _ Hseed); exact Hscan|].
  split; [exact Hmin|]. split; [exact Hk|]. split; [exact Hnew|].
  intros i Hi. rewrite Hnew, Hdt, !list_lookup_fmap.
  rewrite list_lookup_insert_ne by congruence. reflexivity.
Qed.

Lemma add_assigns_least_loaded_phase_witness :
  let w := with_distributedTicks [Int 2; Int 1; Int 3; Int 1] demo_world in
  let d := demo_data (Some 15) None None in
  distributedTicks w = Int <$> [2; 1; 3; 1]
  /\ [2; 1; 3; 1] <> []
  /\ exists seed k zk,
       admitted Male d demo_random w = Some seed
       /\ Seed.tickIndex seed = k
       /\ first_min [2; 1; 3; 1] k
       /\ [2; 1; 3; 1] !! k = Some zk
       /\ distributedTicks (fst (add Male d demo_random w))
          = Int <$> <[k:=zk + 1]> [2; 1; 3; 1]
       /\ (forall i, i <> k ->
             distributedTicks (fst (add Male d demo_random w)) !! i
             = distributedTicks w !! i).
Proof.
  split; [reflexivity|]. split; [discriminate|].
  apply (add_assigns_least_loaded_phase Male (demo_data (Some 15) None None)
           demo_random
           (with_distributedTicks [Int 2; Int 1; Int 3; Int 1] demo_world)
           [2; 1; 3; 1]).
  - reflexivity.
  - discriminate.
Defined.

(** The constructor makes [tickPerYear - 1] counters, all zero. *)
Lemma WorldJS_distributedTicks (tiles : list (list (option ref))) (cap : Z)
    (rules : RulesState) :
  let w := WorldJS tiles cap rules in
  distributedTicks w = Int <$> replicate 59 0
  /\ Z.of_nat (length (distributedTicks w)) = tickPerYear w - 1.
Proof. split; reflexivity. Qed.

Example add_phase_example :
  let w := with_distributedTicks [Int 2; Int 1; Int 3; Int 1] demo_world in
  distributedTicks (fst (add Male (demo_data (Some 15) None None) demo_random w))
  = [Int 2; Int 2; Int 3; Int 1].
Proof. reflexivity. Qed.

(** ** The action counter at admission *)

(** C4: with [b] the seed's base tick count, [g] the world's [tickMod] and [p]
    the assigned [tickIndex], admission sets [tickCount] to
    [b + (g + b + p) % actionInterval] and [stepCount] to the same value; on
    non-negative integers with a positive interval, [%] is the mathematical
    modulo. *)
Theorem add_sets_action_counter `{Host} (SeedCtor : Data -> Seed.t)
    (data : Data) (g : Random) (w : World) :
  exists seed,
    admitted SeedCtor data g w = Some seed
    /\ Seed.tickCount seed =
         num_add (baseTickCount SeedCtor data w)
           (num_rem (num_add (num_add (tickMod w) (baseTickCount SeedCtor data w))
                       (Int (Z.of_nat (Seed.tickIndex seed))))
              (Int (Seed.actionInterval (SeedCtor data))))
    /\ Seed.stepCount seed = Seed.tickCount seed
    /\ (forall gz bz : Z,
          tickMod w = Int gz -> baseTickCount SeedCtor data w = Int bz ->
          0 <= gz -> 0 <= bz -> 0 < Seed.actionInterval (SeedCtor data) ->
          Seed.tickCount seed =
            Int (bz + (gz + bz + Z.of_nat (Seed.tickIndex seed))
                       mod Seed.actionInterval (SeedCtor data))).
Proof.
  destruct (admitted_is_Some SeedCtor data g w) as [seed Hseed].
  destruct (admitted_tickCount _ _ _ _ _ Hseed) as [Htc Hsc].
  exists seed. repeat split; [exact Hseed|exact Htc|exact Hsc|].
  intros gz bz Hg Hb Hgz Hbz Hai. rewrite Htc, Hg, Hb. cbn [num_add num_rem].
  destruct (Z.eqb_spec (Seed.actionInterval (SeedCtor data)) 0) as [E|_]; [lia|].
  rewrite Z.rem_mod_nonneg by lia. reflexivity.
Qed.

Lemma add_sets_action_counter_witness :
  let w := with_tickMod (Int 7) demo_world in
  let d := demo_data (Some 15) None None in
  exists seed,
    admitted Male d demo_random w = Some seed
    /\ Seed.tickCount seed = Int (900 + (7 + 900 + 0) mod 30)
    /\ Seed.stepCount seed = Int 907.
Proof.
  destruct (add_sets_action_counter Male (demo_data (Some 15) None None)
              demo_random (with_tickMod (Int 7) demo_world))
    as (seed & Hseed & _ & Hsc & Hint).
  exists seed. split; [exact Hseed|].
  assert (Hp : Seed.tickIndex seed = 0%nat).
  { rewrite (admitted_tickIndex _ _ _ _ _ Hseed). reflexivity. }
  specialize (Hint 7 900 eq_refl eq_refl ltac:(lia) ltac:(lia) ltac:(reflexivity)).
  rewrite Hp in Hint. split; [exact Hint|]. rewrite Hsc. exact Hint.
Defined.

(** ** Counters and population *)

Lemma live_snoc (w : World) (c : StatCall) :
  live (with_Statistic (Statistic w ++ [c]) w) = live_step (live w) c.
Proof. unfold live. cbn. apply foldl_snoc. Qed.

Lemma filter_ne_length (r : ref) (l : list ref) :
  NoDup l -> r ∈ l ->
  S (length (filter (fun r' => r' <> r) l)) = length l.
Proof.
  induction 1 as [|a l Ha Hnd IH]; intros Hin.
  - inversion Hin.
  - rewrite filter_cons. destruct (decide (a <> r)) as [Hne|Heq].
    + cbn. f_equal. apply IH. apply elem_of_cons in Hin as [->|Hin]; [congruence|exact Hin].
    + assert (a = r) as -> by (destruct (decide (a = r)); [assumption|contradiction]).
      cbn. f_equal. clear IH Hin Heq Hnd.
      induction l as [|b l IHl]; [reflexivity|].
      rewrite filter_cons. destruct (decide (b <> r)) as [_|Hb].
      * cbn. f_equal. apply IHl. intros Hr. apply Ha. right. exact Hr.
      * exfalso. apply Ha. destruct (decide (b = r)) as [->|]; [left|contradiction].
Qed.


Lemma live_Statistic (w1 w2 : World) :
  Statistic w1 = Statistic w2 -> live w1 = live w2.
Proof. unfold live. intros ->. reflexivity. Qed.

Section AddFacts.
Context `{Host}.
Variables (SeedCtor : Data -> Seed.t) (data : Data) (g : Random) (w : World).

Lemma add_heap_admitted (seed : Seed.t) :
  admitted SeedCtor data g w = Some seed ->
  heap (fst (add SeedCtor data g w)) = heap w ++ [seed].
Proof.
  unfold admitted. destruct (add_heap SeedCtor data g w) as [seed' ->].
  rewrite lookup_app_r, Nat.sub_diag by lia. intros [= ->]. reflexivity.
Qed.

Lemma admitted_married (seed : Seed.t) :
  admitted SeedCtor data g w = Some seed ->
  Seed.married seed = Seed.married (SeedCtor data)
  /\ Seed.relationSeed seed = Seed.relationSeed (SeedCtor data).
Proof. admitted_cases; split; reflexivity. Qed.

Lemma add_live :
  live (fst (add SeedCtor data g w)) = live w ++ [length (heap w)].
Proof.
  transitivity (live (with_Statistic
                        (Statistic w ++ [Statistic_seedAdded (length (heap w))]) w)).
  - apply live_Statistic. reflexivity.
  - exact (live_snoc w (Statistic_seedAdded (length (heap w)))).
Qed.

Lemma add_frame :
  let w' := fst (add SeedCtor data g w) in
  running w' = running w /\ stopCallback w' = stopCallback w
  /\ width w' = width w /\ height w' = height w /\ padding w' = padding w
  /\ tickPerYear w' = tickPerYear w /\ tickMod w' = tickMod w
  /\ Rules w' = Rules w.
Proof. repeat split; reflexivity. Qed.

End AddFacts.

(** Eviction of an unmarried seed: the statistics are told, the slot is
    vacated and the counter at the seed's [tickIndex] goes down by one. *)
Lemma remove_unmarried (r : ref) (w : World) (seed : Seed.t) :
  heap w !! r = Some seed -> Seed.married seed = false ->
  exists w',
    remove r w = Returned w'
    /\ heap w' = heap w
    /\ Statistic w' = Statistic w ++ [Statistic_seedRemoved r]
    /\ distributedTicks w' =
         array_set (distributedTicks w) (Seed.tickIndex seed)
           (num_sub (array_get (distributedTicks w) (Seed.tickIndex seed)) (Int 1)).
Proof.
  intros Hr Hm. unfold remove. cbn. rewrite Hr, Hm.
  eexists. split; [reflexivity|]. unfold Tile_rem. cbn. rewrite Hr. cbn.
  repeat split; reflexivity.
Qed.

Lemma counters_inv_WorldJS (tiles : list (list (option ref))) (cap : Z)
    (rules : RulesState) :
  counters_inv (WorldJS tiles cap rules).
Proof.
  exists (replicate 59 0). repeat split.
  - discriminate.
  - apply NoDup_nil_2.
  - intros r Hr. inversion Hr.
Qed.

Lemma counters_inv_add `{Host} (SeedCtor : Data -> Seed.t) (data : Data)
    (g : Random) (w : World) :
  counters_inv w -> Seed.married (SeedCtor data) = false ->
  counters_inv (fst (add SeedCtor data g w)).
Proof.
  intros (zs & Hdt & Hne & Hsum & Hnd & Hlive) Hm.
  destruct (add_counters SeedCtor data g w zs Hdt Hne)
    as (k & zk & Hscan & _ & Hk & Hnew).
  destruct (admitted_is_Some SeedCtor data g w) as [seed Hseed].
  pose proof (admitted_tickIndex _ _ _ _ _ Hseed) as Hti. rewrite Hscan in Hti.
  exists (<[k:=zk + 1]> zs). rewrite add_live, (add_heap_admitted _ _ _ _ _ Hseed).
  assert (Hfresh : forall r, r ∈ live w -> (r < length (heap w))%nat).
  { intros r Hr. destruct (Hlive r Hr) as (s & Hs & _).
    apply lookup_lt_Some in Hs. exact Hs. }
  repeat split.
  - exact Hnew.
  - intros E. apply (f_equal length) in E. rewrite length_insert in E.
    destruct zs; [congruence|discriminate].
  - rewrite (sum_insert _ _ _ _ Hk), Hsum, length_app. cbn. lia.
  - apply NoDup_app. repeat split; [exact Hnd| |apply NoDup_singleton].
    intros r Hr Hin. apply list_elem_of_singleton in Hin. subst r.
    apply Hfresh in Hr. lia.
  - intros r Hr. rewrite length_insert.
    apply elem_of_app in Hr as [Hr|Hr].
    + destruct (Hlive r Hr) as (s & Hs & Hms & Hts).
      exists s. rewrite lookup_app_l by (apply lookup_lt_Some in Hs; exact Hs).
      repeat split; assumption.
    + apply list_elem_of_singleton in Hr. subst r. exists seed.
      rewrite lookup_app_r, Nat.sub_diag by lia. repeat split.
      * rewrite (proj1 (admitted_married _ _ _ _ _ Hseed)). exact Hm.
      * rewrite Hti. apply lookup_lt_Some in Hk. exact Hk.
Qed.

Lemma counters_inv_remove (r : ref) (w : World) :
  counters_inv w -> r ∈ live w -> counters_inv (world_after (remove r w)).
Proof.
  intros (zs & Hdt & Hne & Hsum & Hnd & Hlive) Hr.
  destruct (Hlive r Hr) as (seed & Hseed & Hm & Hti).
  destruct (remove_unmarried r w seed Hseed Hm) as (w' & -> & Hheap & Hstat & Hnew).
  cbn [world_after].
  destruct (lookup_lt_is_Some_2 zs _ Hti) as [z Hz].
  assert (Hlv : live w' = filter (fun r' => r' <> r) (live w)).
  { transitivity (live (with_Statistic
                            (Statistic w ++ [Statistic_seedRemoved r]) w)).
    - apply live_Statistic. exact Hstat.
    - exact (live_snoc w (Statistic_seedRemoved r)). }
  exists (<[Seed.tickIndex seed:=z + -1]> zs). rewrite Hlv, Hheap. repeat split.
  - rewrite Hnew, Hdt, (array_get_int _ _ _ Hz). cbn [num_sub].
    rewrite array_set_int by exact Hti. reflexivity.
  - intros E. apply (f_equal length) in E. rewrite length_insert in E.
    destruct zs; [congruence|discriminate].
  - rewrite (sum_insert _ _ _ _ Hz), Hsum.
    pose proof (filter_ne_length r (live w) Hnd Hr). lia.
  - apply NoDup_filter. exact Hnd.
  - intros r' Hr'. apply list_elem_of_filter in Hr' as [_ Hr'].
    rewrite length_insert. apply Hlive. exact Hr'.
Qed.

Lemma counters_inv_apply_ops `{Host} (ops : list Op) (wg : World * Random) :
  counters_inv (fst wg) -> admissible ops wg ->
  counters_inv (fst (apply_ops ops wg)).
Proof.
  revert wg. induction ops as [|o ops IH]; intros wg Hinv Hok; [exact Hinv|].
  destruct Hok as [Ho Hok]. cbn. apply IH; [|exact Hok].
  destruct o as [C d|r].
  - exact (counters_inv_add C d (snd wg) (fst wg) Hinv Ho).
  - exact (counters_inv_remove r (fst wg) Hinv Ho).
Qed.

(** C2: after any sequence of admissions and evictions (of live seeds) on a
    new world, the counters [distributedTicks] add up to the number of live
    seeds; one more [add] increments exactly one counter, and one more
    [remove] of a live seed decrements exactly the counter at that seed's
    [tickIndex]. *)
Theorem counters_sum_is_population `{Host} (tiles : list (list (option ref)))
    (cap : Z) (rules : RulesState) (g : Random) (ops : list Op) :
  admissible ops (WorldJS tiles cap rules, g) ->
  let w := fst (apply_ops ops (WorldJS tiles cap rules, g)) in
  num_sum (distributedTicks w) = Int (Z.of_nat (length (live w)))
  /\ (forall SeedCtor data g',
        exists k z,
          distributedTicks w !! k = Some (Int z)
          /\ distributedTicks (fst (add SeedCtor data g' w))
             = <[k:=Int (z + 1)]> (distributedTicks w))
  /\ (forall r, r ∈ live w ->
        exists seed z,
          heap w !! r = Some seed
          /\ distributedTicks w !! Seed.tickIndex seed = Some (Int z)
          /\ distributedTicks (world_after (remove r w))
             = <[Seed.tickIndex seed:=Int (z - 1)]> (distributedTicks w)).
Proof.
  intros Hok w.
  pose proof (counters_inv_apply_ops ops (WorldJS tiles cap rules, g)
                (counters_inv_WorldJS tiles cap rules) Hok) as Hinv.
  fold w in Hinv. destruct Hinv as (zs & Hdt & Hne & Hsum & Hnd & Hlive).
  repeat split.
  - rewrite Hdt, num_sum_int, Hsum. reflexivity.
  - intros C d g'.
    destruct (add_counters C d g' w zs Hdt Hne) as (k & zk & _ & _ & Hk & Hnew).
    exists k, zk. rewrite Hnew, Hdt, list_lookup_fmap, Hk.
    split; [reflexivity|]. apply list_fmap_insert.
  - intros r Hr. destruct (Hlive r Hr) as (seed & Hseed & Hm & Hti).
    destruct (lookup_lt_is_Some_2 zs _ Hti) as [z Hz].
    destruct (remove_unmarried r w seed Hseed Hm) as (w' & -> & _ & _ & Hnew).
    exists seed, z. cbn [world_after].
    rewrite Hnew, Hdt, (array_get_int _ _ _ Hz), list_lookup_fmap, Hz.
    cbn [num_sub]. rewrite array_set_int by exact Hti.
    split; [exact Hseed|]. split; [reflexivity|]. apply list_fmap_insert.
Qed.

Lemma counters_sum_is_population_witness :
  let ops := [op_add Male (demo_data (Some 15) None None);
              op_add Female (demo_data (Some 20) None None);
              op_add Male (demo_data (Some 17) (Some 5) None);
              op_remove 1%nat;
              op_add Female (demo_data None None (Some 9))] in
  let w := fst (apply_ops ops (demo_world, demo_random)) in
  admissible ops (demo_world, demo_random)
  /\ live w = [0; 2; 3]%nat
  /\ num_sum (distributedTicks w) = Int 3.
Proof.
  assert (Hok : admissible
                  [op_add Male (demo_data (Some 15) None None);
                   op_add Female (demo_data (Some 20) None None);
                   op_add Male (demo_data (Some 17) (Some 5) None);
                   op_remove 1%nat;
                   op_add Female (demo_data None None (Some 9))]
                  (demo_world, demo_random)).
  { cbn [admissible]. repeat split; try reflexivity.
    apply list_elem_of_In. vm_compute. tauto. }
  split; [exact Hok|]. split; [reflexivity|].
  destruct (counters_sum_is_population [[]; []] 5 {| baseIQ := 0 |} demo_random
              _ Hok) as [Hsum _].
  refine (eq_trans Hsum _). reflexivity.
Defined.

(** ** Positions and identities at admission *)

(** ** Double-precision arithmetic *)

Lemma pow2_pos (k : Z) : (0 < 2 ^ k)%Q.
Proof. apply Qpower_0_lt. reflexivity. Qed.

Lemma pow2_plus (a b : Z) : (2 ^ (a + b) == 2 ^ a * 2 ^ b)%Q.
Proof. apply Qpower_plus. discriminate. Qed.

Lemma pow2_le (a b : Z) : a <= b -> (2 ^ a <= 2 ^ b)%Q.
Proof. intros Hab. apply Qpower_le_compat_l; [exact Hab|discriminate]. Qed.

Lemma pow2_Z (k : Z) : 0 <= k -> (2 ^ k == inject_Z (2 ^ k))%Q.
Proof. intros Hk. symmetry. apply (Zpower_Qpower 2 k Hk). Qed.

Lemma inject_Z_pos (z : Z) : 0 < z -> (0 < inject_Z z)%Q.
Proof. intros Hz. change 0%Q with (inject_Z 0). rewrite <- Zlt_Qlt. exact Hz. Qed.

Lemma ilog2_spec (q : Q) :
  (0 < q)%Q -> (2 ^ ilog2 q <= q)%Q /\ (q < 2 ^ (ilog2 q + 1))%Q.
Proof.
  intros Hq.
  assert (Ha : 0 < Qnum q) by (unfold Qlt in Hq; cbn in Hq; lia).
  set (la := Z.log2 (Qnum q)). set (lb := Z.log2 (Z.pos (Qden q))).
  destruct (Z.log2_spec (Qnum q) Ha) as [Ha1 Ha2].
  destruct (Z.log2_spec (Z.pos (Qden q)) ltac:(lia)) as [Hb1 Hb2].
  fold la in Ha1, Ha2. fold lb in Hb1, Hb2.
  assert (Hla : 0 <= la) by apply Z.log2_nonneg.
  assert (Hlb : 0 <= lb) by apply Z.log2_nonneg.
  assert (Hqb : (q * inject_Z (Z.pos (Qden q)) == inject_Z (Qnum q))%Q).
  { unfold Qeq. cbn. lia. }
  assert (Hup : (q < 2 ^ (la - lb + 1))%Q).
  { replace (la - lb + 1) with ((la + 1) - lb) by lia.
    rewrite Qpower_minus by discriminate.
    rewrite (pow2_Z (la + 1)), (pow2_Z lb) by lia.
    apply Qlt_shift_div_l; [apply inject_Z_pos; lia|].
    apply Qle_lt_trans with (q * inject_Z (Z.pos (Qden q)))%Q.
    - apply Qmult_le_l; [exact Hq|]. rewrite <- Zle_Qle. exact Hb1.
    - rewrite Hqb. rewrite <- Zlt_Qlt. exact Ha2. }
  assert (Hlow : (2 ^ (la - lb - 1) <= q)%Q).
  { replace (la - lb - 1) with (la - (lb + 1)) by lia.
    rewrite Qpower_minus by discriminate.
    rewrite (pow2_Z la), (pow2_Z (lb + 1)) by lia.
    apply Qle_shift_div_r; [apply inject_Z_pos; lia|].
    apply Qle_trans with (q * inject_Z (Z.pos (Qden q)))%Q.
    - rewrite Hqb. rewrite <- Zle_Qle. exact Ha1.
    - apply Qmult_le_l; [exact Hq|]. rewrite <- Zle_Qle. lia. }
  unfold ilog2. fold la lb.
  destruct (Qle_bool (2 ^ (la - lb)) q) eqn:E.
  - apply Qle_bool_iff in E. split; [exact E|exact Hup].
  - split; [exact Hlow|].
    replace (la - lb - 1 + 1) with (la - lb) by lia.
    apply Qnot_le_lt. intros Hle. apply Qle_bool_iff in Hle. congruence.
Qed.

Lemma rne_floor (x : Q) : Qfloor x <= rne x <= Qfloor x + 1.
Proof.
  unfold rne. destruct (_ ?= _)%Q; [destruct (Z.even _)| |]; lia.
Qed.

Lemma rne_lb (k : Z) (x : Q) : (inject_Z k <= x)%Q -> k <= rne x.
Proof.
  intros Hk. apply Qfloor_resp_le in Hk. rewrite Qfloor_Z in Hk.
  pose proof (rne_floor x). lia.
Qed.

Lemma rne_half (x : Q) : (inject_Z (rne x) <= x + (1 # 2))%Q.
Proof.
  pose proof (Qfloor_le x) as Hf. unfold rne.
  destruct (Qcompare_spec (x - inject_Z (Qfloor x)) (1 # 2)) as [E|E|E].
  - destruct (Z.even _); [lra|]. rewrite inject_Z_plus.
    change (inject_Z 1) with 1%Q. lra.
  - lra.
  - rewrite inject_Z_plus. change (inject_Z 1) with 1%Q. lra.
Qed.

Lemma rne_ub (k : Z) (x : Q) : (x <= inject_Z k)%Q -> rne x <= k.
Proof.
  intros Hk. pose proof (Qfloor_le x) as Hf.
  assert (Hfk : Qfloor x <= k).
  { apply Qfloor_resp_le in Hk. rewrite Qfloor_Z in Hk. exact Hk. }
  unfold rne.
  destruct (Qcompare_spec (x - inject_Z (Qfloor x)) (1 # 2)) as [E|E|E].
  - destruct (Z.even _); [exact Hfk|].
    assert (inject_Z (Qfloor x) < inject_Z k)%Q by lra.
    rewrite <- Zlt_Qlt in H. lia.
  - exact Hfk.
  - assert (inject_Z (Qfloor x) < inject_Z k)%Q by lra.
    rewrite <- Zlt_Qlt in H. lia.
Qed.

(** The significand of [q] > 0 before rounding lies in [2^52, 2^53). *)
Lemma scaled_bounds (q : Q) :
  (0 < q)%Q ->
  let e := ilog2 q - 52 in
  (q == q / 2 ^ e * 2 ^ e)%Q
  /\ (inject_Z (2 ^ 52) <= q / 2 ^ e)%Q /\ (q / 2 ^ e < inject_Z (2 ^ 53))%Q.
Proof.
  intros Hq e. destruct (ilog2_spec q Hq) as [Hlo Hhi].
  pose proof (pow2_pos e) as He.
  assert (E : (q == q / 2 ^ e * 2 ^ e)%Q).
  { rewrite Qmult_comm. symmetry. apply Qmult_div_r. lra. }
  split; [exact E|].
  replace (ilog2 q) with (52 + e) in Hlo by (unfold e; lia).
  replace (ilog2 q + 1) with (53 + e) in Hhi by (unfold e; lia).
  rewrite pow2_plus in Hlo, Hhi.
  rewrite (pow2_Z 52), (pow2_Z 53) in * by lia.
  split.
  - apply Qle_shift_div_l; [exact He|exact Hlo].
  - apply Qlt_shift_div_r; [exact He|exact Hhi].
Qed.

Lemma round_pos_shape (q : Q) :
  (0 < q)%Q ->
  exists M : Z,
    2 ^ 52 <= M <= 2 ^ 53
    /\ (round_pos q == inject_Z M * 2 ^ (ilog2 q - 52))%Q.
Proof.
  intros Hq. destruct (scaled_bounds q Hq) as (_ & Hlo & Hhi).
  exists (rne (q / 2 ^ (ilog2 q - 52))). split; [|reflexivity].
  split; [apply rne_lb; exact Hlo|apply rne_ub; lra].
Qed.

Lemma round_pos_pos (q : Q) : (0 < q)%Q -> (0 < round_pos q)%Q.
Proof.
  intros Hq. destruct (round_pos_shape q Hq) as (M & HM & ->).
  apply Qmult_lt_0_compat; [apply inject_Z_pos; lia|apply pow2_pos].
Qed.

(** Rounding does not cross a double. *)
Lemma round_pos_le (q c : Q) (M E : Z) :
  (0 < q)%Q -> (q <= c)%Q ->
  0 < M <= 2 ^ 53 -> (c == inject_Z M * 2 ^ E)%Q ->
  (round_pos q <= c)%Q.
Proof.
  intros Hq Hqc HM Hc. destruct (scaled_bounds q Hq) as (Eq & Hlo & Hhi).
  unfold round_pos. set (e := ilog2 q - 52) in *.
  pose proof (pow2_pos e) as He.
  destruct (Z.le_gt_cases e E) as [HeE|HEe].
  - assert (Hc' : (c == inject_Z (M * 2 ^ (E - e)) * 2 ^ e)%Q).
    { rewrite Hc, inject_Z_mult, <- (pow2_Z (E - e)) by lia.
      rewrite <- Qmult_assoc, <- pow2_plus.
      replace (E - e + e) with E by lia. reflexivity. }
    rewrite Hc'. apply Qmult_le_compat_r; [|lra].
    rewrite <- Zle_Qle. apply rne_ub.
    apply Qle_shift_div_r; [exact He|]. rewrite <- Hc'. exact Hqc.
  - assert (Hcb : (c <= inject_Z (2 ^ 52) * 2 ^ e)%Q).
    { rewrite Hc. apply Qle_trans with (inject_Z (2 ^ 53) * 2 ^ E)%Q.
      - apply Qmult_le_compat_r; [rewrite <- Zle_Qle; lia|].
        apply Qlt_le_weak, pow2_pos.
      - rewrite <- (pow2_Z 53), <- (pow2_Z 52), <- !pow2_plus by lia.
        apply pow2_le. lia. }
    apply Qle_trans with (inject_Z (2 ^ 52) * 2 ^ e)%Q.
    + apply Qmult_le_compat_r; [|lra].
      rewrite <- Zle_Qle. apply rne_ub.
      apply Qle_shift_div_r; [exact He|]. lra.
    + assert (inject_Z (2 ^ 52) * 2 ^ e <= q / 2 ^ e * 2 ^ e)%Q
        by (apply Qmult_le_compat_r; lra).
      lra.
Qed.

Lemma round_pos_ge (q c : Q) (M E : Z) :
  (c <= q)%Q -> (0 < c)%Q ->
  0 < M <= 2 ^ 53 -> (c == inject_Z M * 2 ^ E)%Q ->
  (c <= round_pos q)%Q.
Proof.
  intros Hcq Hc0 HM Hc.
  assert (Hq : (0 < q)%Q) by lra.
  destruct (scaled_bounds q Hq) as (Eq & Hlo & Hhi).
  unfold round_pos. set (e := ilog2 q - 52) in *.
  pose proof (pow2_pos e) as He.
  destruct (Z.le_gt_cases e E) as [HeE|HEe].
  - assert (Hc' : (c == inject_Z (M * 2 ^ (E - e)) * 2 ^ e)%Q).
    { rewrite Hc, inject_Z_mult, <- (pow2_Z (E - e)) by lia.
      rewrite <- Qmult_assoc, <- pow2_plus.
      replace (E - e + e) with E by lia. reflexivity. }
    rewrite Hc'. apply Qmult_le_compat_r; [|lra].
    rewrite <- Zle_Qle. apply rne_lb.
    apply Qle_shift_div_l; [exact He|]. rewrite <- Hc'. exact Hcq.
  - apply Qle_trans with (inject_Z (2 ^ 52) * 2 ^ e)%Q.
    + rewrite Hc. apply Qle_trans with (inject_Z (2 ^ 53) * 2 ^ E)%Q.
      * apply Qmult_le_compat_r; [rewrite <- Zle_Qle; lia|].
        apply Qlt_le_weak, pow2_pos.
      * rewrite <- (pow2_Z 53), <- (pow2_Z 52), <- !pow2_plus by lia.
        apply pow2_le. lia.
    + apply Qmult_le_compat_r; [|lra].
      rewrite <- Zle_Qle. apply rne_lb. exact Hlo.
Qed.

(** A product with a double below 1 is rounded to less than the factor. *)
Lemma round_pos_lt (q n : Q) :
  (0 < q)%Q -> (q <= n * (1 - 1 / inject_Z (2 ^ 53)))%Q ->
  (round_pos q < n)%Q.
Proof.
  intros Hq Hqn. destruct (scaled_bounds q Hq) as (Eq & Hlo & Hhi).
  unfold round_pos. set (e := ilog2 q - 52) in *.
  set (x := (q / 2 ^ e)%Q) in *. set (P := (2 ^ e)%Q) in *.
  assert (HP : (0 < P)%Q) by apply pow2_pos.
  pose proof (rne_half x) as Hr.
  assert (H1 : (inject_Z (rne x) * P <= (x + (1 # 2)) * P)%Q)
    by (apply Qmult_le_compat_r; lra).
  assert (H2 : (inject_Z (2 ^ 52) * P <= x * P)%Q)
    by (apply Qmult_le_compat_r; lra).
  assert (Ec : (1 - 1 / inject_Z (2 ^ 53) == 9007199254740991 # 9007199254740992)%Q)
    by reflexivity.
  rewrite Ec in Hqn.
  change (inject_Z (2 ^ 52)) with (4503599627370496 # 1)%Q in *.
  lra.
Qed.

Lemma double_round_cases (q : Q) :
  ((q == 0)%Q /\ double_round q = 0%Q)
  \/ ((0 < q)%Q /\ double_round q = round_pos q)
  \/ ((q < 0)%Q /\ double_round q = (- round_pos (- q))%Q).
Proof.
  unfold double_round. destruct q as [[|a|a] b]; cbn [Qnum].
  - left. split; reflexivity.
  - right. left. split; reflexivity.
  - right. right. split; reflexivity.
Qed.

Lemma double_round_nonneg (q : Q) : (0 <= q)%Q -> (0 <= double_round q)%Q.
Proof.
  intros Hq. destruct (double_round_cases q) as [[_ ->]|[[H0 ->]|[H0 _]]].
  - lra.
  - apply Qlt_le_weak, round_pos_pos. exact H0.
  - lra.
Qed.

(** A double below 1 is at most 1 - 2^-53. *)
Lemma unit_double_le (u : Q) :
  is_double u -> (u < 1)%Q -> (u <= 1 - 1 / inject_Z (2 ^ 53))%Q.
Proof.
  intros (m & e & Hm & _ & Hu) H1.
  assert (Ec : (1 - 1 / inject_Z (2 ^ 53) == 9007199254740991 # 9007199254740992)%Q)
    by reflexivity.
  rewrite Ec.
  pose proof (pow2_pos e) as He.
  destruct (Z.le_gt_cases (-53) e) as [Hbig|Hsmall].
  - assert (E : (u * inject_Z (2 ^ 53) == inject_Z (m * 2 ^ (e + 53)))%Q).
    { rewrite Hu, inject_Z_mult, <- (pow2_Z (e + 53)), <- (pow2_Z 53) by lia.
      rewrite <- Qmult_assoc, <- pow2_plus. reflexivity. }
    assert (Hlt : (inject_Z (m * 2 ^ (e + 53)) < inject_Z (2 ^ 53))%Q).
    { rewrite <- E.
      change (inject_Z (2 ^ 53)) with (9007199254740992 # 1)%Q. lra. }
    rewrite <- Zlt_Qlt in Hlt.
    assert (Hle : (inject_Z (m * 2 ^ (e + 53)) <= inject_Z (2 ^ 53 - 1))%Q)
      by (rewrite <- Zle_Qle; lia).
    rewrite <- E in Hle.
    change (inject_Z (2 ^ 53)) with (9007199254740992 # 1)%Q in Hle.
    change (inject_Z (2 ^ 53 - 1)) with (9007199254740991 # 1)%Q in Hle.
    lra.
  - destruct (Z.le_gt_cases m 0) as [Hneg|Hpos].
    + assert (inject_Z m * 2 ^ e <= 0 * 2 ^ e)%Q.
      { apply Qmult_le_compat_r; [|lra].
        change 0%Q with (inject_Z 0). rewrite <- Zle_Qle. exact Hneg. }
      lra.
    + assert (H53 : (inject_Z m * 2 ^ e <= inject_Z (2 ^ 53) * 2 ^ e)%Q).
      { apply Qmult_le_compat_r; [rewrite <- Zle_Qle; lia|lra]. }
      assert (H54 : (2 ^ e <= 2 ^ (-54))%Q) by (apply pow2_le; lia).
      assert (Hh : (inject_Z (2 ^ 53) * 2 ^ e
                    <= inject_Z (2 ^ 53) * 2 ^ (-54))%Q).
      { apply Qmult_le_l; [reflexivity|exact H54]. }
      assert (Ehalf : (inject_Z (2 ^ 53) * 2 ^ (-54) == 1 # 2)%Q) by reflexivity.
      lra.
Qed.

(** ** Math.random *)

(** The product of a draw and a positive count is rounded to a double
    below the count. *)
Lemma double_mul_unit (u : Q) (n : Z) :
  is_double u -> (0 <= u)%Q -> (u < 1)%Q -> 0 < n ->
  let y := double_mul u (inject_Z n) in
  (0 <= y)%Q /\ (y < inject_Z n)%Q
  /\ ((y == 0)%Q
      \/ exists M E, 0 < M <= 2 ^ 53 /\ (0 < y)%Q /\ (y == inject_Z M * 2 ^ E)%Q).
Proof.
  intros Hd H0 H1 Hn y. subst y. unfold double_mul.
  pose proof (inject_Z_pos n Hn) as HnQ.
  pose proof (unit_double_le u Hd H1) as Hu.
  assert (Hq0 : (0 <= u * inject_Z n)%Q) by (apply Qmult_le_0_compat; lra).
  destruct (double_round_cases (u * inject_Z n)) as [[_ ->]|[[Hpos ->]|[Hneg _]]].
  - split; [lra|]. split; [exact HnQ|]. left. reflexivity.
  - split; [apply Qlt_le_weak, round_pos_pos; exact Hpos|]. split.
    + apply round_pos_lt; [exact Hpos|].
      rewrite (Qmult_comm (inject_Z n)). apply Qmult_le_compat_r; lra.
    + right. destruct (round_pos_shape _ Hpos) as (M & HM & EM).
      exists M, (ilog2 (u * inject_Z n) - 52). split; [lia|].
      split; [apply round_pos_pos; exact Hpos|exact EM].
  - lra.
Qed.

(** With [min] = 0 the draw stays in the range: the sum is exact. *)
Lemma random_of_range_0 (u : Q) (max : Z) :
  is_double u -> (0 <= u)%Q -> (u < 1)%Q -> 0 <= max ->
  0 <= random_of u 0 max <= max.
Proof.
  intros Hd H0 H1 Hmax. unfold random_of.
  destruct (double_mul_unit u (max - 0 + 1) Hd H0 H1 ltac:(lia))
    as (Hy0 & Hyn & Hy).
  set (y := double_mul u (inject_Z (max - 0 + 1))) in *.
  unfold double_add. change (inject_Z 0) with 0%Q.
  assert (Hle : (double_round (y + 0) <= y)%Q).
  { destruct (double_round_cases (y + 0)) as [[_ ->]|[[Hpos ->]|[Hneg _]]].
    - exact Hy0.
    - destruct Hy as [Hy|(M & E & HM & _ & Hy)]; [lra|].
      apply (round_pos_le _ _ M E); [exact Hpos|lra|exact HM|exact Hy].
    - lra. }
  assert (Hge : (0 <= double_round (y + 0))%Q)
    by (apply double_round_nonneg; lra).
  split.
  - change 0 with (Qfloor 0). apply Qfloor_resp_le. exact Hge.
  - pose proof (Qfloor_le (double_round (y + 0))) as Hfl.
    assert (Hlt : (inject_Z (Qfloor (double_round (y + 0)))
                   < inject_Z (max - 0 + 1))%Q) by lra.
    rewrite <- Zlt_Qlt in Hlt. lia.
Qed.

(** In general the sum is rounded once more, and can reach [max + 1]. *)
Lemma random_of_range (u : Q) (min max : Z) :
  is_double u -> (0 <= u)%Q -> (u < 1)%Q ->
  0 <= min <= max -> max < 2 ^ 53 ->
  min <= random_of u min max <= max + 1.
Proof.
  intros Hd H0 H1 Hmm Hmax. unfold random_of.
  destruct (double_mul_unit u (max - min + 1) Hd H0 H1 ltac:(lia))
    as (Hy0 & Hyn & _).
  set (y := double_mul u (inject_Z (max - min + 1))) in *.
  unfold double_add.
  assert (Hmin : (0 <= inject_Z min)%Q)
    by (change 0%Q with (inject_Z 0); rewrite <- Zle_Qle; lia).
  assert (Hsum : (y + inject_Z min < inject_Z (max + 1))%Q).
  { replace (max + 1) with ((max - min + 1) + min) by lia.
    rewrite (inject_Z_plus (max - min + 1)). lra. }
  assert (Hge : (inject_Z min <= double_round (y + inject_Z min))%Q
                /\ (double_round (y + inject_Z min) <= inject_Z (max + 1))%Q).
  { destruct (double_round_cases (y + inject_Z min))
      as [[Hz ->]|[[Hpos ->]|[Hneg _]]].
    - split; [lra|]. change 0%Q with (inject_Z 0). rewrite <- Zle_Qle. lia.
    - split.
      + destruct (Z.eq_dec min 0) as [->|Hne].
        * apply Qlt_le_weak, round_pos_pos. exact Hpos.
        * apply (round_pos_ge _ _ min 0); [lra|apply inject_Z_pos; lia|lia|].
          change (2 ^ 0)%Q with 1%Q. lra.
      + apply (round_pos_le _ _ (max + 1) 0); [exact Hpos|lra|lia|].
        change (2 ^ 0)%Q with 1%Q. lra.
    - lra. }
  destruct Hge as [Hge Hle]. split.
  - rewrite <- (Qfloor_Z min) at 1. apply Qfloor_resp_le. exact Hge.
  - rewrite <- (Qfloor_Z (max + 1)). apply Qfloor_resp_le. exact Hle.
Qed.

(** The draws just below 1 that leave the range. *)
Example random_of_overshoot :
  let u := (1 - 1 / inject_Z (2 ^ 52))%Q in
  is_double u /\ (0 <= u)%Q /\ (u < 1)%Q
  /\ random_of u 15 20 = 21
  /\ random_of u 349 359 = 360
  /\ random_of u 629 639 = 640
  /\ random_of (1 - 1 / inject_Z (2 ^ 53))%Q 1 4 = 5
  /\ random_of u 0 626 = 626.
Proof.
  cbv zeta. split.
  { exists (2 ^ 52 - 1), (-52). split; [reflexivity|]. split; [lia|reflexivity]. }
  split; [discriminate|]. split; [reflexivity|].
  repeat split; vm_compute; reflexivity.
Qed.

Lemma in_unit_tail (g : Random) : in_unit g -> in_unit (fun n => g (S n)).
Proof. intros Hg n. apply Hg. Qed.

Lemma add_in_unit `{Host} (SeedCtor : Data -> Seed.t) (data : Data)
    (g : Random) (w : World) :
  in_unit g -> in_unit (snd (add SeedCtor data g w)).
Proof.
  intros Hg. unfold add. cbn.
  match goal with |- context [0 <? ?a] => destruct (0 <? a) end; cbn;
  match goal with |- context [Seed.x ?s] => destruct (Seed.x s) end; cbn;
  match goal with |- context [Seed.y ?s] => destruct (Seed.y s) end; cbn;
  intros n; apply Hg.
Qed.

(** An admission with no forced position draws one inside the arena. *)
Lemma admitted_in_arena `{Host} (SeedCtor : Data -> Seed.t) (data : Data)
    (g : Random) (w : World) (seed : Seed.t) :
  in_unit g ->
  Seed.x (SeedCtor data) = None -> Seed.y (SeedCtor data) = None ->
  0 <= width w - 1 - Z.max (Seed.appearance_width (SeedCtor data)) (padding w) ->
  0 <= height w - 1 - Seed.appearance_height (SeedCtor data) - padding w ->
  admitted SeedCtor data g w = Some seed ->
  in_arena w seed.
Proof.
  intros Hg Hx Hy Hw Hh. unfold admitted, add, in_arena. cbn.
  rewrite lookup_app_r, Nat.sub_diag by lia. cbn.
  match goal with |- context [0 <? ?a] => destruct (0 <? a) end; cbn;
    rewrite Hx; cbn; rewrite Hy; cbn; intros [= <-]; cbn;
    (eexists _, _; split; [reflexivity|]; split; [reflexivity|]; split;
     apply random_of_range_0; try apply Hg; assumption).
Qed.

(** *** Fields of the seeds an operation leaves alone *)

Lemma heap_update_seed_proj {A : Type} (f : Seed.t -> A) (u : Seed.t -> Seed.t)
    (r : ref) (w : World) (i : nat) :
  (forall s, f (u s) = f s) ->
  f <$> heap (update_seed r u w) !! i = f <$> heap w !! i.
Proof.
  intros Hu. unfold update_seed. cbn. rewrite list_lookup_alter.
  case_decide; [subst i|reflexivity].
  destruct (heap w !! r) as [s|]; [|reflexivity].
  cbn. rewrite Hu. reflexivity.
Qed.

Lemma heap_Tile_rem (r : ref) (w : World) : heap (Tile_rem r w) = heap w.
Proof. unfold Tile_rem. destruct (heap w !! r); reflexivity. Qed.

Lemma heap_Tile_set (r : ref) (w : World) : heap (Tile_set r w) = heap w.
Proof. unfold Tile_set. destruct (heap w !! r); reflexivity. Qed.

(** [remove] writes no field of a seed but [married] and [relationSeed]. *)
Lemma remove_heap_proj {A : Type} (f : Seed.t -> A) (r : ref) (w : World)
    (i : nat) :
  (forall v s, f (Seed.set_married v s) = f s) ->
  (forall v s, f (Seed.set_relationSeed v s) = f s) ->
  f <$> heap (world_after (remove r w)) !! i = f <$> heap w !! i.
Proof.
  intros Hm Hr. unfold remove.
  set (w1 := with_Statistic _ w).
  change (heap w) with (heap w1). change (heap w1 !! r) with (heap w !! r).
  destruct (heap w !! r) as [seed|]; [|reflexivity].
  destruct (Seed.married seed).
  - destruct (Seed.relationSeed seed) as [partner|]; cbn [world_after].
    + change (f <$> heap (Tile_rem r
                (update_seed r (Seed.set_relationSeed None)
                   (update_seed partner (Seed.set_relationSeed None)
                      (update_seed partner (Seed.set_married false)
                         (update_seed r (Seed.set_married false) w1))))) !! i
              = f <$> heap w1 !! i).
      rewrite heap_Tile_rem.
      rewrite !heap_update_seed_proj by (intros; first [apply Hm|apply Hr]).
      reflexivity.
    + apply heap_update_seed_proj. intros; apply Hm.
  - cbn [world_after].
    change (f <$> heap (Tile_rem r w1) !! i = f <$> heap w1 !! i).
    rewrite heap_Tile_rem. reflexivity.
Qed.

Lemma remove_heap_length (r : ref) (w : World) :
  length (heap (world_after (remove r w))) = length (heap w).
Proof.
  apply Nat.le_antisymm.
  - destruct (decide (length (heap (world_after (remove r w))) <= length (heap w))%nat)
      as [Hle|Hgt]; [exact Hle|exfalso].
    destruct (lookup_lt_is_Some_2 (heap (world_after (remove r w))) (length (heap w)))
      as [s Hs]; [lia|].
    pose proof (remove_heap_proj Seed.id r w (length (heap w))
                  (fun _ _ => eq_refl) (fun _ _ => eq_refl)) as E.
    rewrite Hs, (lookup_ge_None_2 (heap w)) in E by lia. discriminate.
  - destruct (decide (length (heap w) <= length (heap (world_after (remove r w))))%nat)
      as [Hle|Hgt]; [exact Hle|exfalso].
    destruct (lookup_lt_is_Some_2 (heap w) (length (heap (world_after (remove r w)))))
      as [s Hs]; [lia|].
    pose proof (remove_heap_proj Seed.id r w (length (heap (world_after (remove r w))))
                  (fun _ _ => eq_refl) (fun _ _ => eq_refl)) as E.
    rewrite Hs, (lookup_ge_None_2 (heap (world_after (remove r w)))) in E by lia.
    discriminate.
Qed.

(** [remove] writes the statistics, the heap, the tiles and the counters,
    and nothing else of the world. *)
Lemma remove_world_proj {A : Type} (P : World -> A) (r : ref) (w : World) :
  (forall v w, P (with_Statistic v w) = P w) ->
  (forall v w, P (with_heap v w) = P w) ->
  (forall v w, P (with_Tile_list v w) = P w) ->
  (forall v w, P (with_distributedTicks v w) = P w) ->
  P (world_after (remove r w)) = P w.
Proof.
  intros Hs Hh Ht Hd.
  assert (HT : forall w, P (Tile_rem r w) = P w).
  { intros w0. unfold Tile_rem. destruct (heap w0 !! r); [apply Ht|reflexivity]. }
  unfold remove.
  set (w1 := with_Statistic _ w).
  assert (H1 : P w1 = P w) by apply Hs.
  destruct (heap w1 !! r) as [seed|]; [|exact H1].
  destruct (Seed.married seed).
  - destruct (Seed.relationSeed seed) as [partner|]; cbn [world_after];
      unfold update_seed; rewrite ?Hd, ?HT, ?Hh; exact H1.
  - cbn [world_after]. rewrite Hd, HT. exact H1.
Qed.

Lemma remove_nextSeedId (r : ref) (w : World) :
  nextSeedId (world_after (remove r w)) = nextSeedId w.
Proof. apply remove_world_proj; reflexivity. Qed.

(** *** Identities *)

Lemma ids_inv_WorldJS (tiles : list (list (option ref))) (cap : Z)
    (rules : RulesState) :
  ids_inv (WorldJS tiles cap rules).
Proof. split; [reflexivity|]. intros i seed Hs. discriminate. Qed.

Lemma ids_inv_add `{Host} (SeedCtor : Data -> Seed.t) (data : Data)
    (g : Random) (w : World) :
  ids_inv w -> ids_inv (fst (add SeedCtor data g w)).
Proof.
  intros [Hnext Hids].
  destruct (admitted_is_Some SeedCtor data g w) as [seed Hseed].
  unfold ids_inv. rewrite (add_heap_admitted _ _ _ _ _ Hseed), add_nextSeedId.
  split.
  - rewrite length_app. cbn. lia.
  - intros i s Hs. apply lookup_app_Some in Hs as [Hs|[Hi Hs]].
    + apply Hids. exact Hs.
    + apply list_lookup_singleton_Some in Hs as [Hi0 <-].
      rewrite (admitted_id _ _ _ _ _ Hseed), Hnext. lia.
Qed.

Lemma ids_inv_remove (r : ref) (w : World) :
  ids_inv w -> ids_inv (world_after (remove r w)).
Proof.
  intros [Hnext Hids]. split.
  - rewrite remove_nextSeedId, remove_heap_length. exact Hnext.
  - intros i seed Hs.
    pose proof (remove_heap_proj Seed.id r w i
                  (fun _ _ => eq_refl) (fun _ _ => eq_refl)) as E.
    rewrite Hs in E. destruct (heap w !! i) as [s0|] eqn:Hs0; [|discriminate].
    cbn in E. injection E as ->. apply Hids. exact Hs0.
Qed.

Lemma ids_inv_apply_ops `{Host} (ops : list Op) (wg : World * Random) :
  ids_inv (fst wg) -> ids_inv (fst (apply_ops ops wg)).
Proof.
  revert wg. induction ops as [|o ops IH]; intros wg Hinv; [exact Hinv|].
  cbn. apply IH. destruct o as [C d|r].
  - exact (ids_inv_add C d (snd wg) (fst wg) Hinv).
  - exact (ids_inv_remove r (fst wg) Hinv).
Qed.

(** Whatever was admitted and evicted before, the next admission takes a
    positive identity above every identity in use, and the identities in use
    are pairwise distinct. *)
Lemma add_fresh_identity `{Host} (tiles : list (list (option ref))) (cap : Z)
    (rules : RulesState) (g : Random) (ops : list Op) :
  let w := fst (apply_ops ops (WorldJS tiles cap rules, g)) in
  (forall SeedCtor data g',
     exists seed,
       admitted SeedCtor data g' w = Some seed
       /\ 0 < Seed.id seed
       /\ forall i s, heap w !! i = Some s -> 0 < Seed.id s < Seed.id seed)
  /\ (forall i j si sj,
        heap w !! i = Some si -> heap w !! j = Some sj -> i <> j ->
        Seed.id si <> Seed.id sj).
Proof.
  intros w.
  pose proof (ids_inv_apply_ops ops (WorldJS tiles cap rules, g)
                (ids_inv_WorldJS tiles cap rules)) as [Hnext Hids].
  fold w in Hnext, Hids. split.
  - intros C d g'. destruct (admitted_is_Some C d g' w) as [seed Hseed].
    exists seed. rewrite (admitted_id _ _ _ _ _ Hseed), Hnext.
    split; [exact Hseed|]. split; [lia|].
    intros i s Hs. rewrite (Hids i s Hs). apply lookup_lt_Some in Hs. lia.
  - intros i j si sj Hi Hj Hne. rewrite (Hids i si Hi), (Hids j sj Hj). lia.
Qed.

(** *** Random people *)

Lemma admitted_appearance `{Host} (SeedCtor : Data -> Seed.t) (data : Data)
    (g : Random) (w : World) (seed : Seed.t) :
  admitted SeedCtor data g w = Some seed ->
  Seed.appearance_width seed = Seed.appearance_width (SeedCtor data)
  /\ Seed.appearance_height seed = Seed.appearance_height (SeedCtor data).
Proof. admitted_cases; split; reflexivity. Qed.

Lemma settled_WorldJS (tiles : list (list (option ref))) (cap : Z)
    (rules : RulesState) :
  settled (WorldJS tiles cap rules).
Proof.
  split; [apply ids_inv_WorldJS|]. split; [intros i s Hs; discriminate|].
  exists (replicate 59 0). repeat split. discriminate.
Qed.

Lemma in_arena_frame (w w' : World) (seed : Seed.t) :
  width w' = width w -> height w' = height w -> padding w' = padding w ->
  in_arena w seed -> in_arena w' seed.
Proof. unfold in_arena. intros -> -> ->. exact id. Qed.

Lemma settled_add `{Host} (SeedCtor : Data -> Seed.t) (data : Data)
    (g : Random) (w : World) :
  settled w -> in_unit g ->
  Seed.x (SeedCtor data) = None -> Seed.y (SeedCtor data) = None ->
  fits w SeedCtor ->
  settled (fst (add SeedCtor data g w))
  /\ length (heap (fst (add SeedCtor data g w))) = S (length (heap w)).
Proof.
  intros (Hids & Hpos & zs & Hdt & Hne & Hsum) Hg Hx Hy Hfit.
  destruct (add_counters SeedCtor data g w zs Hdt Hne)
    as (k & zk & _ & _ & Hk & Hnew).
  destruct (admitted_is_Some SeedCtor data g w) as [seed Hseed].
  destruct (Hfit data) as [Hw Hh].
  pose proof (admitted_in_arena _ _ _ _ _ Hg Hx Hy Hw Hh Hseed) as Hin.
  pose proof (add_heap_admitted _ _ _ _ _ Hseed) as Hheap.
  split; [|rewrite Hheap, length_app; cbn; lia].
  split; [apply ids_inv_add; exact Hids|]. split.
  - intros i s Hs. apply (in_arena_frame w); try reflexivity.
    rewrite Hheap in Hs. apply lookup_app_Some in Hs as [Hs|[_ Hs]].
    + apply (Hpos i). exact Hs.
    + apply list_lookup_singleton_Some in Hs as [_ <-]. exact Hin.
  - exists (<[k:=zk + 1]> zs). split; [exact Hnew|]. split.
    + intros E. apply (f_equal length) in E. rewrite length_insert in E.
      destruct zs; [congruence|discriminate].
    + rewrite (sum_insert _ _ _ _ Hk), Hsum, Hheap, length_app. cbn. lia.
Qed.

Lemma fits_frame (w w' : World) (SeedCtor : Data -> Seed.t) :
  width w' = width w -> height w' = height w -> padding w' = padding w ->
  fits w SeedCtor -> fits w' SeedCtor.
Proof. unfold fits. intros -> -> ->. exact id. Qed.

(** People who do not come from a border are admitted inside the arena. *)
Lemma addRandomPeople_settled `{Host} (count : Z) (minAge maxAge fromBorder : option Z)
    (g : Random) (w : World) :
  default 0 fromBorder <= 0 ->
  position_from_data -> fits w Male -> fits w Female ->
  in_unit g -> settled w ->
  let wg := addRandomPeople count minAge maxAge fromBorder g w in
  settled (fst wg)
  /\ length (heap (fst wg)) = (length (heap w) + Z.to_nat count)%nat
  /\ in_unit (snd wg)
  /\ width (fst wg) = width w /\ height (fst wg) = height w
  /\ padding (fst wg) = padding w.
Proof.
  intros Hfb Hpos HfitM HfitF Hg Hset. unfold addRandomPeople.
  induction (Z.to_nat count) as [|n IH].
  - cbn. rewrite Nat.add_0_r.
    split; [exact Hset|]. split; [reflexivity|]. split; [exact Hg|].
    repeat split.
  - rewrite seq_S, foldl_snoc. cbn [Nat.add].
    destruct IH as (IHset & IHlen & IHg & IHw & IHh & IHp).
    set (wg := foldl _ (w, g) (seq 0 n)) in *.
    unfold addRandomPeople_body, from_border.
    destruct (Z.ltb_spec 0 (default 0 fromBorder)) as [Hlt|_]; [lia|].
    cbn [fst snd].
    set (d := {| d_age := _; d_tickCount := _; d_x := None; d_y := None |}).
    set (g' := snd (random _ _ (snd wg))).
    assert (Hg' : in_unit g') by (intros k; apply IHg).
    destruct (Hpos d) as (HMx & HMy & HFx & HFy).
    destruct (2 * Z.of_nat n <? count).
    + destruct (settled_add Male d g' (fst wg) IHset Hg' HMx HMy) as [Hs Hl].
      { apply (fits_frame w); assumption. }
      split; [exact Hs|]. split; [rewrite Hl, IHlen; lia|].
      split; [apply add_in_unit; exact Hg'|].
      split; [exact IHw|]. split; [exact IHh|exact IHp].
    + destruct (settled_add Female d g' (fst wg) IHset Hg' HFx HFy) as [Hs Hl].
      { apply (fits_frame w); assumption. }
      split; [exact Hs|]. split; [rewrite Hl, IHlen; lia|].
      split; [apply add_in_unit; exact Hg'|].
      split; [exact IHw|]. split; [exact IHh|exact IHp].
Qed.

(** C8: an admission with no forced position places the seed inside the
    arena, footprint and padding taken off ([x] in
    [0, width - 1 - max(appearance.width, padding)], [y] in
    [0, height - 1 - appearance.height - padding]), whenever that range is
    not empty; every admission takes a positive identity above all identities
    in use, which are pairwise distinct; and [addRandomPeople(10, 15, 20)] on
    a new world yields ten seeds in the arena, with the identities 1 to 10,
    and counters that add up to 10. *)
Theorem admission_positions_and_identities `{Host} :
  (forall SeedCtor data g w seed,
     in_unit g ->
     Seed.x (SeedCtor data) = None -> Seed.y (SeedCtor data) = None ->
     0 <= width w - 1 - Z.max (Seed.appearance_width (SeedCtor data)) (padding w) ->
     0 <= height w - 1 - Seed.appearance_height (SeedCtor data) - padding w ->
     admitted SeedCtor data g w = Some seed ->
     in_arena w seed)
  /\ (forall tiles cap rules g ops,
        let w := fst (apply_ops ops (WorldJS tiles cap rules, g)) in
        (forall SeedCtor data g',
           exists seed,
             admitted SeedCtor data g' w = Some seed
             /\ 0 < Seed.id seed
             /\ forall i s, heap w !! i = Some s -> 0 < Seed.id s < Seed.id seed)
        /\ (forall i j si sj,
              heap w !! i = Some si -> heap w !! j = Some sj -> i <> j ->
              Seed.id si <> Seed.id sj))
  /\ (forall tiles cap rules g,
        in_unit g -> position_from_data ->
        fits (WorldJS tiles cap rules) Male ->
        fits (WorldJS tiles cap rules) Female ->
        let w := fst (addRandomPeople 10 (Some 15) (Some 20) None g
                        (WorldJS tiles cap rules)) in
        length (heap w) = 10%nat
        /\ (forall i seed, heap w !! i = Some seed ->
              in_arena w seed /\ Seed.id seed = Z.of_nat i + 1)
        /\ num_sum (distributedTicks w) = Int 10).
Proof.
  split; [|split].
  - intros C d g w seed. apply admitted_in_arena.
  - intros tiles cap rules g ops. apply add_fresh_identity.
  - intros tiles cap rules g Hg Hpos HM HF w.
    destruct (addRandomPeople_settled 10 (Some 15) (Some 20) None g
                (WorldJS tiles cap rules) ltac:(cbn; lia) Hpos HM HF Hg
                (settled_WorldJS tiles cap rules))
      as (([_ Hids] & Hin & zs & Hdt & _ & Hsum) & Hlen & _).
    fold w in Hids, Hin, Hdt, Hsum, Hlen.
    split; [exact Hlen|]. split.
    + intros i seed Hs. split; [apply (Hin i); exact Hs|apply Hids; exact Hs].
    + rewrite Hdt, num_sum_int, Hsum, Hlen. reflexivity.
Qed.

Lemma demo_random_in_unit : in_unit demo_random.
Proof.
  intros n. unfold demo_random.
  pose proof (Nat.mod_upper_bound (n * 37 + 11) 128 ltac:(lia)) as Hlt.
  split; [|unfold Qle, Qlt; cbn; lia].
  exists (Z.of_nat ((n * 37 + 11) mod 128)), (-7).
  split; [change (2 ^ 53) with 9007199254740992; lia|].
  split; [lia|]. clear Hlt. generalize (Z.of_nat ((n * 37 + 11) mod 128)).
  intros k. change (2 ^ (-7))%Q with (1 # 128)%Q. unfold Qeq. cbn. lia.
Qed.

Lemma admission_positions_and_identities_witness :
  let w := fst (addRandomPeople 10 (Some 15) (Some 20) None demo_random
                  demo_world) in
  (in_unit demo_random /\ position_from_data
   /\ fits demo_world Male /\ fits demo_world Female)
  /\ length (heap w) = 10%nat
  /\ (forall i seed, heap w !! i = Some seed ->
        in_arena w seed /\ Seed.id seed = Z.of_nat i + 1)
  /\ num_sum (distributedTicks w) = Int 10.
Proof.
  assert (Hpos : position_from_data) by (intros d; repeat split).
  assert (HM : fits demo_world Male) by (intros d; cbn; lia).
  assert (HF : fits demo_world Female) by (intros d; cbn; lia).
  split.
  { split; [apply demo_random_in_unit|]. split; [exact Hpos|].
    split; [exact HM|exact HF]. }
  exact (proj2 (proj2 admission_positions_and_identities)
           [[]; []] 5 {| baseIQ := 0 |} demo_random
           demo_random_in_unit Hpos HM HF).
Defined.

Example addRandomPeople_example :
  let w := fst (addRandomPeople 3 None None None demo_random demo_world) in
  (fun s => (Seed.id s, Seed.x s, Seed.y s, Seed.age s, Seed.instanceofMale s))
    <$> heap w
  = [(1, Some 235, Some 219, 15, true);
     (2, Some 151, Some 175, 20, true);
     (3, Some 68, Some 131, 19, false)]
  /\ Statistic w = [Statistic_seedAdded 0; Statistic_seedAdded 1;
                    Statistic_seedAdded 2]
  /\ take 4 (distributedTicks w) = [Int 1; Int 1; Int 1; Int 0].
Proof. vm_compute. repeat split. Qed.

(** ** Eviction and marriage *)

Lemma lookup_update_seed (u : Seed.t -> Seed.t) (r : ref) (w : World) (i : nat) :
  heap (update_seed r u w) !! i
  = if decide (r = i) then u <$> heap w !! r else heap w !! i.
Proof. unfold update_seed. cbn. apply list_lookup_alter. Qed.

(** Eviction of a seed married to [b]: the shape of the heap afterwards. *)
Lemma remove_married (a b : ref) (w : World) (sa : Seed.t) :
  heap w !! a = Some sa ->
  Seed.married sa = true -> Seed.relationSeed sa = Some b ->
  exists w',
    remove a w = Returned w'
    /\ heap w' =
       heap (update_seed a (Seed.set_relationSeed None)
               (update_seed b (Seed.set_relationSeed None)
                  (update_seed b (Seed.set_married false)
                     (update_seed a (Seed.set_married false) w)))).
Proof.
  intros Ha Hm Hrel. unfold remove.
  set (w1 := with_Statistic _ w).
  change (heap w1 !! a) with (heap w !! a). rewrite Ha, Hm, Hrel.
  eexists. split; [reflexivity|]. cbn [heap with_distributedTicks].
  rewrite heap_Tile_rem. reflexivity.
Qed.

(** C5: evicting a seed [a] married to [b], each holding the other in
    [relationSeed], leaves both unmarried and both [relationSeed] empty, the
    other seeds are not touched, and no seed refers to [a] any more if only
    [b] did; evicting an unmarried seed changes no seed at all. *)
Theorem remove_clears_marriage :
  (forall (w : World) (a b : ref) (sa sb : Seed.t),
     heap w !! a = Some sa -> heap w !! b = Some sb ->
     Seed.married sa = true ->
     Seed.relationSeed sa = Some b -> Seed.relationSeed sb = Some a ->
     exists w' sa' sb',
       remove a w = Returned w'
       /\ heap w' !! a = Some sa' /\ heap w' !! b = Some sb'
       /\ Seed.married sa' = false /\ Seed.married sb' = false
       /\ Seed.relationSeed sa' = None /\ Seed.relationSeed sb' = None
       /\ (forall r, r <> a -> r <> b -> heap w' !! r = heap w !! r)
       /\ ((forall r s, heap w !! r = Some s ->
              Seed.relationSeed s = Some a -> r = b) ->
           forall r s, heap w' !! r = Some s -> Seed.relationSeed s <> Some a))
  /\ (forall (w : World) (a : ref) (sa : Seed.t),
        heap w !! a = Some sa -> Seed.married sa = false ->
        exists w', remove a w = Returned w' /\ heap w' = heap w).
Proof.
  split.
  - intros w a b sa sb Ha Hb Hm Hab Hba.
    destruct (remove_married a b w sa Ha Hm Hab) as (w' & Hrem & Hheap).
    assert (Hlook : forall r,
               heap w' !! r =
               if decide (r = a)
               then Some (Seed.set_relationSeed None
                            (if decide (a = b)
                             then Seed.set_relationSeed None
                                    (Seed.set_married false
                                       (Seed.set_married false sa))
                             else Seed.set_married false sa))
               else if decide (r = b)
                    then Some (Seed.set_relationSeed None
                                 (Seed.set_married false sb))
                    else heap w !! r).
    { intros r. rewrite Hheap, !lookup_update_seed.
      repeat case_decide; subst; try congruence;
        rewrite ?Ha, ?Hb; reflexivity. }
    assert (Hothers : forall r, r <> a -> r <> b -> heap w' !! r = heap w !! r).
    { intros r Hra Hrb. rewrite Hlook.
      rewrite !decide_False by assumption. reflexivity. }
    assert (Hgone : (forall r s, heap w !! r = Some s ->
                       Seed.relationSeed s = Some a -> r = b) ->
                    forall r s, heap w' !! r = Some s ->
                                Seed.relationSeed s <> Some a).
    { intros Honly r s Hs. rewrite Hlook in Hs.
      destruct (decide (r = a)) as [->|Hra].
      { injection Hs as <-. discriminate. }
      destruct (decide (r = b)) as [->|Hrb].
      { injection Hs as <-. discriminate. }
      intros Hrel. apply Hrb. apply (Honly r s Hs Hrel). }
    exists w'. destruct (decide (a = b)) as [<-|Hne].
    + eexists _, _. split; [exact Hrem|].
      split; [rewrite Hlook, !decide_True by reflexivity; reflexivity|].
      split; [rewrite Hlook, !decide_True by reflexivity; reflexivity|].
      repeat split; assumption.
    + eexists _, _. split; [exact Hrem|].
      split; [rewrite Hlook, decide_True by reflexivity; reflexivity|].
      split; [rewrite Hlook, decide_False, decide_True by congruence;
              reflexivity|].
      repeat split; assumption.
  - intros w a sa Ha Hm.
    destruct (remove_unmarried a w sa Ha Hm) as (w' & Hrem & Hheap & _).
    exists w'. split; assumption.
Qed.

Lemma remove_clears_marriage_witness :
  (exists w' sa' sb',
     remove 0%nat demo_family = Returned w'
     /\ heap w' !! 0%nat = Some sa' /\ heap w' !! 1%nat = Some sb'
     /\ Seed.married sa' = false /\ Seed.married sb' = false
     /\ Seed.relationSeed sa' = None /\ Seed.relationSeed sb' = None)
  /\ (exists w', remove 2%nat demo_family = Returned w'
                 /\ heap w' = heap demo_family).
Proof.
  destruct remove_clears_marriage as [Hmarried Hsingle]. split.
  - destruct (Hmarried demo_family 0%nat 1%nat _ _ eq_refl eq_refl eq_refl
                eq_refl eq_refl)
      as (w' & sa' & sb' & H0 & H1 & H2 & H3 & H4 & H5 & H6 & _).
    exists w', sa', sb'. repeat split; assumption.
  - exact (Hsingle demo_family 2%nat _ eq_refl eq_refl).
Defined.

Example remove_spouse_example :
  let w' := world_after (remove 0%nat demo_family) in
  (fun s => (Seed.married s, Seed.relationSeed s)) <$> heap w'
  = [(false, None); (false, None); (false, None)]
  /\ Tile_list w' = [[None; Some 1%nat; Some 2%nat]; []]
  /\ take 3 (distributedTicks w') = [Int 0; Int 1; Int 1]
  /\ Statistic w' = Statistic demo_family ++ [Statistic_seedRemoved 0].
Proof. vm_compute. repeat split. Qed.

(** With [married] set and no partner, the strict-mode assignment throws
    after the statistics were told and [married] was cleared; the slot and
    the counter are left as they were. *)
Example remove_throws_example :
  let w := update_seed 0%nat (Seed.set_relationSeed None) demo_family in
  exists w', remove 0%nat w = TypeError w'
    /\ Tile_list w' = Tile_list w
    /\ distributedTicks w' = distributedTicks w.
Proof. eexists. vm_compute. repeat split. Qed.

(** ** Admission validates nothing *)

Lemma place_elem (r : ref) (bucket : list (option ref)) :
  Some r ∈ place r bucket.
Proof.
  induction bucket as [|[o|] bucket IH]; cbn.
  - left.
  - right. exact IH.
  - left.
Qed.




(** ** The pass over the tiles *)

Lemma run_pass_of `{Host} (w : World) :
  run w =
  let p := pass_of w in
  let w' := world_of p in
  if num_eqb (next_tickMod w) (Int 0) then
    let w' := with_Statistic (Statistic w' ++ [Statistic_yearPassed (stats p)]) w' in
    let w' := with_Rules (Rules_change w') w' in
    let w' := with_Rules (Knowledge_gain w') w' in
    let ev := events p ++ [Rules_changed; Knowledge_gained; setTimeout_yearPassed] in
    if population (stats p) =? 0 then (with_running false w', ev)
    else loop_animation w' ev
  else loop_animation w' (events p).
Proof. reflexivity. Qed.

Lemma foldl_invariant {A B : Type} (P : A -> Prop) (f : A -> B -> A)
    (l : list B) (a : A) :
  P a -> (forall a x, P a -> P (f a x)) -> P (foldl f a l).
Proof.
  intros Ha Hf. revert a Ha.
  induction l as [|x l IH]; intros a Ha; [exact Ha|].
  cbn. apply IH. apply Hf. exact Ha.
Qed.

Lemma ticked_app (ev ev' : list Event) :
  ticked (ev ++ ev') = ticked ev ++ ticked ev'.
Proof. apply omap_app. Qed.

Lemma ticked_draw_seed (reDraw : bool) (cap : Z) (mode : DisplayMode)
    (r : ref) (ed : list Event * Z) :
  ticked (fst (draw_seed reDraw cap mode r ed)) = ticked (fst ed).
Proof.
  unfold draw_seed. destruct (reDraw && (snd ed <? cap)); [|reflexivity].
  destruct mode; cbn [fst]; rewrite ?ticked_app; cbn;
    rewrite ?app_nil_r; reflexivity.
Qed.

Lemma stamps_kept_refl (w : World) : stamps_kept w w.
Proof. split; [reflexivity|]. intros r s Hs. exists s. split; [exact Hs|reflexivity]. Qed.

Lemma stamps_kept_trans (w1 w2 w3 : World) :
  stamps_kept w1 w2 -> stamps_kept w2 w3 -> stamps_kept w1 w3.
Proof.
  intros [Ht1 Hs1] [Ht2 Hs2]. split; [congruence|].
  intros r s Hs. destruct (Hs1 r s Hs) as (s2 & H2 & E2).
  destruct (Hs2 r s2 H2) as (s3 & H3 & E3).
  exists s3. split; [exact H3|congruence].
Qed.

Lemma stamps_kept_heap (w w' : World) :
  tickMod w' = tickMod w -> heap w' = heap w -> stamps_kept w w'.
Proof.
  intros Ht Hh. split; [exact Ht|]. intros r s Hs. exists s.
  rewrite Hh. split; [exact Hs|reflexivity].
Qed.

Lemma stamps_kept_update_seed (u : Seed.t -> Seed.t) (r : ref) (w : World) :
  (forall s, Seed.tickMod (u s) = Seed.tickMod s) ->
  stamps_kept w (update_seed r u w).
Proof.
  intros Hu. split; [reflexivity|]. intros r' s Hs.
  rewrite lookup_update_seed. case_decide.
  - subst r'. rewrite Hs. exists (u s). split; [reflexivity|apply Hu].
  - exists s. split; [exact Hs|reflexivity].
Qed.

Lemma stamps_kept_Tile_rem (r : ref) (w : World) : stamps_kept w (Tile_rem r w).
Proof.
  apply stamps_kept_heap; [|apply heap_Tile_rem].
  unfold Tile_rem. destruct (heap w !! r); reflexivity.
Qed.

Lemma stamps_kept_Tile_set (r : ref) (w : World) : stamps_kept w (Tile_set r w).
Proof.
  apply stamps_kept_heap; [|apply heap_Tile_set].
  unfold Tile_set. destruct (heap w !! r); reflexivity.
Qed.

Lemma stamps_kept_relocate `{Host} (r : ref) (old : nat) (w : World) :
  stamps_kept w (relocate r old w).
Proof.
  unfold relocate. destruct (heap w !! r) as [seed|]; [|apply stamps_kept_refl].
  case_decide; [apply stamps_kept_refl|].
  eapply stamps_kept_trans; [apply stamps_kept_Tile_rem|].
  eapply stamps_kept_trans; [|apply stamps_kept_Tile_set].
  apply stamps_kept_update_seed. reflexivity.
Qed.

Lemma stamped_kept (w w' : World) (r : ref) :
  stamps_kept w w' -> stamped w r -> stamped w' r.
Proof.
  intros [Ht Hs] (s & Hr & E). destruct (Hs r s Hr) as (s' & Hr' & E').
  exists s'. split; [exact Hr'|congruence].
Qed.

Section Pass.
Context `{Host}.

(** What the pass asks of the seeds: a seed's behaviour leaves the world's
    counter and the stamps alone. *)
Hypothesis tick_keeps_stamps :
  forall speed r w, stamps_kept w (Seed_tick speed r w).

Variables (yearPassed reDraw : bool) (speed0 cap : Z).

(** A seed found with the stamp of the current tick is skipped. *)
Lemma visit_skips_stamped (i j : nat) (st : Pass * Z) (r : ref) :
  Tile_list (world_of (fst st)) !! i ≫= (fun seeds => seeds !! j) = Some (Some r) ->
  is_int (tickMod (world_of (fst st))) ->
  stamped (world_of (fst st)) r ->
  visit yearPassed reDraw speed0 cap i j st = st.
Proof.
  intros Hslot Hint (s & Hs & E). unfold visit. rewrite Hslot, Hs, E.
  destruct (tickMod (world_of (fst st))) as [m|]; [|destruct Hint].
  cbn [num_eqb]. rewrite Z.eqb_refl. reflexivity.
Qed.

Lemma visit_cases (i j : nat) (st : Pass * Z) :
  visit yearPassed reDraw speed0 cap i j st = st
  \/ exists r seed,
       heap (world_of (fst st)) !! r = Some seed
       /\ num_eqb (Seed.tickMod seed) (tickMod (world_of (fst st))) = false
       /\ world_of (fst (visit yearPassed reDraw speed0 cap i j st))
          = visited yearPassed speed0 r seed (world_of (fst st))
       /\ ticked (events (fst (visit yearPassed reDraw speed0 cap i j st)))
          = ticked (events (fst st)) ++ [r]
       /\ (yearPassed = true ->
           population (stats (fst (visit yearPassed reDraw speed0 cap i j st)))
           = population (stats (fst st)) + 1).
Proof.
  unfold visit.
  destruct (Tile_list (world_of (fst st)) !! i ≫= (fun seeds => seeds !! j))
    as [[r|]|]; [|left; reflexivity|left; reflexivity].
  destruct (heap (world_of (fst st)) !! r) as [seed|] eqn:Hs; [|left; reflexivity].
  destruct (num_eqb (Seed.tickMod seed) (tickMod (world_of (fst st)))) eqn:E;
    [left; reflexivity|].
  right. exists r, seed. split; [exact Hs|]. split; [exact E|].
  cbn [fst world_of events stats]. split; [reflexivity|]. split.
  - rewrite ticked_app, ticked_draw_seed. reflexivity.
  - intros ->. reflexivity.
Qed.

Lemma visited_stamps (r : ref) (seed : Seed.t) (w : World) :
  heap w !! r = Some seed ->
  tickMod (visited yearPassed speed0 r seed w) = tickMod w
  /\ stamped (visited yearPassed speed0 r seed w) r
  /\ forall r', stamped w r' -> stamped (visited yearPassed speed0 r seed w) r'.
Proof.
  intros Hs. unfold visited.
  set (w1 := update_seed r (Seed.set_tickMod (tickMod w)) w).
  set (w2 := if yearPassed then _ else w1).
  assert (H12 : stamps_kept w1 w2).
  { subst w2. destruct yearPassed; [|apply stamps_kept_refl].
    apply stamps_kept_update_seed. reflexivity. }
  assert (H2 : stamps_kept w2 (relocate r (Seed.tileIndex seed)
                                 (Seed_tick speed0 r w2))).
  { eapply stamps_kept_trans; [apply tick_keeps_stamps|].
    apply stamps_kept_relocate. }
  pose proof (stamps_kept_trans _ _ _ H12 H2) as H1.
  assert (Hr1 : stamped w1 r).
  { exists (Seed.set_tickMod (tickMod w) seed). subst w1.
    rewrite lookup_update_seed, decide_True, Hs by reflexivity.
    split; reflexivity. }
  split; [rewrite (proj1 H1); reflexivity|].
  split; [apply (stamped_kept w1); assumption|].
  intros r' (s & Hr' & E). apply (stamped_kept w1); [exact H1|].
  destruct (decide (r' = r)) as [->|Hne]; [exact Hr1|].
  exists s. subst w1. rewrite lookup_update_seed, decide_False by congruence.
  split; [exact Hr'|exact E].
Qed.

Lemma visit_ok (i j : nat) (st : Pass * Z) :
  pass_ok (fst st) ->
  pass_ok (fst (visit yearPassed reDraw speed0 cap i j st))
  /\ tickMod (world_of (fst (visit yearPassed reDraw speed0 cap i j st)))
     = tickMod (world_of (fst st)).
Proof.
  intros (Hint & Hnd & Hst).
  destruct (visit_cases i j st) as [->|(r & seed & Hs & E & Hw & Hev & _)].
  { split; [repeat split; assumption|reflexivity]. }
  destruct (visited_stamps r seed _ Hs) as (Ht & Hr & Hkeep).
  assert (Hnew : r ∉ ticked (events (fst st))).
  { intros Hin. destruct (Hst r Hin) as (s & Hs' & E').
    rewrite Hs in Hs'. injection Hs' as <-. rewrite E' in E.
    destruct (tickMod (world_of (fst st))) as [m|]; [|destruct Hint].
    cbn in E. rewrite Z.eqb_refl in E. discriminate. }
  split; [|rewrite Hw; exact Ht].
  unfold pass_ok. rewrite Hw, Hev, Ht. split; [exact Hint|]. split.
  - apply NoDup_app. split; [exact Hnd|]. split; [|apply NoDup_singleton].
    intros r' Hr' Hin. apply list_elem_of_singleton in Hin. subst r'.
    exact (Hnew Hr').
  - intros r' Hr'. apply elem_of_app in Hr' as [Hr'|Hr'].
    + apply Hkeep, Hst, Hr'.
    + apply list_elem_of_singleton in Hr'. subst r'. exact Hr.
Qed.

Lemma visit_tile_ok (p : Pass) (i : nat) :
  pass_ok p ->
  pass_ok (visit_tile yearPassed reDraw speed0 cap p i)
  /\ tickMod (world_of (visit_tile yearPassed reDraw speed0 cap p i))
     = tickMod (world_of p).
Proof.
  intros Hp. unfold visit_tile.
  apply (foldl_invariant
           (fun st => pass_ok (fst st)
                      /\ tickMod (world_of (fst st)) = tickMod (world_of p))).
  - split; [exact Hp|reflexivity].
  - intros st j [Hok Ht]. destruct (visit_ok i j st Hok) as [Hok' Ht'].
    split; [exact Hok'|congruence].
Qed.

Lemma traverse_ok (p : Pass) :
  pass_ok p ->
  pass_ok (traverse yearPassed reDraw speed0 cap p)
  /\ tickMod (world_of (traverse yearPassed reDraw speed0 cap p))
     = tickMod (world_of p).
Proof.
  intros Hp. unfold traverse.
  apply (foldl_invariant
           (fun q => pass_ok q /\ tickMod (world_of q) = tickMod (world_of p))).
  - split; [exact Hp|reflexivity].
  - intros q i [Hok Ht]. destruct (visit_tile_ok q i Hok) as [Hok' Ht'].
    split; [exact Hok'|congruence].
Qed.

End Pass.

Lemma ticked_loop_animation `{Host} (w : World) (ev : list Event) :
  ticked (snd (loop_animation w ev)) = ticked ev.
Proof.
  unfold loop_animation. destruct (running w); cbn [snd];
    rewrite ticked_app; cbn; apply app_nil_r.
Qed.

Lemma run_ticked `{Host} (w : World) :
  ticked (snd (run w)) = ticked (events (pass_of w)).
Proof.
  rewrite run_pass_of. cbv zeta.
  destruct (num_eqb (next_tickMod w) (Int 0)).
  - destruct (population (stats (pass_of w)) =? 0); cbn [snd];
      rewrite ?ticked_loop_animation, ticked_app; cbn; apply app_nil_r.
  - apply ticked_loop_animation.
Qed.

Lemma pass_of_ok `{Host} (w : World) :
  (forall speed r w, stamps_kept w (Seed_tick speed r w)) ->
  is_int (next_tickMod w) ->
  pass_ok (pass_of w) /\ tickMod (world_of (pass_of w)) = next_tickMod w.
Proof.
  intros Htick Hint. unfold pass_of. cbv zeta. apply traverse_ok; [exact Htick|].
  split; [exact Hint|]. cbn [events world_of].
  destruct (_ || _); cbn; split;
    first [apply NoDup_nil_2 | intros r Hr; inversion Hr].
Qed.

(** C1: in one [run] no seed's [tick] is called twice.  The seeds ticked are
    pairwise distinct and each carries the stamp of the current tick when the
    pass ends; a seed found with that stamp is skipped, wherever its slot is;
    and when [tick] is called on a seed, its stamp was written before. *)
Theorem run_ticks_each_seed_once `{Host} (w : World) :
  (forall speed r w, stamps_kept w (Seed_tick speed r w)) ->
  is_int (next_tickMod w) ->
  NoDup (ticked (snd (run w)))
  /\ (forall r, r ∈ ticked (snd (run w)) -> stamped (world_of (pass_of w)) r)
  /\ tickMod (world_of (pass_of w)) = next_tickMod w
  /\ (forall yearPassed reDraw speed0 cap i j st r,
        Tile_list (world_of (fst st)) !! i ≫= (fun seeds => seeds !! j)
        = Some (Some r) ->
        is_int (tickMod (world_of (fst st))) ->
        stamped (world_of (fst st)) r ->
        visit yearPassed reDraw speed0 cap i j st = st)
  /\ (forall yearPassed reDraw speed0 cap i j st,
        visit yearPassed reDraw speed0 cap i j st = st
        \/ exists r seed w2,
             heap (world_of (fst st)) !! r = Some seed
             /\ num_eqb (Seed.tickMod seed) (tickMod (world_of (fst st))) = false
             /\ ticked (events (fst (visit yearPassed reDraw speed0 cap i j st)))
                = ticked (events (fst st)) ++ [r]
             /\ world_of (fst (visit yearPassed reDraw speed0 cap i j st))
                = relocate r (Seed.tileIndex seed) (Seed_tick speed0 r w2)
             /\ exists s2, heap w2 !! r = Some s2
                  /\ Seed.tickMod s2 = tickMod (world_of (fst st))).
Proof.
  intros Htick Hint.
  destruct (pass_of_ok w Htick Hint) as [(_ & Hnd & Hst) Ht].
  rewrite run_ticked. split; [exact Hnd|]. split; [exact Hst|].
  split; [exact Ht|]. split.
  - intros yp rd sp cap i j st r. apply visit_skips_stamped.
  - intros yp rd sp cap i j st.
    destruct (visit_cases yp rd sp cap i j st)
      as [E|(r & seed & Hs & E & Hw & Hev & _)]; [left; exact E|].
    right. exists r, seed. eexists. split; [exact Hs|]. split; [exact E|].
    split; [exact Hev|]. split; [exact Hw|].
    destruct yp.
    + exists (Seed.set_age (Seed.age seed + 1)
                (Seed.set_tickMod (tickMod (world_of (fst st))) seed)).
      rewrite !lookup_update_seed, !decide_True, Hs by reflexivity.
      split; reflexivity.
    + exists (Seed.set_tickMod (tickMod (world_of (fst st))) seed).
      rewrite lookup_update_seed, decide_True, Hs by reflexivity.
      split; reflexivity.
Qed.

Lemma demo_tick_keeps_stamps :
  forall speed r w, stamps_kept w (Seed_tick speed r w).
Proof. intros speed r w. apply stamps_kept_update_seed. reflexivity. Qed.

(** A birth and a death during a pass keep the stamps, and the newborn
    carries the stamp of the current tick: it is not ticked in that pass. *)
Lemma add_keeps_stamps `{Host} (SeedCtor : Data -> Seed.t) (data : Data)
    (g : Random) (w : World) :
  stamps_kept w (fst (add SeedCtor data g w))
  /\ stamped (fst (add SeedCtor data g w)) (length (heap w)).
Proof.
  destruct (admitted_is_Some SeedCtor data g w) as [seed Hseed].
  pose proof (add_heap_admitted _ _ _ _ _ Hseed) as Hheap.
  split.
  - split; [reflexivity|]. intros r s Hs. exists s. rewrite Hheap.
    rewrite lookup_app_l by (apply lookup_lt_Some in Hs; exact Hs).
    split; [exact Hs|reflexivity].
  - exists seed. split; [exact Hseed|]. revert Hseed.
    admitted_cases; reflexivity.
Qed.

Lemma remove_keeps_stamps (r : ref) (w : World) :
  stamps_kept w (world_after (remove r w)).
Proof.
  split; [apply (remove_world_proj tickMod); reflexivity|].
  intros r' s Hs.
  pose proof (remove_heap_proj Seed.tickMod r w r'
                (fun _ _ => eq_refl) (fun _ _ => eq_refl)) as E.
  rewrite Hs in E.
  destruct (heap (world_after (remove r w)) !! r') as [s'|]; [|discriminate].
  exists s'. split; [reflexivity|]. cbn in E. congruence.
Qed.

Lemma breeding_tick_keeps_stamps :
  forall speed r w, stamps_kept w (@Seed_tick breeding_host speed r w).
Proof.
  intros speed r w.
  apply (stamps_kept_trans _ (update_seed r (demo_step speed) w)).
  - apply stamps_kept_update_seed. reflexivity.
  - apply add_keeps_stamps.
Qed.

Lemma run_ticks_each_seed_once_witness :
  (forall speed r w, stamps_kept w (@Seed_tick breeding_host speed r w))
  /\ is_int (next_tickMod demo_crossing)
  /\ ticked (snd (@run breeding_host demo_crossing)) = [0; 1]%nat
  /\ NoDup (ticked (snd (@run breeding_host demo_crossing)))
  /\ Tile_list (fst (@run breeding_host demo_crossing))
     = [[None]; [Some 2; Some 1; Some 0; Some 3]]%nat.
Proof.
  split; [exact breeding_tick_keeps_stamps|].
  split; [exact I|]. split; [reflexivity|]. split; [|reflexivity].
  exact (proj1 (@run_ticks_each_seed_once breeding_host demo_crossing
                  breeding_tick_keeps_stamps I)).
Defined.

(** The seed at address 0 leaves tile 0 for the vacated first slot of tile 1,
    which the loop reaches later in the same pass; it is ticked once. *)
Example run_crossing_example :
  snd (run demo_crossing)
  = [clearRect; draw 0%nat true; tick 0%nat 1; draw 1%nat true; tick 1%nat 1;
     requestAnimationFrame]
  /\ (fun s => (Seed.x s, Seed.tileIndex s, Seed.tickMod s))
       <$> heap (fst (run demo_crossing))
     = [(Some 330, 1%nat, Int 42); (Some 720, 1%nat, Int 42)]
  /\ Tile_list (fst (run demo_crossing)) = [[None]; [Some 0; Some 1]]%nat.
Proof. vm_compute. repeat split. Qed.

(** Why the counter has to be a number: with [tickPerYear] set to 0 the
    counter is NaN, which equals no stamp, and the seed that crosses into the
    vacated slot is ticked a second time. *)
Example run_without_counter_example :
  let w := with_tickPerYear 0 demo_crossing in
  next_tickMod w = NaN
  /\ ticked (snd (run w)) = [0; 0; 1]%nat.
Proof. vm_compute. repeat split. Qed.

(** ** Passes that tick no seed *)

Lemma visit_no_seeds `{Host} (yearPassed reDraw : bool) (speed0 cap : Z)
    (i j : nat) (st : Pass * Z) :
  no_seeds (world_of (fst st)) ->
  visit yearPassed reDraw speed0 cap i j st = st.
Proof.
  intros Hno. unfold visit. specialize (Hno i j).
  destruct (Tile_list (world_of (fst st)) !! i ≫= (fun seeds => seeds !! j))
    as [[r|]|]; [|reflexivity|reflexivity].
  exfalso. apply (Hno r). reflexivity.
Qed.

Lemma traverse_no_seeds `{Host} (yearPassed reDraw : bool) (speed0 cap : Z)
    (p : Pass) :
  no_seeds (world_of p) -> traverse yearPassed reDraw speed0 cap p = p.
Proof.
  intros Hno. unfold traverse.
  apply (foldl_invariant (fun q => q = p)); [reflexivity|].
  intros q i ->. unfold visit_tile.
  change p with (fst (p, 0)) at 3.
  f_equal. apply (foldl_invariant (fun st => st = (p, 0))); [reflexivity|].
  intros st j ->. apply visit_no_seeds. exact Hno.
Qed.

(** On a year boundary every seed that is ticked is counted: a pass that
    counts nobody has changed nothing. *)
Lemma traverse_counts `{Host} (reDraw : bool) (speed0 cap : Z) (p : Pass) :
  traverse true reDraw speed0 cap p = p
  \/ population (stats p) < population (stats (traverse true reDraw speed0 cap p)).
Proof.
  unfold traverse.
  apply (foldl_invariant
           (fun q => q = p \/ population (stats p) < population (stats q)));
    [left; reflexivity|].
  intros q i Hq. unfold visit_tile.
  assert (Hin : (fun st : Pass * Z =>
                   st = (q, 0)
                   \/ population (stats q) < population (stats (fst st)))
                  (foldl (fun st j => visit true reDraw speed0 cap i j st) (q, 0)
                     (seq 0 (length (default [] (Tile_list (world_of q) !! i)))))).
  { apply foldl_invariant; [left; reflexivity|].
    intros st j Hst.
    destruct (visit_cases true reDraw speed0 cap i j st)
      as [->|(r & seed & _ & _ & _ & _ & Hpop)]; [exact Hst|].
    right. rewrite (Hpop eq_refl).
    destruct Hst as [->|Hst]; cbn [fst]; lia. }
  cbv beta in Hin. destruct Hin as [->|Hin]; [exact Hq|].
  right. destruct Hq as [->|Hq]; [exact Hin|lia].
Qed.

Lemma pass_of_counts_nobody `{Host} (w : World) :
  num_eqb (next_tickMod w) (Int 0) = true ->
  population (stats (pass_of w)) = 0 ->
  pass_of w = {| world_of := with_tickMod (next_tickMod w) w;
                 stats := no_aggregates; events := [clearRect] |}.
Proof.
  intros Hy Hpop. revert Hpop. unfold pass_of. cbv zeta.
  change (tickMod (with_tickMod (next_tickMod w) w)) with (next_tickMod w).
  rewrite Hy, orb_true_r. intros Hpop.
  match goal with |- traverse true true ?s ?c ?p = _ =>
    destruct (traverse_counts true s c p) as [E|Hlt] end; [exact E|].
  cbn [stats population no_aggregates] in Hlt. lia.
Qed.

(** The tick of a year boundary on which nobody is counted. *)
Lemma run_counts_nobody `{Host} (w : World) :
  num_eqb (next_tickMod w) (Int 0) = true ->
  population (stats (pass_of w)) = 0 ->
  run w =
  let w1 := with_Statistic (Statistic w ++ [Statistic_yearPassed no_aggregates])
              (with_tickMod (next_tickMod w) w) in
  let w2 := with_Rules (Rules_change w1) w1 in
  (with_running false (with_Rules (Knowledge_gain w2) w2),
   [clearRect; Rules_changed; Knowledge_gained; setTimeout_yearPassed]).
Proof.
  intros Hy Hpop. rewrite run_pass_of. cbv zeta.
  rewrite Hy, Hpop, (pass_of_counts_nobody w Hy Hpop). reflexivity.
Qed.

(** ** Extinction *)

(** C10: when a year-boundary tick counts a population of zero, [run] sets
    [running] to false and returns at once: it requests no frame, does not
    call the stop callback and leaves [stopCallback] as it was. *)
Theorem run_extinction_skips_stopCallback `{Host} (w : World) :
  num_eqb (next_tickMod w) (Int 0) = true ->
  population (stats (pass_of w)) = 0 ->
  snd (run w) = [clearRect; Rules_changed; Knowledge_gained; setTimeout_yearPassed]
  /\ running (fst (run w)) = false
  /\ stopCallback (fst (run w)) = stopCallback w
  /\ (forall cb, stopCallback_call cb ∉ snd (run w))
  /\ (requestAnimationFrame ∉ snd (run w))
  /\ Statistic (fst (run w)) = Statistic w ++ [Statistic_yearPassed no_aggregates].
Proof.
  intros Hy Hpop. rewrite (run_counts_nobody w Hy Hpop). cbn.
  repeat split; try reflexivity.
  - intros cb Hin. repeat (apply elem_of_cons in Hin as [Hin|Hin]; [discriminate|]).
    inversion Hin.
  - intros Hin. repeat (apply elem_of_cons in Hin as [Hin|Hin]; [discriminate|]).
    inversion Hin.
Qed.

Lemma run_extinction_skips_stopCallback_witness :
  let w := stop (Some (fn 7)) (with_running true (with_tickMod (Int 59) demo_world)) in
  (num_eqb (next_tickMod w) (Int 0) = true
   /\ population (stats (pass_of w)) = 0)
  /\ snd (run w) = [clearRect; Rules_changed; Knowledge_gained; setTimeout_yearPassed]
  /\ running (fst (run w)) = false
  /\ stopCallback (fst (run w)) = fn 7.
Proof.
  split; [split; reflexivity|].
  destruct (run_extinction_skips_stopCallback
              (stop (Some (fn 7))
                 (with_running true (with_tickMod (Int 59) demo_world)))
              eq_refl eq_refl) as (Hev & Hrun & Hcb & _).
  split; [exact Hev|]. split; [exact Hrun|exact Hcb].
Defined.

(** ** Fields a tick leaves alone *)

(** What a pass leaves alone: a field of the world that neither the heap, the
    buckets nor the seeds' behaviour touch. *)
Lemma traverse_world_proj `{Host} {A : Type} (P : World -> A)
    (yearPassed reDraw : bool) (speed0 cap : Z) (p : Pass) :
  (forall v w, P (with_heap v w) = P w) ->
  (forall v w, P (with_Tile_list v w) = P w) ->
  (forall speed r w, P (Seed_tick speed r w) = P w) ->
  P (world_of (traverse yearPassed reDraw speed0 cap p)) = P (world_of p).
Proof.
  intros Hh Ht Htick.
  assert (Hrem : forall r w, P (Tile_rem r w) = P w).
  { intros r w0. unfold Tile_rem. destruct (heap w0 !! r); [apply Ht|reflexivity]. }
  assert (Hset : forall r w, P (Tile_set r w) = P w).
  { intros r w0. unfold Tile_set. destruct (heap w0 !! r); [apply Ht|reflexivity]. }
  assert (Hrel : forall r old w, P (relocate r old w) = P w).
  { intros r old w0. unfold relocate. destruct (heap w0 !! r); [|reflexivity].
    case_decide; [reflexivity|]. unfold update_seed. rewrite Hset, Hh, Hrem.
    reflexivity. }
  unfold traverse.
  apply (foldl_invariant (fun q => P (world_of q) = P (world_of p)));
    [reflexivity|].
  intros q i Hq. unfold visit_tile.
  apply (foldl_invariant
           (fun st : Pass * Z => P (world_of (fst st)) = P (world_of p)));
    [exact Hq|].
  intros st j Hst.
  destruct (visit_cases yearPassed reDraw speed0 cap i j st)
    as [->|(r & seed & _ & _ & -> & _)]; [exact Hst|].
  unfold visited. rewrite Hrel, Htick. destruct yearPassed;
    unfold update_seed; rewrite ?Hh; exact Hst.
Qed.

Lemma pass_of_world_proj `{Host} {A : Type} (P : World -> A) (w : World) :
  (forall v w, P (with_heap v w) = P w) ->
  (forall v w, P (with_Tile_list v w) = P w) ->
  (forall v w, P (with_tickMod v w) = P w) ->
  (forall speed r w, P (Seed_tick speed r w) = P w) ->
  P (world_of (pass_of w)) = P w.
Proof.
  intros Hh Ht Hm Htick. unfold pass_of. cbv zeta.
  rewrite traverse_world_proj by assumption. apply Hm.
Qed.

(** The counter after a tick, when neither the seeds nor the stop callback
    write it. *)
Lemma run_tickMod `{Host} (w : World) :
  (forall speed r w, tickMod (Seed_tick speed r w) = tickMod w) ->
  (forall k w, tickMod (Callback_call k w) = tickMod w) ->
  tickMod (fst (run w)) = next_tickMod w.
Proof.
  intros Htick Hcall.
  assert (Hpass : tickMod (world_of (pass_of w)) = next_tickMod w).
  { unfold pass_of. cbv zeta.
    rewrite (traverse_world_proj tickMod) by (reflexivity || exact Htick).
    reflexivity. }
  assert (Hloop : forall w' ev,
             tickMod (fst (loop_animation w' ev)) = tickMod w').
  { intros w' ev. unfold loop_animation. destruct (running w'); [reflexivity|].
    destruct (stopCallback w'); cbn [fst]; [reflexivity|].
    change (tickMod (Callback_call k w') = tickMod w'). apply Hcall. }
  rewrite run_pass_of. cbv zeta.
  destruct (num_eqb (next_tickMod w) (Int 0)); [|rewrite Hloop; exact Hpass].
  destruct (population (stats (pass_of w)) =? 0); [exact Hpass|].
  rewrite Hloop. exact Hpass.
Qed.

(** ** The year *)

Lemma num_eqb_eq (a : Number) (z : Z) : num_eqb a (Int z) = true <-> a = Int z.
Proof.
  destruct a as [p|]; cbn; [|split; discriminate].
  rewrite Z.eqb_eq. split; congruence.
Qed.

Lemma pass_events `{Host} (w : World) : Forall pass_event (events (pass_of w)).
Proof.
  unfold pass_of. cbv zeta. unfold traverse.
  apply (foldl_invariant (fun q => Forall pass_event (events q))).
  { cbn [events]. destruct (_ || _); repeat constructor. }
  intros q i Hq. unfold visit_tile.
  apply (foldl_invariant (fun st : Pass * Z => Forall pass_event (events (fst st))));
    [exact Hq|].
  intros st j Hst. unfold visit.
  destruct (Tile_list (world_of (fst st)) !! i ≫= (fun seeds => seeds !! j))
    as [[r|]|]; [|exact Hst|exact Hst].
  destruct (heap (world_of (fst st)) !! r) as [seed|]; [|exact Hst].
  destruct (num_eqb _ _); [exact Hst|]. cbn [fst events].
  apply Forall_app. split; [|repeat constructor].
  unfold draw_seed. destruct (_ && _); [|exact Hst].
  destruct (displayMode _); cbn [fst]; try exact Hst;
    (apply Forall_app; split; [exact Hst|repeat constructor]).
Qed.

Lemma year_event_iff `{Host} (w : World) :
  setTimeout_yearPassed ∈ snd (run w) <-> next_tickMod w = Int 0.
Proof.
  rewrite <- num_eqb_eq, run_pass_of. cbv zeta.
  assert (Hpass : setTimeout_yearPassed ∉ events (pass_of w)).
  { intros Hin. pose proof (pass_events w) as Hall.
    rewrite Forall_forall in Hall. exact (Hall _ Hin). }
  assert (Hloop : forall w' ev, setTimeout_yearPassed ∉ ev ->
                    setTimeout_yearPassed ∉ snd (loop_animation w' ev)).
  { intros w' ev Hev. unfold loop_animation.
    destruct (running w'); cbn [snd]; intros Hin;
      apply elem_of_app in Hin as [Hin|Hin]; try (exact (Hev Hin));
      apply list_elem_of_singleton in Hin; discriminate. }
  destruct (num_eqb (next_tickMod w) (Int 0)).
  - split; [reflexivity|]. intros _.
    assert (Hin : setTimeout_yearPassed ∈
                    events (pass_of w)
                    ++ [Rules_changed; Knowledge_gained; setTimeout_yearPassed]).
    { apply elem_of_app. right. do 2 right. left. }
    destruct (population (stats (pass_of w)) =? 0); [exact Hin|].
    unfold loop_animation. destruct (running _); cbn [snd];
      apply elem_of_app; left; exact Hin.
  - split; [|discriminate]. intros Hin. exfalso.
    exact (Hloop _ _ Hpass Hin).
Qed.

Lemma run_no_seeds_within `{Host} (w : World) :
  no_seeds w -> num_eqb (next_tickMod w) (Int 0) = false -> running w = true ->
  run w =
  (with_tickMod (next_tickMod w) w,
   (if Statistic_population (Statistic w) <=? maxSafeSeedsForDisplay w
    then [clearRect] else []) ++ [requestAnimationFrame]).
Proof.
  intros Hno Hy Hr. rewrite run_pass_of. unfold pass_of. cbv zeta.
  rewrite traverse_no_seeds by exact Hno.
  change (tickMod (with_tickMod (next_tickMod w) w)) with (next_tickMod w).
  rewrite Hy, orb_false_r. cbn [world_of events]. unfold loop_animation.
  change (running (with_tickMod (next_tickMod w) w)) with (running w).
  rewrite Hr. reflexivity.
Qed.

Lemma pass_of_no_seeds `{Host} (w : World) :
  no_seeds w -> population (stats (pass_of w)) = 0.
Proof.
  intros Hno. unfold pass_of. cbv zeta.
  rewrite traverse_no_seeds by exact Hno. reflexivity.
Qed.

Lemma ticks_S `{Host} (n : nat) (w : World) :
  ticks (S n) w
  = (fst (run (fst (ticks n w))), snd (ticks n w) ++ [snd (run (fst (ticks n w)))]).
Proof. reflexivity. Qed.

Section EmptyWorld.
Context `{Host}.
Variables (tiles : list (list (option ref))) (cap : Z) (rules : RulesState).
Hypothesis empty : no_seeds (WorldJS tiles cap rules).

(** The world [start] hands to the first tick. *)
Let W : World := with_running true (WorldJS tiles cap rules).

(** The calls of a tick inside the year. *)
Let within : list Event :=
  (if Statistic_population [] <=? 30000 then [clearRect] else [])
  ++ [requestAnimationFrame].

Lemma ticks_within_year (k : nat) :
  (k <= 59)%nat ->
  ticks k W = (with_tickMod (Int (Z.of_nat k)) W, replicate k within).
Proof.
  induction k as [|k IH]; intros Hk; [reflexivity|].
  cbn [ticks]. rewrite IH by lia. cbn [fst snd].
  assert (Hnext : next_tickMod (with_tickMod (Int (Z.of_nat k)) W)
                  = Int (Z.of_nat (S k))).
  { unfold next_tickMod. cbn. rewrite Z.rem_small by lia. f_equal. lia. }
  rewrite run_no_seeds_within.
  - rewrite Hnext. cbn [fst snd]. f_equal.
    change (replicate k within ++ replicate 1 within = replicate (S k) within).
    rewrite <- replicate_add. f_equal. lia.
  - exact empty.
  - rewrite Hnext. cbn. apply Z.eqb_neq. lia.
  - reflexivity.
Qed.

Lemma tick_60 :
  run (with_tickMod (Int 59) W)
  = (let w1 := with_Statistic [Statistic_yearPassed no_aggregates]
                 (with_tickMod (Int 0) W) in
     let w2 := with_Rules (Rules_change w1) w1 in
     with_running false (with_Rules (Knowledge_gain w2) w2),
     [clearRect; Rules_changed; Knowledge_gained; setTimeout_yearPassed]).
Proof.
  rewrite run_counts_nobody; [reflexivity|reflexivity|].
  apply pass_of_no_seeds. exact empty.
Qed.

End EmptyWorld.

(** C7: a tick advances [tickMod] by one modulo [tickPerYear] (the counter
    it leaves is [next_tickMod], unless a seed or a callback writes it), and
    the year-boundary actions are taken exactly when it wraps to zero; in a new
    world ([tickPerYear] = 60) without seeds, the first 59 ticks after [start]
    each request the next frame and pass no year, and the 60th passes the
    year once, reports a population of zero, sets [running] to false and
    requests no frame. *)
Theorem year_passes_on_the_60th_tick `{Host} :
  (forall w m, tickMod w = Int m -> 0 <= m -> 0 < tickPerYear w ->
     next_tickMod w = Int ((m + 1) mod tickPerYear w))
  /\ (forall w,
        (forall speed r w, tickMod (Seed_tick speed r w) = tickMod w) ->
        (forall k w, tickMod (Callback_call k w) = tickMod w) ->
        tickMod (fst (run w)) = next_tickMod w)
  /\ (forall w, setTimeout_yearPassed ∈ snd (run w) <-> next_tickMod w = Int 0)
  /\ (forall tiles cap rules,
        no_seeds (WorldJS tiles cap rules) ->
        let W := with_running true (WorldJS tiles cap rules) in
        let within :=
          (if Statistic_population [] <=? 30000 then [clearRect] else [])
          ++ [requestAnimationFrame] in
        start (WorldJS tiles cap rules) = run W
        /\ ticks 59 W = (with_tickMod (Int 59) W, replicate 59 within)
        /\ snd (ticks 60 W)
           = replicate 59 within
             ++ [[clearRect; Rules_changed; Knowledge_gained; setTimeout_yearPassed]]
        /\ running (fst (ticks 60 W)) = false
        /\ tickMod (fst (ticks 60 W)) = Int 0
        /\ Statistic (fst (ticks 60 W)) = [Statistic_yearPassed no_aggregates]).
Proof.
  split; [|split; [|split]].
  - intros w m Hm Hm0 Hn. unfold next_tickMod. rewrite Hm. cbn.
    destruct (Z.eqb_spec (tickPerYear w) 0) as [E|_]; [lia|].
    rewrite Z.rem_mod_nonneg by lia. reflexivity.
  - apply run_tickMod.
  - apply year_event_iff.
  - intros tiles cap rules Hno W within.
    pose proof (ticks_within_year tiles cap rules Hno 59 (Nat.le_refl _)) as H59.
    change (Z.of_nat 59) with 59 in H59. fold W in H59. fold within in H59.
    pose proof (tick_60 tiles cap rules Hno) as H60. fold W in H60.
    split; [reflexivity|]. split; [exact H59|].
    rewrite (ticks_S 59 W), H59. cbn [fst snd]. rewrite H60. cbn [fst snd].
    repeat split.
Qed.

Lemma year_passes_on_the_60th_tick_witness :
  let W := with_running true demo_world in
  no_seeds demo_world
  /\ ticks 59 W = (with_tickMod (Int 59) W,
                   replicate 59 [clearRect; requestAnimationFrame])
  /\ snd (ticks 60 W)
     = replicate 59 [clearRect; requestAnimationFrame]
       ++ [[clearRect; Rules_changed; Knowledge_gained; setTimeout_yearPassed]]
  /\ running (fst (ticks 60 W)) = false
  /\ tickMod (fst (ticks 60 W)) = Int 0
  /\ Statistic (fst (ticks 60 W)) = [Statistic_yearPassed no_aggregates].
Proof.
  assert (Hno : no_seeds demo_world).
  { intros [|[|i]] j r; cbn; destruct j; discriminate. }
  split; [exact Hno|].
  exact (proj2 (proj2 (proj2 (proj2 year_passes_on_the_60th_tick)) [[]; []] 5
                  {| baseIQ := 0 |} Hno)).
Defined.

(** ** The stop callback *)

Lemma calls_of_app (cb : Callback) (ev ev' : list Event) :
  calls_of cb (ev ++ ev') = (calls_of cb ev + calls_of cb ev')%nat.
Proof. unfold calls_of. rewrite filter_app, length_app. reflexivity. Qed.

Lemma calls_of_pass `{Host} (cb : Callback) (w : World) :
  calls_of cb (events (pass_of w)) = 0%nat.
Proof.
  pose proof (pass_events w) as Hall. unfold calls_of.
  induction Hall as [|e ev He _ IH]; [reflexivity|].
  rewrite filter_cons. case_decide; [subst e; destruct He|exact IH].
Qed.

Lemma stop_repeated (cb : Callback) (n : nat) (w : World) :
  (1 <= n)%nat ->
  Nat.iter n (stop (Some cb)) w = with_stopCallback cb (with_running false w).
Proof.
  intros Hn. destruct n as [|n]; [lia|]. clear Hn.
  induction n as [|n IH]; [reflexivity|].
  change (Nat.iter (S (S n)) (stop (Some cb)) w)
    with (stop (Some cb) (Nat.iter (S n) (stop (Some cb)) w)).
  rewrite IH. reflexivity.
Qed.

Section StopCallback.
Context `{Host}.

(** The seeds' behaviour neither starts or stops the world nor registers a
    callback. *)
Hypothesis tick_keeps_running :
  forall speed r w, running (Seed_tick speed r w) = running w.
Hypothesis tick_keeps_stopCallback :
  forall speed r w, stopCallback (Seed_tick speed r w) = stopCallback w.

(** A tick that reaches the end of [run] with the world stopped calls the
    callback once and forgets it. *)
Lemma run_calls_stopCallback_once (w : World) (k : nat) :
  running w = false -> stopCallback w = fn k ->
  num_eqb (next_tickMod w) (Int 0) && (population (stats (pass_of w)) =? 0)
  = false ->
  calls_of (fn k) (snd (run w)) = 1%nat
  /\ stopCallback (fst (run w)) = noop
  /\ requestAnimationFrame ∉ snd (run w).
Proof.
  intros Hr Hcb Hlive.
  assert (Hr' : running (world_of (pass_of w)) = false).
  { rewrite (pass_of_world_proj running); auto. }
  assert (Hcb' : stopCallback (world_of (pass_of w)) = fn k).
  { rewrite (pass_of_world_proj stopCallback); auto. }
  assert (Hraf : requestAnimationFrame ∉ events (pass_of w)).
  { intros Hin. pose proof (pass_events w) as Hall.
    rewrite Forall_forall in Hall. exact (Hall _ Hin). }
  rewrite run_pass_of. cbv zeta. unfold loop_animation.
  destruct (num_eqb (next_tickMod w) (Int 0)).
  - cbn [andb] in Hlive. rewrite Hlive.
    change (running (with_Rules _ (with_Rules _ (with_Statistic _ ?x))))
      with (running x).
    change (stopCallback (with_Rules _ (with_Rules _ (with_Statistic _ ?x))))
      with (stopCallback x).
    rewrite Hr', Hcb'. cbn [fst snd].
    rewrite !calls_of_app, calls_of_pass. split; [|split].
    + unfold calls_of. rewrite !filter_cons, filter_nil.
      rewrite !decide_False by discriminate.
      rewrite decide_True by reflexivity. reflexivity.
    + reflexivity.
    + intros Hin. rewrite !elem_of_app in Hin.
      destruct Hin as [[Hin|Hin]|Hin]; [exact (Hraf Hin)| |].
      * repeat (apply elem_of_cons in Hin as [Hin|Hin]; [discriminate|]).
        inversion Hin.
      * apply list_elem_of_singleton in Hin. discriminate.
  - rewrite Hr', Hcb'. cbn [fst snd].
    rewrite calls_of_app, calls_of_pass. split; [|split].
    + unfold calls_of. rewrite filter_cons, filter_nil.
      rewrite decide_True by reflexivity. reflexivity.
    + reflexivity.
    + intros Hin. rewrite elem_of_app in Hin.
      destruct Hin as [Hin|Hin]; [exact (Hraf Hin)|].
      apply list_elem_of_singleton in Hin. discriminate.
Qed.

(** Once forgotten, the callback is not called by a later tick. *)
Lemma run_without_callback (w : World) (k : nat) :
  stopCallback w = noop ->
  calls_of (fn k) (snd (run w)) = 0%nat /\ stopCallback (fst (run w)) = noop.
Proof.
  intros Hcb.
  assert (Hcb' : stopCallback (world_of (pass_of w)) = noop).
  { rewrite (pass_of_world_proj stopCallback); auto. }
  rewrite run_pass_of. cbv zeta. unfold loop_animation.
  destruct (num_eqb (next_tickMod w) (Int 0)).
  - change (running (with_Rules _ (with_Rules _ (with_Statistic _ ?x))))
      with (running x).
    change (stopCallback (with_Rules _ (with_Rules _ (with_Statistic _ ?x))))
      with (stopCallback x).
    rewrite Hcb'.
    destruct (population (stats (pass_of w)) =? 0);
      [|destruct (running (world_of (pass_of w)))]; cbn [fst snd];
      rewrite ?calls_of_app, calls_of_pass; (split; [reflexivity|]);
      first [exact Hcb'|reflexivity].
  - rewrite Hcb'. destruct (running (world_of (pass_of w))); cbn [fst snd];
      rewrite calls_of_app, calls_of_pass; (split; [reflexivity|]);
      first [exact Hcb'|reflexivity].
Qed.

(** X1: however often [stop(cb)] was called, the tick that follows calls
    [cb] once, requests no further frame and forgets [cb], provided it is
    not a year boundary with nobody left, and no tick after it calls [cb]
    again. *)
Lemma stop_callback_called_once (w : World) (k n m : nat) :
  (1 <= n)%nat ->
  let w0 := Nat.iter n (stop (Some (fn k))) w in
  num_eqb (next_tickMod w0) (Int 0) && (population (stats (pass_of w0)) =? 0)
  = false ->
  calls_of (fn k) (snd (run w0)) = 1%nat
  /\ (requestAnimationFrame ∉ snd (run w0))
  /\ stopCallback (fst (run w0)) = noop
  /\ Forall (fun ev => calls_of (fn k) ev = 0%nat)
       (snd (ticks m (fst (run w0)))).
Proof.
  intros Hn w0 Hlive. subst w0. rewrite (stop_repeated _ _ _ Hn) in *.
  destruct (run_calls_stopCallback_once
              (with_stopCallback (fn k) (with_running false w)) k
              eq_refl eq_refl Hlive) as (Hone & Hnoop & Hframe).
  split; [exact Hone|]. split; [exact Hframe|]. split; [exact Hnoop|].
  set (w1 := fst (run _)) in *. clearbody w1. clear Hone Hlive Hframe.
  assert (Hm : Forall (fun ev => calls_of (fn k) ev = 0%nat) (snd (ticks m w1))
               /\ stopCallback (fst (ticks m w1)) = noop).
  { induction m as [|m [IHev IHcb]]; [split; [constructor|exact Hnoop]|].
    cbn [ticks fst snd].
    destruct (run_without_callback (fst (ticks m w1)) k IHcb) as [H0 Hcb].
    split; [|exact Hcb].
    apply Forall_app. split; [exact IHev|]. constructor; [exact H0|constructor]. }
  exact (proj1 Hm).
Qed.

End StopCallback.

Lemma demo_tick_keeps_running :
  forall speed r w, running (Seed_tick speed r w) = running w.
Proof. reflexivity. Qed.

Lemma demo_tick_keeps_stopCallback :
  forall speed r w, stopCallback (Seed_tick speed r w) = stopCallback w.
Proof. reflexivity. Qed.

(** Three calls of [stop(cb)] in the middle of the year: the next tick calls
    [cb] once, ten more ticks do not call it. *)
Lemma stop_callback_called_once_witness :
  let w0 := Nat.iter 3 (stop (Some (fn 7))) demo_crossing in
  ((1 <= 3)%nat
   /\ num_eqb (next_tickMod w0) (Int 0) && (population (stats (pass_of w0)) =? 0)
      = false)
  /\ calls_of (fn 7) (snd (run w0)) = 1%nat
  /\ (requestAnimationFrame ∉ snd (run w0))
  /\ stopCallback (fst (run w0)) = noop
  /\ Forall (fun ev => calls_of (fn 7) ev = 0%nat)
       (snd (ticks 10 (fst (run w0)))).
Proof.
  split; [split; [lia|reflexivity]|].
  apply (stop_callback_called_once demo_tick_keeps_running
           demo_tick_keeps_stopCallback demo_crossing 7 3 10).
  - lia.
  - reflexivity.
Defined.

(** C6, where the code departs from it: [stop(cb)] is called twice before the
    tick that closes the year of a world without seeds.  That tick ends with
    [running] false and has not called [cb]; [cb] stays registered, and is
    called by the tick that follows a later, unrelated [stop()]. *)
Theorem stop_callback_lost_on_extinction :
  let w := Nat.iter 2 (stop (Some (fn 7)))
             (with_running true (with_tickMod (Int 59) demo_world)) in
  let w1 := fst (run w) in
  let w3 := stop None (fst (start w1)) in
  (running w = false /\ stopCallback w = fn 7)
  /\ snd (run w)
     = [clearRect; Rules_changed; Knowledge_gained; setTimeout_yearPassed]
  /\ calls_of (fn 7) (snd (run w)) = 0%nat
  /\ (running w1 = false /\ stopCallback w1 = fn 7)
  /\ snd (run w3) = [clearRect; stopCallback_call (fn 7)].
Proof. vm_compute. repeat split. Qed.

(** * Further properties *)

(** ** Admissions take the frames in turn *)

Lemma shared_out_length (m n : nat) : length (shared_out m n) = m.
Proof. unfold shared_out. rewrite length_fmap, length_seq. reflexivity. Qed.

Lemma shared_out_lookup (m n i : nat) :
  (i < m)%nat ->
  shared_out m n !! i
  = Some (Z.of_nat (n / m) + (if decide (i < n mod m)%nat then 1 else 0)).
Proof.
  intros Hi. unfold shared_out.
  rewrite list_lookup_fmap, lookup_seq_lt by exact Hi. reflexivity.
Qed.

Lemma succ_div_mod (m n : nat) :
  (0 < m)%nat ->
  (S (n mod m) < m /\ S n / m = n / m /\ S n mod m = S (n mod m))%nat
  \/ (S (n mod m) = m /\ S n / m = S (n / m) /\ S n mod m = 0)%nat.
Proof.
  intros Hm.
  pose proof (Nat.div_mod_eq n m) as E.
  pose proof (Nat.mod_upper_bound n m ltac:(lia)) as Hr.
  set (q := (n / m)%nat) in *. set (r := (n mod m)%nat) in *.
  clearbody q r.
  destruct (decide (S r < m)%nat) as [Hlt|Hge].
  - left. split; [exact Hlt|]. split.
    + symmetry. apply (Nat.div_unique _ _ _ (S r)); lia.
    + symmetry. apply (Nat.mod_unique _ _ q); lia.
  - right. split; [lia|]. split.
    + symmetry. apply (Nat.div_unique _ _ _ 0%nat); lia.
    + symmetry. apply (Nat.mod_unique _ _ (S q)); lia.
Qed.

Lemma shared_out_S (m n : nat) :
  (0 < m)%nat ->
  <[(n mod m)%nat:=Z.of_nat (n / m) + 1]> (shared_out m n) = shared_out m (S n).
Proof.
  intros Hm. apply list_eq. intros i.
  pose proof (Nat.mod_upper_bound n m ltac:(lia)) as Hr.
  destruct (decide (i < m)%nat) as [Hi|Hi].
  - destruct (decide (i = n mod m)%nat) as [->|Hne].
    + rewrite list_lookup_insert_eq by (rewrite shared_out_length; exact Hr).
      rewrite shared_out_lookup by exact Hr.
      destruct (succ_div_mod m n Hm) as [(H1 & -> & ->)|(H1 & -> & ->)];
        case_decide; f_equal; lia.
    + rewrite list_lookup_insert_ne by congruence.
      rewrite !shared_out_lookup by exact Hi.
      destruct (succ_div_mod m n Hm) as [(H1 & -> & ->)|(H1 & -> & ->)];
        repeat case_decide; f_equal; lia.
  - rewrite !(lookup_ge_None_2) by
      (rewrite ?length_insert, shared_out_length; lia).
    reflexivity.
Qed.

Lemma first_min_shared_out (m n k : nat) :
  (0 < m)%nat -> first_min (shared_out m n) k -> k = (n mod m)%nat.
Proof.
  intros Hm (zk & Hk & Hle & Hlt).
  pose proof (Nat.mod_upper_bound n m ltac:(lia)) as Hr.
  assert (Hkm : (k < m)%nat).
  { apply lookup_lt_Some in Hk. rewrite shared_out_length in Hk. exact Hk. }
  rewrite shared_out_lookup in Hk by exact Hkm. injection Hk as Hk.
  pose proof (Hle (n mod m)%nat _ (shared_out_lookup m n _ Hr)) as Hmin.
  destruct (decide (n mod m < n mod m)%nat) as [Habs|_]; [lia|].
  destruct (decide (k < n mod m)%nat) as [Hlow|Hhigh]; [lia|].
  destruct (decide (k = n mod m)%nat) as [E|Hne]; [exact E|exfalso].
  pose proof (Hlt (n mod m)%nat _ ltac:(lia) (shared_out_lookup m n _ Hr)) as Habs.
  destruct (decide (n mod m < n mod m)%nat); lia.
Qed.

Lemma in_turn_add `{Host} (SeedCtor : Data -> Seed.t) (data : Data)
    (g : Random) (w : World) :
  in_turn w -> (0 < length (distributedTicks w))%nat ->
  in_turn (fst (add SeedCtor data g w))
  /\ length (distributedTicks (fst (add SeedCtor data g w)))
     = length (distributedTicks w)
  /\ length (heap (fst (add SeedCtor data g w))) = S (length (heap w)).
Proof.
  intros [Hdt Hidx] Hm.
  set (m := length (distributedTicks w)) in *.
  set (n := length (heap w)) in *.
  assert (Hne : shared_out m n <> []).
  { intros E. apply (f_equal length) in E. rewrite shared_out_length in E.
    cbn in E. lia. }
  destruct (add_counters SeedCtor data g w _ Hdt Hne)
    as (k & zk & Hscan & Hmin & Hk & Hnew).
  apply first_min_shared_out in Hmin; [|exact Hm].
  rewrite Hmin in Hk, Hnew, Hscan. clear Hmin k.
  pose proof (Nat.mod_upper_bound n m ltac:(lia)) as Hr.
  rewrite shared_out_lookup in Hk by exact Hr.
  destruct (decide (n mod m < n mod m)%nat) as [Habs|_]; [lia|].
  injection Hk as <-. rewrite Z.add_0_r, (shared_out_S m n Hm) in Hnew.
  destruct (admitted_is_Some SeedCtor data g w) as [seed Hseed].
  pose proof (add_heap_admitted _ _ _ _ _ Hseed) as Hheap.
  assert (Hlen : length (distributedTicks (fst (add SeedCtor data g w))) = m).
  { rewrite Hnew, length_fmap. apply shared_out_length. }
  assert (Hheaplen : length (heap (fst (add SeedCtor data g w))) = S n).
  { rewrite Hheap, length_app. cbn. fold n. lia. }
  split; [|split; [exact Hlen|exact Hheaplen]].
  split.
  - rewrite Hlen, Hheaplen. exact Hnew.
  - intros i s Hs. rewrite Hlen. rewrite Hheap in Hs.
    apply lookup_app_Some in Hs as [Hs|[Hi Hs]]; [apply Hidx; exact Hs|].
    apply list_lookup_singleton_Some in Hs as [Hi0 <-].
    rewrite (admitted_tickIndex _ _ _ _ _ Hseed), Hscan.
    f_equal. fold n in Hi, Hi0. lia.
Qed.

Lemma in_turn_apply_ops `{Host} (ops : list Op) (wg : World * Random) :
  only_adds ops -> in_turn (fst wg) ->
  (0 < length (distributedTicks (fst wg)))%nat ->
  in_turn (fst (apply_ops ops wg))
  /\ length (distributedTicks (fst (apply_ops ops wg)))
     = length (distributedTicks (fst wg))
  /\ length (heap (fst (apply_ops ops wg)))
     = (length (heap (fst wg)) + length ops)%nat.
Proof.
  intros Hadds. revert wg.
  induction Hadds as [|o ops Ho _ IH]; intros wg Hin Hm.
  - cbn. rewrite Nat.add_0_r. repeat split; try apply Hin.
  - destruct o as [C d|r]; [|destruct Ho].
    destruct (in_turn_add C d (snd wg) (fst wg) Hin Hm) as (Hin' & Hlen & Hheap).
    destruct (IH (add C d (snd wg) (fst wg)) Hin' ltac:(rewrite Hlen; exact Hm))
      as (IH1 & IH2 & IH3).
    split; [exact IH1|]. split; [rewrite <- Hlen; exact IH2|].
    change (apply_ops (op_add C d :: ops) wg)
      with (apply_ops ops (add C d (snd wg) (fst wg))).
    rewrite IH3, Hheap. cbn [length]. lia.
Qed.

(** X2: on a new world, admissions alone take the 59 frames in turn: the
    seed admitted as number [i] (from 0) gets [tickIndex] [i mod 59], the
    counters are [n / 59] each, one more for the first [n mod 59], and so no
    two counters differ by more than one. *)
Theorem admissions_take_frames_in_turn `{Host}
    (tiles : list (list (option ref))) (cap : Z) (rules : RulesState)
    (g : Random) (ops : list Op) :
  only_adds ops ->
  let w := fst (apply_ops ops (WorldJS tiles cap rules, g)) in
  length (heap w) = length ops
  /\ distributedTicks w = Int <$> shared_out 59 (length ops)
  /\ (forall i seed, heap w !! i = Some seed ->
        Seed.tickIndex seed = (i mod 59)%nat)
  /\ (forall i j a b,
        distributedTicks w !! i = Some (Int a) ->
        distributedTicks w !! j = Some (Int b) -> -1 <= a - b <= 1).
Proof.
  intros Hadds w.
  assert (H0 : in_turn (WorldJS tiles cap rules)).
  { split; [reflexivity|]. intros i s Hs. discriminate. }
  assert (H59 : length (distributedTicks (WorldJS tiles cap rules)) = 59%nat)
    by reflexivity.
  destruct (in_turn_apply_ops ops (WorldJS tiles cap rules, g) Hadds H0
              ltac:(cbn [fst]; rewrite H59; lia)) as ([Hdt Hidx] & Hlen & Hheap).
  fold w in Hdt, Hidx, Hlen, Hheap.
  change (length (distributedTicks (WorldJS tiles cap rules, g).1)) with 59%nat in Hlen.
  change (length (heap (WorldJS tiles cap rules, g).1)) with 0%nat in Hheap.
  rewrite Hlen, Hheap in Hdt. rewrite Hlen in Hidx. cbn [Nat.add] in Hdt.
  split; [exact Hheap|]. split; [exact Hdt|]. split; [exact Hidx|].
  intros i j a b Ha Hb. rewrite Hdt, list_lookup_fmap in Ha, Hb.
  assert (Hi : (i < 59)%nat).
  { destruct (shared_out 59 (length ops) !! i) eqn:E; [|discriminate].
    apply lookup_lt_Some in E. rewrite shared_out_length in E. exact E. }
  assert (Hj : (j < 59)%nat).
  { destruct (shared_out 59 (length ops) !! j) eqn:E; [|discriminate].
    apply lookup_lt_Some in E. rewrite shared_out_length in E. exact E. }
  rewrite shared_out_lookup in Ha, Hb by assumption.
  injection Ha as <-. injection Hb as <-.
  repeat case_decide; lia.
Qed.

Lemma admissions_take_frames_in_turn_witness :
  let ops := replicate 61 (op_add Male (demo_data (Some 15) None None)) in
  let w := fst (apply_ops ops (demo_world, demo_random)) in
  only_adds ops
  /\ length (heap w) = 61%nat
  /\ take 3 (distributedTicks w) = [Int 2; Int 2; Int 1]
  /\ (Seed.tickIndex <$> heap w) !! 60%nat = Some 1%nat.
Proof.
  assert (Hadds : only_adds
                    (replicate 61 (op_add Male (demo_data (Some 15) None None)))).
  { apply Forall_replicate. exact I. }
  cbv zeta. change demo_world with (WorldJS [[]; []] 5 {| baseIQ := 0 |}).
  split; [exact Hadds|].
  destruct (admissions_take_frames_in_turn [[]; []] 5 {| baseIQ := 0 |}
              demo_random _ Hadds) as (Hlen & Hdt & Hidx & _).
  split; [exact Hlen|]. split.
  - rewrite Hdt. reflexivity.
  - rewrite list_lookup_fmap.
    destruct (lookup_lt_is_Some_2 _ 60%nat
                ltac:(rewrite Hlen; cbn; lia)) as [s Hs].
    rewrite Hs. cbn. f_equal. exact (Hidx _ _ Hs).
Defined.

(** ** People from the borders *)

Lemma random_range (min max : Z) (g : Random) :
  in_unit g -> 0 <= min <= max -> max < 2 ^ 53 ->
  min <= fst (random min max g) <= max + 1 /\ in_unit (snd (random min max g)).
Proof.
  intros Hg Hmm Hmax. unfold random, Math_random. cbn [fst snd]. split.
  - apply random_of_range; [apply Hg|apply Hg|apply Hg|exact Hmm|exact Hmax].
  - apply in_unit_tail. exact Hg.
Qed.

Lemma random_range_0 (max : Z) (g : Random) :
  in_unit g -> 0 <= max -> 0 <= fst (random 0 max g) <= max.
Proof.
  intros Hg Hmax. unfold random, Math_random. cbn [fst snd].
  apply random_of_range_0; [apply Hg|apply Hg|apply Hg|exact Hmax].
Qed.

Lemma edge_random_in_unit : in_unit edge_random.
Proof.
  intros n. split; [|split; [discriminate|reflexivity]].
  exists (2 ^ 53 - 1), (-53). split; [reflexivity|]. split; [lia|reflexivity].
Qed.

Lemma from_border_keeps (fromBorder : Z) (data : Data) (g : Random) (w : World) :
  in_unit g ->
  d_age (fst (from_border fromBorder data g w)) = d_age data
  /\ d_tickCount (fst (from_border fromBorder data g w)) = d_tickCount data
  /\ in_unit (snd (from_border fromBorder data g w)).
Proof.
  intros Hg. unfold from_border.
  destruct (0 <? fromBorder); [|split; [reflexivity|split; [reflexivity|exact Hg]]].
  assert (Hbg : in_unit (snd (if fromBorder =? 5 then random 1 4 g
                                else (fromBorder, g)))).
  { destruct (fromBorder =? 5); [|exact Hg].
    unfold random, Math_random. cbn [snd]. apply in_unit_tail. exact Hg. }
  cbv zeta.
  repeat match goal with
         | |- context [if ?b =? ?c then _ else _] => destruct (b =? c)
         end;
    cbn [fst snd d_age d_tickCount];
    (split; [reflexivity|split; [reflexivity|]]);
    first [exact Hbg
          | unfold random at 1, Math_random at 1; cbn [snd];
            apply in_unit_tail; exact Hbg].
Qed.

(** X4: people asked to come from a border get one coordinate forced and
    the other left unset: [fromBorder] 1 (top) gives y in [0, 10], 3 (left)
    gives x in [0, 10], 2 (bottom) gives y in [height - 11, height] and
    4 (right) gives x in [width - 11, width], the upper end being reached
    when the draw is so close to 1 that the sum rounds up; 5 picks one of the
    four, or none when [random(1, 4)] rounds up to 5.  For any other value
    nothing is forced and no random number is drawn. *)
Theorem from_border_forces_one_coordinate (fromBorder : Z) (data : Data)
    (g : Random) (w : World) :
  in_unit g -> d_x data = None -> d_y data = None ->
  11 <= width w <= 2 ^ 53 -> 11 <= height w <= 2 ^ 53 ->
  let d' := fst (from_border fromBorder data g w) in
  (fromBorder = 1 -> at_top d')
  /\ (fromBorder = 2 -> at_bottom w d')
  /\ (fromBorder = 3 -> at_left d')
  /\ (fromBorder = 4 -> at_right w d')
  /\ (fromBorder = 5 ->
      at_top d' \/ at_bottom w d' \/ at_left d' \/ at_right w d' \/ d' = data)
  /\ (fromBorder <= 0 \/ 5 < fromBorder ->
      from_border fromBorder data g w = (data, g)).
Proof.
  intros Hg Hx Hy Hwidth Hheight d'.
  assert (Htop : forall g0, in_unit g0 ->
             at_top {| d_age := d_age data; d_tickCount := d_tickCount data;
                       d_x := d_x data; d_y := Some (fst (random 0 10 g0)) |}).
  { intros g0 Hg0. split; [exact Hx|]. eexists. split; [reflexivity|].
    apply random_range_0; [exact Hg0|lia]. }
  assert (Hbottom : forall g0, in_unit g0 ->
             at_bottom w
               {| d_age := d_age data; d_tickCount := d_tickCount data;
                  d_x := d_x data;
                  d_y := Some (fst (random (height w - 10 - 1) (height w - 1) g0)) |}).
  { intros g0 Hg0. split; [exact Hx|]. eexists. split; [reflexivity|].
    pose proof (proj1 (random_range (height w - 10 - 1) (height w - 1) g0 Hg0
                         ltac:(lia) ltac:(lia))). cbn [d_y]. lia. }
  assert (Hleft : forall g0, in_unit g0 ->
             at_left {| d_age := d_age data; d_tickCount := d_tickCount data;
                        d_x := Some (fst (random 0 10 g0)); d_y := d_y data |}).
  { intros g0 Hg0. split; [exact Hy|]. eexists. split; [reflexivity|].
    apply random_range_0; [exact Hg0|lia]. }
  assert (Hright : forall g0, in_unit g0 ->
             at_right w
               {| d_age := d_age data; d_tickCount := d_tickCount data;
                  d_x := Some (fst (random (width w - 10 - 1) (width w - 1) g0));
                  d_y := d_y data |}).
  { intros g0 Hg0. split; [exact Hy|]. eexists. split; [reflexivity|].
    pose proof (proj1 (random_range (width w - 10 - 1) (width w - 1) g0 Hg0
                         ltac:(lia) ltac:(lia))). cbn [d_x]. lia. }
  subst d'. split; [|split; [|split; [|split; [|split]]]].
  - intros ->. apply (Htop g Hg).
  - intros ->. apply (Hbottom g Hg).
  - intros ->. apply (Hleft g Hg).
  - intros ->. apply (Hright g Hg).
  - intros ->. unfold from_border. cbn [Z.ltb Z.eqb Z.compare Pos.compare Pos.compare_cont Pos.eqb].
    destruct (random_range 1 4 g Hg ltac:(lia) ltac:(reflexivity)) as [Hb Hg'].
    set (b := fst (random 1 4 g)) in *. set (g' := snd (random 1 4 g)) in *.
    cbv zeta. cbn [fst snd].
    destruct (Z.eqb_spec b 1) as [_|N1]; [left; apply (Htop g' Hg')|].
    destruct (Z.eqb_spec b 2) as [_|N2]; [right; left; apply (Hbottom g' Hg')|].
    destruct (Z.eqb_spec b 3) as [_|N3]; [right; right; left; apply (Hleft g' Hg')|].
    destruct (Z.eqb_spec b 4) as [_|N4];
      [right; right; right; left; apply (Hright g' Hg')|].
    right; right; right; right. reflexivity.
  - intros Hout. unfold from_border.
    destruct (Z.ltb_spec 0 fromBorder) as [Hpos|_]; [|reflexivity].
    destruct Hout as [Hn|Hbig]; [lia|].
    destruct (Z.eqb_spec fromBorder 5) as [E|_]; [lia|]. cbv zeta. cbn [fst snd].
    repeat match goal with
           | |- context [if ?b =? ?c then _ else _] =>
               destruct (Z.eqb_spec b c) as [E|_]; [lia|]
           end.
    reflexivity.
Qed.

(** From the bottom of the 640 x 360 world: y = 349 for an ordinary draw,
    and y = 360, outside the canvas, for a draw just below 1; with such
    draws [fromBorder] 5 forces nothing. *)
Lemma from_border_forces_one_coordinate_witness :
  let d := {| d_age := Some 15; d_tickCount := Some 900;
              d_x := None; d_y := None |} in
  (in_unit demo_random /\ in_unit edge_random /\ d_x d = None /\ d_y d = None
   /\ 11 <= width demo_world <= 2 ^ 53 /\ 11 <= height demo_world <= 2 ^ 53)
  /\ at_bottom demo_world (fst (from_border 2 d demo_random demo_world))
  /\ d_y (fst (from_border 2 d demo_random demo_world)) = Some 349
  /\ at_bottom demo_world (fst (from_border 2 d edge_random demo_world))
  /\ d_y (fst (from_border 2 d edge_random demo_world)) = Some 360
  /\ d_x (fst (from_border 4 d edge_random demo_world)) = Some 640
  /\ fst (from_border 5 d edge_random demo_world) = d.
Proof.
  assert (Hw : 11 <= width demo_world <= 2 ^ 53) by (split; discriminate).
  assert (Hh : 11 <= height demo_world <= 2 ^ 53) by (split; discriminate).
  split.
  { split; [exact demo_random_in_unit|]. split; [exact edge_random_in_unit|].
    split; [reflexivity|]. split; [reflexivity|]. split; assumption. }
  split.
  { exact (proj1 (proj2 (from_border_forces_one_coordinate 2
                           {| d_age := Some 15; d_tickCount := Some 900;
                              d_x := None; d_y := None |}
                           demo_random demo_world demo_random_in_unit
                           eq_refl eq_refl Hw Hh)) eq_refl). }
  split; [vm_compute; reflexivity|].
  split.
  { exact (proj1 (proj2 (from_border_forces_one_coordinate 2
                           {| d_age := Some 15; d_tickCount := Some 900;
                              d_x := None; d_y := None |}
                           edge_random demo_world edge_random_in_unit
                           eq_refl eq_refl Hw Hh)) eq_refl). }
  split; [vm_compute; reflexivity|]. split; vm_compute; reflexivity.
Defined.

(** ** Random people *)

Lemma admitted_age `{Host} (SeedCtor : Data -> Seed.t) (data : Data)
    (g : Random) (w : World) (seed : Seed.t) :
  admitted SeedCtor data g w = Some seed ->
  Seed.age seed = default 0 (d_age data)
  /\ Seed.instanceofMale seed = Seed.instanceofMale (SeedCtor data).
Proof. admitted_cases; split; reflexivity. Qed.

Lemma peopled_step `{Host} (count minAge maxAge fromBorder tickPerYear0 : Z)
    (w : World) (k : nat) (wg : World * Random) :
  0 <= minAge <= maxAge -> maxAge < 2 ^ 53 ->
  (forall d, Seed.instanceofMale (Male d) = true) ->
  (forall d, Seed.instanceofMale (Female d) = false) ->
  in_unit (snd wg) -> peopled count minAge maxAge w k (fst wg) ->
  let wg' := addRandomPeople_body count minAge maxAge fromBorder tickPerYear0
               (Z.of_nat k) wg in
  in_unit (snd wg') /\ peopled count minAge maxAge w (S k) (fst wg').
Proof.
  intros Hages Hbig HM HF Hg (Hlen & Hold & Hnext & Hstat & Hnew).
  unfold addRandomPeople_body. cbv zeta.
  destruct (random_range minAge maxAge (snd wg) Hg Hages Hbig) as [Hage Hg1].
  set (age := fst (random minAge maxAge (snd wg))) in *.
  set (d := {| d_age := Some age; d_tickCount := Some (age * tickPerYear0);
               d_x := None; d_y := None |}).
  destruct (from_border_keeps fromBorder d _ (fst wg) Hg1) as (Hdage & _ & Hg2).
  set (dg := from_border fromBorder d (snd (random minAge maxAge (snd wg)))
               (fst wg)) in *.
  set (C := if 2 * Z.of_nat k <? count then Male else Female).
  assert (HC : forall x, Seed.instanceofMale (C x) = (2 * Z.of_nat k <? count)).
  { intros x. subst C. destruct (2 * Z.of_nat k <? count); [apply HM|apply HF]. }
  assert (E : (if 2 * Z.of_nat k <? count
               then add Male (fst dg) (snd dg) (fst wg)
               else add Female (fst dg) (snd dg) (fst wg))
              = add C (fst dg) (snd dg) (fst wg)).
  { subst C. destruct (2 * Z.of_nat k <? count); reflexivity. }
  rewrite E. clear E.
  destruct (admitted_is_Some C (fst dg) (snd dg) (fst wg)) as [seed Hseed].
  pose proof (add_heap_admitted _ _ _ _ _ Hseed) as Hheap.
  destruct (admitted_age _ _ _ _ _ Hseed) as [Hsage Hsmale].
  split; [apply add_in_unit; exact Hg2|].
  split; [rewrite Hheap, length_app, Hlen; cbn; lia|].
  split.
  { intros i Hi. rewrite Hheap, lookup_app_l by lia. apply Hold. exact Hi. }
  split; [rewrite add_nextSeedId, Hnext; lia|].
  split.
  { rewrite add_Statistic, Hstat, seq_S, fmap_app, Hlen, app_assoc. reflexivity. }
  intros i s Hs. rewrite Hheap in Hs.
  apply lookup_app_Some in Hs as [Hs|[Hi Hs]]; [apply Hnew; exact Hs|].
  apply list_lookup_singleton_Some in Hs as [Hi0 <-].
  assert (i = k) as -> by lia.
  rewrite (admitted_id _ _ _ _ _ Hseed), Hsage, Hsmale, Hdage, HC, Hnext.
  subst d. cbn [d_age default]. unfold id.
  split; [lia|]. split; [lia|reflexivity].
Qed.

(** X3: [addRandomPeople(count, minAge, maxAge)] admits exactly [count]
    seeds (none when [count] is not positive) and touches no other seed: the
    new seeds take the next [count] identities in order, the first half
    (rounded up) are men and the others women, and the statistics are told of
    each in turn.  Their ages lie between [minAge] and [maxAge] + 1: the sum
    [random * (maxAge - minAge + 1) + minAge] is rounded to a double before
    the floor, and reaches [maxAge] + 1 for a draw just below 1. *)
Theorem addRandomPeople_admits `{Host} (count : Z)
    (minAge maxAge fromBorder : option Z) (g : Random) (w : World) :
  in_unit g ->
  0 <= default 15 minAge <= default 20 maxAge -> default 20 maxAge < 2 ^ 53 ->
  (forall d, Seed.instanceofMale (Male d) = true) ->
  (forall d, Seed.instanceofMale (Female d) = false) ->
  peopled count (default 15 minAge) (default 20 maxAge) w (Z.to_nat count)
    (fst (addRandomPeople count minAge maxAge fromBorder g w)).
Proof.
  intros Hg Hages Hbig HM HF. unfold addRandomPeople. cbv zeta.
  assert (Hall : forall k,
             let wg := foldl (fun wg (i : nat) =>
                                addRandomPeople_body count (default 15 minAge)
                                  (default 20 maxAge) (default 0 fromBorder)
                                  (tickPerYear w) (Z.of_nat i) wg)
                         (w, g) (seq 0 k) in
             in_unit (snd wg)
             /\ peopled count (default 15 minAge) (default 20 maxAge) w k (fst wg)).
  { induction k as [|k [IHg IHp]].
    - cbn [seq foldl fst snd]. split; [exact Hg|].
      split; [lia|]. split; [reflexivity|]. split; [cbn; lia|].
      split; [cbn; rewrite app_nil_r; reflexivity|].
      intros i s Hs. apply lookup_lt_Some in Hs. lia.
    - cbv zeta. rewrite seq_S, foldl_snoc. cbn [Nat.add].
      apply peopled_step; assumption. }
  apply (Hall (Z.to_nat count)).
Qed.

(** Five people from the borders; and, with draws just below 1, two people
    of age 21 where ages from 15 to 20 were asked for. *)
Lemma addRandomPeople_admits_witness :
  let w' := fst (addRandomPeople 5 None None (Some 5) demo_random demo_family) in
  let w2 := fst (addRandomPeople 2 (Some 15) (Some 20) None edge_random
                   demo_world) in
  (in_unit demo_random /\ in_unit edge_random
   /\ 0 <= default 15 None <= default 20 None /\ default 20 None < 2 ^ 53)
  /\ peopled 5 15 20 demo_family 5 w'
  /\ (fun s => (Seed.id s, Seed.age s, Seed.instanceofMale s))
       <$> drop 3 (heap w')
     = [(1, 15, true); (2, 16, true); (3, 17, true); (4, 18, false);
        (5, 19, false)]
  /\ peopled 2 15 20 demo_world 2 w2
  /\ (fun s => (Seed.id s, Seed.age s, Seed.instanceofMale s)) <$> heap w2
     = [(1, 21, true); (2, 21, false)].
Proof.
  split.
  { split; [exact demo_random_in_unit|]. split; [exact edge_random_in_unit|].
    split; [cbn; lia|reflexivity]. }
  split.
  { exact (addRandomPeople_admits 5 None None (Some 5) demo_random demo_family
             demo_random_in_unit ltac:(cbn; lia) eq_refl
             (fun _ => eq_refl) (fun _ => eq_refl)). }
  split; [vm_compute; reflexivity|].
  split; [|vm_compute; reflexivity].
  exact (addRandomPeople_admits 2 (Some 15) (Some 20) None edge_random demo_world
           edge_random_in_unit ltac:(cbn; lia) eq_refl
           (fun _ => eq_refl) (fun _ => eq_refl)).
Defined.

(** ** The statistics of a year *)

(** A property of the pass that every visit of a slot keeps holds when the
    pass ends. *)
Lemma traverse_invariant `{Host} (P : Pass -> Prop) (yearPassed reDraw : bool)
    (speed0 cap : Z) (p : Pass) :
  P p ->
  (forall i j st, P (fst st) ->
     P (fst (visit yearPassed reDraw speed0 cap i j st))) ->
  P (traverse yearPassed reDraw speed0 cap p).
Proof.
  intros Hp Hvisit. unfold traverse.
  apply (foldl_invariant P); [exact Hp|].
  intros q i Hq. unfold visit_tile.
  apply (foldl_invariant (fun st : Pass * Z => P (fst st))); [exact Hq|].
  intros st j Hst. apply Hvisit. exact Hst.
Qed.

Lemma count_seed_tallied (seed : Seed.t) (a : Aggregates) :
  population a = men a + women a + boys a + girls a ->
  0 <= families a <= men a -> 0 <= women a -> 0 <= boys a -> 0 <= girls a ->
  let a' := count_seed seed a in
  population a' = population a + 1
  /\ population a' = men a' + women a' + boys a' + girls a'
  /\ 0 <= families a' <= men a'
  /\ 0 <= women a' /\ 0 <= boys a' /\ 0 <= girls a'.
Proof.
  intros Hsum Hfam Hw Hb Hg. unfold count_seed. cbn.
  destruct (Seed.instanceofMale seed), (Seed.age seed <=? Seed.maxChildAge seed),
    (Seed.married seed); cbn; lia.
Qed.

Lemma visit_tallied `{Host} (reDraw : bool) (speed0 cap : Z) (i j : nat)
    (st : Pass * Z) :
  tallied (fst st) -> tallied (fst (visit true reDraw speed0 cap i j st)).
Proof.
  intros Ht. unfold visit.
  destruct (Tile_list (world_of (fst st)) !! i ≫= (fun seeds => seeds !! j))
    as [[r|]|]; [|exact Ht|exact Ht].
  destruct (heap (world_of (fst st)) !! r) as [seed|]; [|exact Ht].
  destruct (num_eqb _ _); [exact Ht|].
  destruct Ht as (Hpop & Hsum & Hfam & Hw & Hb & Hg).
  destruct (count_seed_tallied (Seed.set_age (Seed.age seed + 1) seed)
              (stats (fst st)) Hsum Hfam Hw Hb Hg) as (Hpop' & Hrest).
  unfold tallied. cbn [fst stats events].
  split; [|exact Hrest].
  rewrite Hpop', Hpop, ticked_app, ticked_draw_seed, length_app.
  change (ticked [tick r speed0]) with [r]. cbn [fst length]. lia.
Qed.

Lemma visit_keeps_stats `{Host} (reDraw : bool) (speed0 cap : Z) (i j : nat)
    (st : Pass * Z) :
  stats (fst (visit false reDraw speed0 cap i j st)) = stats (fst st).
Proof.
  unfold visit.
  destruct (Tile_list (world_of (fst st)) !! i ≫= (fun seeds => seeds !! j))
    as [[r|]|]; [|reflexivity|reflexivity].
  destruct (heap (world_of (fst st)) !! r) as [seed|]; [|reflexivity].
  destruct (num_eqb _ _); reflexivity.
Qed.

(** X5: on a year boundary the statistics [run] has counted when the pass
    ends tally: the population is the number of seeds ticked in the pass and
    the sum of men, women, boys and girls, and the families are at most the
    men; on any other tick nothing is counted. *)
Theorem year_statistics_tally `{Host} (w : World) :
  (next_tickMod w = Int 0 -> tallied (pass_of w))
  /\ (next_tickMod w <> Int 0 -> stats (pass_of w) = no_aggregates).
Proof.
  split.
  - intros Hy. apply num_eqb_eq in Hy. unfold pass_of. cbv zeta.
    change (tickMod (with_tickMod (next_tickMod w) w)) with (next_tickMod w).
    rewrite Hy, orb_true_r.
    apply (traverse_invariant tallied).
    + unfold tallied. cbn. lia.
    + intros i j st. apply visit_tallied.
  - intros Hy. unfold pass_of. cbv zeta.
    change (tickMod (with_tickMod (next_tickMod w) w)) with (next_tickMod w).
    destruct (num_eqb (next_tickMod w) (Int 0)) eqn:E;
      [apply num_eqb_eq in E; contradiction|].
    apply (traverse_invariant (fun p => stats p = no_aggregates));
      [reflexivity|].
    intros i j st Hst. rewrite visit_keeps_stats. exact Hst.
Qed.

Lemma year_statistics_tally_witness :
  let w := with_heap (Seed.set_tickMod (Int 59) <$> heap demo_family)
             (with_tickMod (Int 59) demo_family) in
  next_tickMod w = Int 0
  /\ tallied (pass_of w)
  /\ stats (pass_of w)
     = {| population := 3; IQ := 0; men := 0; women := 0; boys := 2;
          girls := 1; families := 0 |}.
Proof.
  split; [reflexivity|]. split; [|reflexivity].
  exact (proj1 (year_statistics_tally
                  (with_heap (Seed.set_tickMod (Int 59) <$> heap demo_family)
                     (with_tickMod (Int 59) demo_family))) eq_refl).
Defined.

(** ** What is drawn *)

Lemma draws_app (ev ev' : list Event) :
  draws (ev ++ ev') = (draws ev + draws ev')%nat.
Proof. unfold draws. rewrite omap_app, length_app. reflexivity. Qed.

(** The calls [run] makes once the pass is over go to the collaborators, the
    timers and the stop callback, none to the canvas. *)
Lemma run_events `{Host} (w : World) :
  exists tl, snd (run w) = events (pass_of w) ++ tl
             /\ Forall (fun e => ~ canvas_call e) tl.
Proof.
  rewrite run_pass_of. cbv zeta. unfold loop_animation.
  destruct (num_eqb (next_tickMod w) (Int 0)).
  - destruct (population (stats (pass_of w)) =? 0);
      [|destruct (running _)]; cbn [snd]; rewrite <- ?app_assoc;
      (eexists; split; [reflexivity|]); repeat constructor; exact id.
  - destruct (running _); cbn [snd];
      (eexists; split; [reflexivity|]); repeat constructor; exact id.
Qed.

Lemma draws_no_canvas (ev : list Event) :
  Forall (fun e => ~ canvas_call e) ev -> draws ev = 0%nat.
Proof.
  induction 1 as [|e ev He _ IH]; [reflexivity|].
  change (e :: ev) with ([e] ++ ev). rewrite draws_app, IH.
  destruct e; cbn in He; try reflexivity; exfalso; exact (He I).
Qed.

Lemma visit_not_drawing `{Host} (yearPassed : bool) (speed0 cap : Z)
    (i j : nat) (st : Pass * Z) :
  Forall (fun e => ~ canvas_call e) (events (fst st)) ->
  Forall (fun e => ~ canvas_call e)
    (events (fst (visit yearPassed false speed0 cap i j st))).
Proof.
  intros Hst. unfold visit.
  destruct (Tile_list (world_of (fst st)) !! i ≫= (fun seeds => seeds !! j))
    as [[r|]|]; [|exact Hst|exact Hst].
  destruct (heap (world_of (fst st)) !! r) as [seed|]; [|exact Hst].
  destruct (num_eqb _ _); [exact Hst|]. cbn [fst events draw_seed andb].
  apply Forall_app. split; [exact Hst|]. repeat constructor. exact id.
Qed.

Lemma visit_clears_once `{Host} (yearPassed reDraw : bool) (speed0 cap : Z)
    (i j : nat) (st : Pass * Z) :
  (exists ev, events (fst st) = clearRect :: ev /\ clearRect ∉ ev) ->
  exists ev, events (fst (visit yearPassed reDraw speed0 cap i j st))
             = clearRect :: ev /\ clearRect ∉ ev.
Proof.
  intros (ev & Hev & Hno). unfold visit.
  destruct (Tile_list (world_of (fst st)) !! i ≫= (fun seeds => seeds !! j))
    as [[r|]|]; [|exists ev; split; assumption|exists ev; split; assumption].
  destruct (heap (world_of (fst st)) !! r) as [seed|];
    [|exists ev; split; assumption].
  destruct (num_eqb _ _); [exists ev; split; assumption|].
  cbn [fst events]. unfold draw_seed.
  destruct (reDraw && _); [destruct (displayMode _)|]; cbn [fst];
    rewrite Hev; rewrite <- ?app_assoc, <- ?app_comm_cons;
    (eexists; split; [reflexivity|]);
    intros Hin;
    repeat (apply elem_of_app in Hin as [Hin|Hin]); try exact (Hno Hin);
    repeat (apply elem_of_cons in Hin as [Hin|Hin]; [discriminate|]);
    inversion Hin.
Qed.

(** One visit draws at most one seed, and none once the tile's cap is
    reached. *)
Lemma visit_draws `{Host} (yearPassed reDraw : bool) (speed0 cap : Z)
    (i j : nat) (st : Pass * Z) (base : Z) :
  0 <= snd st <= Z.max 0 cap ->
  Z.of_nat (draws (events (fst st))) <= base + snd st ->
  let st' := visit yearPassed reDraw speed0 cap i j st in
  0 <= snd st' <= Z.max 0 cap
  /\ Z.of_nat (draws (events (fst st'))) <= base + snd st'.
Proof.
  intros Hd Hn. unfold visit.
  destruct (Tile_list (world_of (fst st)) !! i ≫= (fun seeds => seeds !! j))
    as [[r|]|]; [|split; assumption|split; assumption].
  destruct (heap (world_of (fst st)) !! r) as [seed|]; [|split; assumption].
  destruct (num_eqb _ _); [split; assumption|].
  cbv zeta. cbn [fst snd events]. rewrite draws_app.
  change (draws [tick r speed0]) with 0%nat. rewrite Nat.add_0_r.
  unfold draw_seed. cbn [fst snd].
  destruct reDraw; cbn [andb]; [|split; assumption].
  destruct (Z.ltb_spec (snd st) cap) as [Hlt|Hge]; [|split; assumption].
  cbn [fst snd].
  destruct (displayMode _); rewrite ?draws_app; cbn [draws omap list_omap length];
    split; lia.
Qed.

Lemma visit_tile_draws `{Host} (yearPassed reDraw : bool) (speed0 cap : Z)
    (p : Pass) (i : nat) :
  Z.of_nat (draws (events (visit_tile yearPassed reDraw speed0 cap p i)))
  <= Z.of_nat (draws (events p)) + Z.max 0 cap.
Proof.
  unfold visit_tile.
  assert (Hin : (fun st : Pass * Z =>
                   0 <= snd st <= Z.max 0 cap
                   /\ Z.of_nat (draws (events (fst st)))
                      <= Z.of_nat (draws (events p)) + snd st)
                  (foldl (fun st j => visit yearPassed reDraw speed0 cap i j st)
                     (p, 0)
                     (seq 0 (length (default [] (Tile_list (world_of p) !! i)))))).
  { apply foldl_invariant; [cbn; lia|].
    intros st j [Hd Hn]. apply visit_draws; assumption. }
  cbv beta in Hin. lia.
Qed.

Lemma foldl_bound {A B : Type} (f : A -> Z) (step : A -> B -> A) (c : Z)
    (l : list B) (a : A) :
  (forall a x, f (step a x) <= f a + c) ->
  f (foldl step a l) <= f a + Z.of_nat (length l) * c.
Proof.
  intros Hstep. revert a. induction l as [|x l IH]; intros a; [cbn; lia|].
  cbn [foldl length]. specialize (IH (step a x)). specialize (Hstep a x). lia.
Qed.

(** The calls made at one slot come after those made before, and draw one
    seed at most, none once the tile's cap is reached. *)
Lemma visit_segment `{Host} (yearPassed reDraw : bool) (speed0 cap : Z)
    (i j : nat) (st : Pass * Z) :
  0 <= snd st <= Z.max 0 cap ->
  let st' := visit yearPassed reDraw speed0 cap i j st in
  exists ext,
    events (fst st') = events (fst st) ++ ext
    /\ 0 <= snd st' <= Z.max 0 cap
    /\ Z.of_nat (draws ext) <= snd st' - snd st.
Proof.
  intros Hd. unfold visit.
  destruct (Tile_list (world_of (fst st)) !! i ≫= (fun seeds => seeds !! j))
    as [[r|]|];
    [|exists []; rewrite app_nil_r; cbn; repeat split; lia
     |exists []; rewrite app_nil_r; cbn; repeat split; lia].
  destruct (heap (world_of (fst st)) !! r) as [seed|];
    [|exists []; rewrite app_nil_r; cbn; repeat split; lia].
  destruct (num_eqb _ _);
    [exists []; rewrite app_nil_r; cbn; repeat split; lia|].
  cbv zeta. cbn [fst snd events]. unfold draw_seed. cbn [fst snd].
  destruct reDraw; cbn [andb];
    [|exists [tick r speed0]; cbn; repeat split; lia].
  destruct (Z.ltb_spec (snd st) cap) as [Hlt|Hge];
    [|exists [tick r speed0]; cbn; repeat split; lia].
  cbn [fst snd].
  destruct (displayMode _);
    first [ exists [draw r true; tick r speed0];
            rewrite <- app_assoc; cbn; repeat split; lia
          | exists [draw r false; tick r speed0];
            rewrite <- app_assoc; cbn; repeat split; lia
          | exists [tick r speed0]; cbn; repeat split; lia ].
Qed.

(** The calls made while one tile is visited draw at most
    [maxDisplayedSeeds] seeds. *)
Lemma visit_tile_segment `{Host} (yearPassed reDraw : bool) (speed0 cap : Z)
    (p : Pass) (i : nat) :
  exists seg,
    events (visit_tile yearPassed reDraw speed0 cap p i) = events p ++ seg
    /\ Z.of_nat (draws seg) <= Z.max 0 cap.
Proof.
  unfold visit_tile.
  assert (Hin : (fun st : Pass * Z =>
                   exists seg, events (fst st) = events p ++ seg
                     /\ 0 <= snd st <= Z.max 0 cap
                     /\ Z.of_nat (draws seg) <= snd st)
                  (foldl (fun st j => visit yearPassed reDraw speed0 cap i j st)
                     (p, 0)
                     (seq 0 (length (default [] (Tile_list (world_of p) !! i)))))).
  { apply foldl_invariant.
    - exists []. rewrite app_nil_r. cbn. repeat split; lia.
    - intros st j (seg & Hev & Hd & Hn).
      destruct (visit_segment yearPassed reDraw speed0 cap i j st Hd)
        as (ext & Hext & Hd' & Hn').
      exists (seg ++ ext). rewrite Hext, Hev, app_assoc, draws_app.
      split; [reflexivity|]. split; [exact Hd'|]. lia. }
  destruct Hin as (seg & Hev & Hd & Hn). exists seg. split; [exact Hev|lia].
Qed.

(** X6: when the statistics' population is above [maxSafeSeedsForDisplay]
    and no year passes, [run] makes no call to the canvas; otherwise it
    clears the canvas once, first of all.  In either case it draws at most
    [maxDisplayedSeeds] seeds for each tile: the calls of [run] are those
    made while tile 0 is visited, then tile 1, and so on, each of these
    segments with at most [maxDisplayedSeeds] draws, followed by calls that
    draw nothing. *)
Theorem run_display_policy `{Host} (w : World) :
  (reDraw_of w = false -> Forall (fun e => ~ canvas_call e) (snd (run w)))
  /\ (reDraw_of w = true ->
      exists ev, snd (run w) = clearRect :: ev /\ clearRect ∉ ev)
  /\ Z.of_nat (draws (snd (run w)))
     <= Z.of_nat (length (Tile_list w)) * Z.max 0 (Tile_maxDisplayedSeeds w)
  /\ events (tiles_visited 0 w) = (if reDraw_of w then [clearRect] else [])
  /\ (forall i, exists seg,
        events (tiles_visited (S i) w) = events (tiles_visited i w) ++ seg
        /\ Z.of_nat (draws seg) <= Z.max 0 (Tile_maxDisplayedSeeds w))
  /\ exists tl,
       snd (run w) = events (tiles_visited (length (Tile_list w)) w) ++ tl
       /\ draws tl = 0%nat.
Proof.
  destruct (run_events w) as (tl & Hrun & Htl).
  assert (Hpass : pass_of w
                  = traverse (num_eqb (next_tickMod w) (Int 0)) (reDraw_of w)
                      (speed w) (Tile_maxDisplayedSeeds w)
                      {| world_of := with_tickMod (next_tickMod w) w;
                         stats := no_aggregates;
                         events := if reDraw_of w then [clearRect] else [] |})
    by reflexivity.
  split; [|split; [|split; [|split; [|split]]]].
  - rewrite Hrun. intros Hre. apply Forall_app. split; [|exact Htl].
    rewrite Hpass, Hre.
    apply (traverse_invariant
             (fun p => Forall (fun e => ~ canvas_call e) (events p)));
      [constructor|].
    intros i j st. apply visit_not_drawing.
  - rewrite Hrun. intros Hre.
    assert (Hev : exists ev, events (pass_of w) = clearRect :: ev
                             /\ clearRect ∉ ev).
    { rewrite Hpass, Hre.
      apply (traverse_invariant
               (fun p => exists ev, events p = clearRect :: ev /\ clearRect ∉ ev)).
      - exists []. split; [reflexivity|]. intros Hin. inversion Hin.
      - intros i j st. apply visit_clears_once. }
    destruct Hev as (ev & -> & Hno). exists (ev ++ tl). split; [reflexivity|].
    intros Hin. apply elem_of_app in Hin as [Hin|Hin]; [exact (Hno Hin)|].
    rewrite Forall_forall in Htl. exact (Htl _ Hin I).
  - rewrite Hrun, draws_app, (draws_no_canvas tl Htl), Nat.add_0_r, Hpass.
    unfold traverse. cbn [world_of].
    change (Tile_list (with_tickMod (next_tickMod w) w)) with (Tile_list w).
    etransitivity.
    + apply (foldl_bound (fun p => Z.of_nat (draws (events p)))
               _ (Z.max 0 (Tile_maxDisplayedSeeds w))).
      intros p i. apply visit_tile_draws.
    + rewrite length_seq. cbn [events].
      destruct (reDraw_of w); cbn; lia.
  - reflexivity.
  - intros i. unfold tiles_visited. cbv zeta. rewrite seq_S, foldl_snoc.
    cbn [Nat.add]. apply visit_tile_segment.
  - exists tl. split; [exact Hrun|apply draws_no_canvas; exact Htl].
Qed.

(** With more seeds on record than [maxSafeSeedsForDisplay] and the year not
    over, nothing is drawn; otherwise both seeds are, the one of tile 0 while
    tile 0 is visited. *)
Lemma run_display_policy_witness :
  let crowded :=
    with_maxSafeSeedsForDisplay 1
      (with_Statistic [Statistic_seedAdded 0%nat; Statistic_seedAdded 1%nat]
         demo_crossing) in
  reDraw_of crowded = false
  /\ Forall (fun e => ~ canvas_call e) (snd (run crowded))
  /\ snd (run crowded) = [tick 0%nat 1; tick 1%nat 1; requestAnimationFrame]
  /\ reDraw_of demo_crossing = true
  /\ (exists ev, snd (run demo_crossing) = clearRect :: ev /\ clearRect ∉ ev)
  /\ draws (snd (run demo_crossing)) = 2%nat
  /\ events (tiles_visited 1 demo_crossing)
     = events (tiles_visited 0 demo_crossing) ++ [draw 0%nat true; tick 0%nat 1]
  /\ events (tiles_visited 2 demo_crossing)
     = events (tiles_visited 1 demo_crossing) ++ [draw 1%nat true; tick 1%nat 1].
Proof.
  cbv zeta. split; [reflexivity|].
  split;
    [exact (proj1 (run_display_policy
                     (with_maxSafeSeedsForDisplay 1
                        (with_Statistic
                           [Statistic_seedAdded 0%nat; Statistic_seedAdded 1%nat]
                           demo_crossing))) eq_refl)|].
  split; [reflexivity|]. split; [reflexivity|].
  split; [exact (proj1 (proj2 (run_display_policy demo_crossing)) eq_refl)|].
  split; [reflexivity|]. split; reflexivity.
Defined.

(** ** Evictions that go wrong *)

(** X7: [remove] throws exactly when the seed is flagged married and has no
    partner.  It throws after the statistics were told and the flag was
    cleared, and before the bucket and the frame counter are touched: the
    seed stays in its tile and in its frame. *)
Theorem remove_throws_without_partner (r : ref) (seed : Seed.t) (w : World) :
  heap w !! r = Some seed ->
  (Seed.married seed = true /\ Seed.relationSeed seed = None ->
   exists w', remove r w = TypeError w'
     /\ Statistic w' = Statistic w ++ [Statistic_seedRemoved r]
     /\ heap w' !! r = Some (Seed.set_married false seed)
     /\ (forall r', r' <> r -> heap w' !! r' = heap w !! r')
     /\ Tile_list w' = Tile_list w
     /\ distributedTicks w' = distributedTicks w)
  /\ (Seed.married seed = false \/ Seed.relationSeed seed <> None ->
      exists w', remove r w = Returned w').
Proof.
  intros Hr. split.
  - intros [Hm Hp]. unfold remove. cbn. rewrite Hr, Hm, Hp.
    eexists. split; [reflexivity|]. cbn.
    split; [reflexivity|]. split; [|split; [|split; reflexivity]].
    + rewrite list_lookup_alter_eq, Hr. reflexivity.
    + intros r' Hne. apply list_lookup_alter_ne. congruence.
  - intros Hcase. unfold remove. cbn. rewrite Hr.
    destruct (Seed.married seed); [|eexists; reflexivity].
    destruct (Seed.relationSeed seed) as [partner|]; [eexists; reflexivity|].
    destruct Hcase as [Hm|Hp]; [discriminate|contradiction].
Qed.

Lemma remove_throws_without_partner_witness :
  let w := update_seed 0%nat (Seed.set_relationSeed None) demo_family in
  exists seed, heap w !! 0%nat = Some seed
    /\ Seed.married seed = true /\ Seed.relationSeed seed = None
    /\ exists w', remove 0%nat w = TypeError w'
         /\ Tile_list w' = [[Some 0%nat; Some 1%nat; Some 2%nat]; []]
         /\ distributedTicks w' = distributedTicks demo_family.
Proof.
  cbv zeta. eexists. split; [reflexivity|]. split; [reflexivity|].
  split; [reflexivity|].
  destruct (proj1 (remove_throws_without_partner 0%nat _
                     (update_seed 0%nat (Seed.set_relationSeed None) demo_family)
                     eq_refl) (conj eq_refl eq_refl))
    as (w' & Hthrow & _ & _ & _ & Ht & Hd).
  exists w'. split; [exact Hthrow|]. split; [exact Ht|exact Hd].
Defined.

(** ** Admission undone *)

Lemma add_Tile_list `{Host} (SeedCtor : Data -> Seed.t) (data : Data)
    (g : Random) (w : World) (seed : Seed.t) :
  admitted SeedCtor data g w = Some seed ->
  Tile_list (fst (add SeedCtor data g w))
  = Tile_place (length (heap w)) (Seed.tileIndex seed) (Tile_list w).
Proof. admitted_cases; reflexivity. Qed.

Lemma remove_unmarried_Tile_list (r : ref) (w : World) (seed : Seed.t) :
  heap w !! r = Some seed -> Seed.married seed = false ->
  Tile_list (world_after (remove r w))
  = alter (vacate r) (Seed.tileIndex seed) (Tile_list w).
Proof.
  intros Hr Hm. unfold remove. cbn. rewrite Hr, Hm. cbn.
  unfold Tile_rem. cbn. rewrite Hr. reflexivity.
Qed.

(** Vacating the slot a seed was just given leaves the other occupants where
    they were. *)
Lemma occupants_vacate_place (r : ref) (bucket : list (option ref)) :
  Some r ∉ bucket -> occupants (vacate r (place r bucket)) = occupants bucket.
Proof.
  unfold occupants. induction bucket as [|[o|] bucket IH]; intros Hr; cbn.
  - destruct (decide (r = r)); [reflexivity|contradiction].
  - destruct (decide (o = r)) as [->|Hne].
    + exfalso. apply Hr. left.
    + cbn. f_equal. apply IH. intros Hin. apply Hr. right. exact Hin.
  - destruct (decide (r = r)); [reflexivity|contradiction].
Qed.

(** X8: a seed admitted and removed at once leaves every frame counter and
    the occupants of every tile as they were before; its identity is spent
    all the same, and the statistics were told of both. *)
Theorem add_then_remove `{Host} (SeedCtor : Data -> Seed.t) (data : Data)
    (g : Random) (w : World) (zs : list Z) :
  distributedTicks w = Int <$> zs -> zs <> [] ->
  Seed.married (SeedCtor data) = false ->
  (forall bucket, bucket ∈ Tile_list w -> Some (length (heap w)) ∉ bucket) ->
  exists w',
    remove (length (heap w)) (fst (add SeedCtor data g w)) = Returned w'
    /\ distributedTicks w' = distributedTicks w
    /\ occupants <$> Tile_list w' = occupants <$> Tile_list w
    /\ nextSeedId w' = nextSeedId w + 1
    /\ Statistic w'
       = Statistic w ++ [Statistic_seedAdded (length (heap w));
                         Statistic_seedRemoved (length (heap w))].
Proof.
  intros Hzs Hne Hm Hfresh.
  destruct (admitted_is_Some SeedCtor data g w) as [seed Hseed].
  pose proof (add_heap_admitted SeedCtor data g w seed Hseed) as Hheap.
  assert (Hr : heap (fst (add SeedCtor data g w)) !! length (heap w) = Some seed)
    by exact Hseed.
  assert (Hms : Seed.married seed = false).
  { rewrite (proj1 (admitted_married SeedCtor data g w seed Hseed)). exact Hm. }
  destruct (remove_unmarried _ _ _ Hr Hms) as (w' & Hrem & Hh & Hst & Hdt).
  exists w'. split; [exact Hrem|].
  pose proof (remove_unmarried_Tile_list _ _ _ Hr Hms) as Htl.
  rewrite Hrem in Htl. cbn [world_after] in Htl.
  pose proof (remove_nextSeedId (length (heap w)) (fst (add SeedCtor data g w)))
    as Hid.
  rewrite Hrem in Hid. cbn [world_after] in Hid.
  split; [|split; [|split]].
  - rewrite Hdt, (admitted_tickIndex SeedCtor data g w seed Hseed).
    destruct (add_counters SeedCtor data g w zs Hzs Hne)
      as (k & zk & Hk & _ & Hzk & Hadd).
    rewrite Hadd, Hk, Hzs.
    assert (Hlt : (k < length zs)%nat) by (apply lookup_lt_is_Some; eauto).
    rewrite (array_get_int _ k (zk + 1))
      by (rewrite list_lookup_insert_eq by exact Hlt; reflexivity).
    cbn [num_sub]. rewrite array_set_int by (rewrite length_insert; exact Hlt).
    rewrite list_insert_insert_eq. replace (zk + 1 - 1) with zk by lia.
    rewrite list_insert_id by exact Hzk. reflexivity.
  - rewrite Htl, (add_Tile_list SeedCtor data g w seed Hseed). unfold Tile_place.
    apply list_eq. intros i. rewrite !list_lookup_fmap.
    destruct (decide (i = Seed.tileIndex seed)) as [->|Hi].
    + rewrite !list_lookup_alter_eq.
      destruct (Tile_list w !! Seed.tileIndex seed) as [bucket|] eqn:Hb;
        [|reflexivity].
      cbn. f_equal. apply occupants_vacate_place. apply Hfresh.
      apply list_elem_of_lookup. eauto.
    + rewrite !list_lookup_alter_ne by congruence. reflexivity.
  - rewrite Hid. apply add_nextSeedId.
  - rewrite Hst, add_Statistic, <- app_assoc. reflexivity.
Qed.

Lemma add_then_remove_witness :
  exists w',
    remove 3%nat
      (fst (add Male (demo_data (Some 20) None None) demo_random demo_family))
    = Returned w'
    /\ distributedTicks w' = distributedTicks demo_family
    /\ occupants <$> Tile_list w' = [[0%nat; 1%nat; 2%nat]; []]
    /\ nextSeedId w' = nextSeedId demo_family + 1.
Proof.
  destruct (add_then_remove Male (demo_data (Some 20) None None) demo_random
              demo_family ([1; 1; 1] ++ replicate 56 0) eq_refl
              ltac:(discriminate) eq_refl)
    as (w' & Hrem & Hd & Ht & Hi & _).
  - intros bucket Hb. 
    apply elem_of_cons in Hb as [->|Hb];
      [|apply elem_of_cons in Hb as [->|Hb]; [|inversion Hb]];
      intros Hin;
      repeat (apply elem_of_cons in Hin as [Hin|Hin]; [discriminate|]);
      inversion Hin.
  - exists w'. split; [exact Hrem|]. split; [exact Hd|]. split; [exact Ht|exact Hi].
Defined.

(** ** Seeds born during a pass *)

Lemma stamps_kept_length (w w' : World) :
  stamps_kept w w' -> (length (heap w) <= length (heap w'))%nat.
Proof.
  intros [_ Hk].
  destruct (Nat.le_gt_cases (length (heap w)) (length (heap w'))) as [Hle|Hgt];
    [exact Hle|].
  destruct (lookup_lt_is_Some_2 (heap w) (length (heap w')) Hgt) as [s Hs].
  destruct (Hk _ _ Hs) as (s' & Hs' & _).
  apply lookup_lt_Some in Hs'. lia.
Qed.

Lemma num_eqb_refl (a : Number) : is_int a -> num_eqb a a = true.
Proof. destruct a as [z|]; [intros _; apply Z.eqb_refl|intros []]. Qed.

Lemma length_heap_update_seed (r : ref) (u : Seed.t -> Seed.t) (w : World) :
  length (heap (update_seed r u w)) = length (heap w).
Proof. unfold update_seed. cbn. apply length_alter. Qed.

(** A visit keeps the newborns stamped and ticks none of them. *)
Lemma visit_newborns `{Host} (n : nat) (yearPassed reDraw : bool)
    (speed0 cap : Z) (i j : nat) (st : Pass * Z) :
  (forall speed r w, stamps_kept w (Seed_tick speed r w)) ->
  (forall speed r w, newborns_stamped (length (heap w)) (Seed_tick speed r w)) ->
  let P (p : Pass) :=
    is_int (tickMod (world_of p))
    /\ newborns_stamped n (world_of p)
    /\ forall r, r ∈ ticked (events p) -> (r < n)%nat in
  P (fst st) -> P (fst (visit yearPassed reDraw speed0 cap i j st)).
Proof.
  intros Hkeep Hborn P (Hint & Hnew & Hold).
  destruct (visit_cases yearPassed reDraw speed0 cap i j st)
    as [->|(r & seed & Hr & Hneq & Hw & Hev & _)];
    [split; [exact Hint|split; assumption]|].
  assert (Hrn : (r < n)%nat).
  { destruct (Nat.le_gt_cases n r) as [Hle|Hlt]; [|exact Hlt].
    destruct (Hnew r) as (s & Hs & Hstamp).
    - split; [exact Hle|]. apply lookup_lt_Some in Hr. exact Hr.
    - rewrite Hr in Hs. injection Hs as <-.
      rewrite Hstamp, num_eqb_refl in Hneq by exact Hint. discriminate. }
  destruct (visited_stamps Hkeep yearPassed speed0 r seed _ Hr)
    as (Ht & _ & Hstamped).
  unfold P. rewrite Hw, Hev, Ht. split; [exact Hint|]. split.
  - intros r' [Hle Hlt].
    destruct (Nat.le_gt_cases (length (heap (world_of (fst st)))) r')
      as [Hnewer|Holder]; [|apply Hstamped, Hnew; lia].
    unfold visited in *. cbv zeta in *.
    match goal with
    | |- stamped (relocate _ _ (Seed_tick ?sp ?r0 ?w2)) _ =>
        apply (stamped_kept (Seed_tick sp r0 w2));
          [apply stamps_kept_relocate|];
        apply (Hborn sp r0 w2); split;
          [|apply Nat.lt_le_trans with (1 := Hlt);
            unfold relocate;
            destruct (heap (Seed_tick sp r0 w2) !! r);
            [destruct (decide _)|]; rewrite ?heap_Tile_set,
              ?length_heap_update_seed, ?heap_Tile_rem; reflexivity]
    end.
    destruct yearPassed; rewrite ?length_heap_update_seed; exact Hnewer.
  - intros r' Hin. apply elem_of_app in Hin as [Hin|Hin]; [exact (Hold _ Hin)|].
    apply list_elem_of_singleton in Hin as ->. exact Hrn.
Qed.

(** X9: a seed created while the tiles are traversed (a birth, through
    [add], which stamps it with the current tick) is not ticked in that
    pass: every seed [run] ticks was in the world when [run] was called. *)
Theorem newborns_wait_for_the_next_tick `{Host} (w : World) :
  (forall speed r w, stamps_kept w (Seed_tick speed r w)) ->
  (forall speed r w, newborns_stamped (length (heap w)) (Seed_tick speed r w)) ->
  is_int (next_tickMod w) ->
  (forall r, r ∈ ticked (snd (run w)) -> (r < length (heap w))%nat)
  /\ newborns_stamped (length (heap w)) (world_of (pass_of w)).
Proof.
  intros Hkeep Hborn Hint. rewrite run_ticked.
  assert (HP : is_int (tickMod (world_of (pass_of w)))
               /\ newborns_stamped (length (heap w)) (world_of (pass_of w))
               /\ forall r, r ∈ ticked (events (pass_of w)) ->
                    (r < length (heap w))%nat).
  { unfold pass_of. cbv zeta.
    apply (traverse_invariant
             (fun p => is_int (tickMod (world_of p))
                       /\ newborns_stamped (length (heap w)) (world_of p)
                       /\ forall r, r ∈ ticked (events p) ->
                            (r < length (heap w))%nat)).
    - split; [exact Hint|]. split.
      + intros r [Hle Hlt]. cbn in Hlt. lia.
      + intros r Hin. cbn [events] in Hin.
        destruct (_ || _); cbn in Hin; inversion Hin.
    - intros i j st.
      exact (visit_newborns _ _ _ _ _ i j st Hkeep Hborn). }
  destruct HP as (_ & Hnew & Hold). split; assumption.
Qed.

Lemma breeding_tick_stamps_newborns :
  forall speed r w,
    newborns_stamped (length (heap w)) (@Seed_tick breeding_host speed r w).
Proof.
  intros speed r w r' [Hle Hlt]. cbn [Seed_tick breeding_host] in *.
  destruct (@add_heap demo_host (demo_seed true)
              (demo_data None (Some 500) (Some 10)) demo_random
              (update_seed r (demo_step speed) w)) as [seed Hheap].
  rewrite Hheap, length_app, length_heap_update_seed in Hlt. cbn in Hlt.
  assert (r' = length (heap (update_seed r (demo_step speed) w))) as ->
    by (rewrite length_heap_update_seed; lia).
  apply add_keeps_stamps.
Qed.

Lemma newborns_wait_for_the_next_tick_witness :
  length (heap demo_crossing) = 2%nat
  /\ length (heap (fst (@run breeding_host demo_crossing))) = 4%nat
  /\ forall r, r ∈ ticked (snd (@run breeding_host demo_crossing)) -> (r < 2)%nat.
Proof.
  split; [reflexivity|]. split; [reflexivity|].
  exact (proj1 (@newborns_wait_for_the_next_tick breeding_host demo_crossing
                  breeding_tick_keeps_stamps breeding_tick_stamps_newborns I)).
Defined.

(** ** Starting the world *)

(** X10: [start] sets the world running and makes one tick, which ends by
    requesting the next frame: once, as its last call, and without calling
    the stop callback; the world is left running.  (Unless that tick closes a
    year in which nobody was counted.) *)
Theorem start_requests_one_frame `{Host} (w : World) :
  (forall speed r w, running (Seed_tick speed r w) = running w) ->
  num_eqb (next_tickMod w) (Int 0)
  && (population (stats (pass_of (with_running true w))) =? 0) = false ->
  running (fst (start w)) = true
  /\ exists ev,
       snd (start w) = ev ++ [requestAnimationFrame]
       /\ Forall (fun e => e <> requestAnimationFrame
                           /\ forall cb, e <> stopCallback_call cb) ev.
Proof.
  intros Htick Hlive. unfold start. rewrite run_pass_of. cbv zeta.
  set (w1 := with_running true w) in *.
  change (next_tickMod w1) with (next_tickMod w).
  assert (Hrun : running (world_of (pass_of w1)) = true).
  { rewrite (pass_of_world_proj running w1); try reflexivity. exact Htick. }
  assert (Hpass : Forall (fun e => e <> requestAnimationFrame
                                   /\ forall cb, e <> stopCallback_call cb)
                    (events (pass_of w1))).
  { eapply Forall_impl; [apply pass_events|].
    intros e He. split; [|intros cb]; intros ->; exact He. }
  unfold loop_animation.
  destruct (num_eqb (next_tickMod w) (Int 0)).
  - cbn [andb] in Hlive. rewrite Hlive.
    change (running (with_Rules _ (with_Rules _ (with_Statistic _ ?x))))
      with (running x).
    rewrite Hrun. cbn [fst snd]. split; [exact Hrun|].
    eexists. split; [reflexivity|].
    apply Forall_app. split; [exact Hpass|].
    repeat constructor; first [discriminate|intros cb; discriminate].
  - rewrite Hrun. cbn [fst snd]. split; [exact Hrun|].
    eexists. split; [reflexivity|exact Hpass].
Qed.

Lemma start_requests_one_frame_witness :
  running (stop None demo_crossing) = false
  /\ running (fst (start (stop None demo_crossing))) = true
  /\ snd (start (stop None demo_crossing))
     = [clearRect; draw 0%nat true; tick 0%nat 1; draw 1%nat true; tick 1%nat 1]
       ++ [requestAnimationFrame].
Proof.
  split; [reflexivity|].
  destruct (start_requests_one_frame (stop None demo_crossing)
              demo_tick_keeps_running eq_refl) as [Hrun _].
  split; [exact Hrun|reflexivity].
Defined.

(** ** The tiles as an index of the seeds *)

Lemma occupies_bucket (tiles : list (list (option ref))) (r : ref) (i j : nat) :
  occupies tiles r i j
  <-> exists bucket, tiles !! i = Some bucket /\ bucket !! j = Some (Some r).
Proof. unfold occupies. apply bind_Some. Qed.

Lemma place_lookup (r r' : ref) (bucket : list (option ref)) (j : nat) :
  place r bucket !! j = Some (Some r') ->
  r' = r \/ bucket !! j = Some (Some r').
Proof.
  revert j. induction bucket as [|[o|] bucket IH]; intros j; cbn.
  - destruct j; cbn; [intros [= ->]; left; reflexivity|discriminate].
  - destruct j; cbn; [intros E; right; exact E|apply IH].
  - destruct j; cbn; [intros [= ->]; left; reflexivity|intros E; right; exact E].
Qed.

Lemma place_unique (r : ref) (bucket : list (option ref)) (j j' : nat) :
  Some r ∉ bucket ->
  place r bucket !! j = Some (Some r) -> place r bucket !! j' = Some (Some r) ->
  j = j'.
Proof.
  revert j j'. induction bucket as [|[o|] bucket IH]; intros j j' Hr; cbn.
  - destruct j as [|j], j' as [|j']; cbn; try discriminate. reflexivity.
  - assert (Ho : o <> r) by (intros ->; apply Hr; left).
    assert (Hb : Some r ∉ bucket) by (intros Hin; apply Hr; right; exact Hin).
    destruct j as [|j], j' as [|j']; cbn;
      try (intros [= E]; contradiction); try (intros _ [= E]; contradiction).
    intros E E'. f_equal. exact (IH j j' Hb E E').
  - assert (Hb : forall k, bucket !! k <> Some (Some r)).
    { intros k E. apply Hr. right. apply list_elem_of_lookup. eauto. }
    destruct j as [|j], j' as [|j']; cbn; intros E E';
      first [reflexivity|exfalso; eapply Hb; eassumption].
Qed.

Lemma vacate_lookup (r r' : ref) (bucket : list (option ref)) (j : nat) :
  vacate r bucket !! j = Some (Some r') -> bucket !! j = Some (Some r').
Proof.
  revert j. induction bucket as [|[o|] bucket IH]; intros j; cbn.
  - intros E; exact E.
  - destruct (decide (o = r)) as [->|Hne];
      destruct j; cbn; first [discriminate|intros E; exact E|apply IH].
  - destruct j; cbn; [discriminate|apply IH].
Qed.

Lemma vacate_absent (r : ref) (bucket : list (option ref)) (j : nat) :
  (forall k k', bucket !! k = Some (Some r) -> bucket !! k' = Some (Some r) ->
                k = k') ->
  vacate r bucket !! j <> Some (Some r).
Proof.
  revert j. induction bucket as [|[o|] bucket IH]; intros j Hone; cbn.
  - rewrite lookup_nil. discriminate.
  - destruct (decide (o = r)) as [->|Hne].
    + destruct j as [|j]; cbn; [discriminate|].
      intros E. specialize (Hone 0%nat (S j) eq_refl E). discriminate.
    + destruct j as [|j]; cbn; [intros [= E]; contradiction|].
      apply IH. intros k k' E E'.
      specialize (Hone (S k) (S k') E E'). lia.
  - destruct j as [|j]; cbn; [discriminate|].
    apply IH. intros k k' E E'. specialize (Hone (S k) (S k') E E'). lia.
Qed.

(** A seed put into a tile takes one slot of that tile; the others stay. *)
Lemma occupies_place (tiles : list (list (option ref))) (r r' : ref)
    (k i j : nat) :
  occupies (Tile_place r k tiles) r' i j ->
  (r' = r /\ i = k) \/ occupies tiles r' i j.
Proof.
  rewrite !occupies_bucket. unfold Tile_place. intros (bucket & Hb & Hj).
  destruct (decide (i = k)) as [->|Hne].
  - rewrite list_lookup_alter_eq in Hb.
    destruct (tiles !! k) as [b0|]; [|discriminate]. injection Hb as <-.
    destruct (place_lookup _ _ _ _ Hj) as [->|Hj0]; [left; split; reflexivity|].
    right. exists b0. split; [reflexivity|exact Hj0].
  - rewrite list_lookup_alter_ne in Hb by congruence.
    right. exists bucket. split; assumption.
Qed.

Lemma one_slot_place (tiles : list (list (option ref))) (r : ref) (k : nat) :
  one_slot tiles -> (forall i j, ~ occupies tiles r i j) ->
  one_slot (Tile_place r k tiles).
Proof.
  intros Hone Hfresh r' i j i' j' Ho Ho'.
  destruct (occupies_place _ _ _ _ _ _ Ho) as [[-> ->]|Hold].
  - destruct (occupies_place _ _ _ _ _ _ Ho') as [[_ ->]|Hold'];
      [|exfalso; exact (Hfresh _ _ Hold')].
    split; [reflexivity|].
    apply occupies_bucket in Ho as (b & Hb & Hj).
    apply occupies_bucket in Ho' as (b' & Hb' & Hj').
    rewrite Hb in Hb'. injection Hb' as <-.
    unfold Tile_place in Hb. rewrite list_lookup_alter_eq in Hb.
    destruct (tiles !! k) as [b0|] eqn:Hb0; [|discriminate]. injection Hb as <-.
    apply (place_unique r b0); [|assumption|assumption].
    intros Hin. apply list_elem_of_lookup in Hin as [j0 Hj0].
    apply (Hfresh k j0). apply occupies_bucket. exists b0. split; assumption.
  - destruct (occupies_place _ _ _ _ _ _ Ho') as [[-> _]|Hold'];
      [exfalso; exact (Hfresh _ _ Hold)|].
    exact (Hone _ _ _ _ _ Hold Hold').
Qed.

(** A seed taken out of a tile leaves the others in their slots, and is gone
    when the tile was the one that held it. *)
Lemma occupies_vacate (tiles : list (list (option ref))) (r r' : ref)
    (k i j : nat) :
  occupies (alter (vacate r) k tiles) r' i j -> occupies tiles r' i j.
Proof.
  rewrite !occupies_bucket. intros (bucket & Hb & Hj).
  destruct (decide (i = k)) as [->|Hne].
  - rewrite list_lookup_alter_eq in Hb.
    destruct (tiles !! k) as [b0|]; [|discriminate]. injection Hb as <-.
    exists b0. split; [reflexivity|]. exact (vacate_lookup _ _ _ _ Hj).
  - rewrite list_lookup_alter_ne in Hb by congruence.
    exists bucket. split; assumption.
Qed.

Lemma one_slot_vacate (tiles : list (list (option ref))) (r : ref) (k : nat) :
  one_slot tiles -> one_slot (alter (vacate r) k tiles).
Proof.
  intros Hone r' i j i' j' Ho Ho'.
  exact (Hone _ _ _ _ _ (occupies_vacate _ _ _ _ _ _ Ho)
           (occupies_vacate _ _ _ _ _ _ Ho')).
Qed.

Lemma vacated (tiles : list (list (option ref))) (r : ref) (k i j : nat) :
  one_slot tiles -> (forall i j, occupies tiles r i j -> i = k) ->
  ~ occupies (alter (vacate r) k tiles) r i j.
Proof.
  intros Hone Hk Ho.
  pose proof (Hk _ _ (occupies_vacate _ _ _ _ _ _ Ho)) as ->.
  apply occupies_bucket in Ho as (bucket & Hb & Hj).
  rewrite list_lookup_alter_eq in Hb.
  destruct (tiles !! k) as [b0|] eqn:Hb0; [|discriminate]. injection Hb as <-.
  revert Hj. apply vacate_absent. intros j1 j2 E1 E2.
  refine (proj2 (Hone r k j1 k j2 _ _));
    apply occupies_bucket; exists b0; split; assumption.
Qed.

Lemma tiles_sorted_ext `{Host} (w w' : World) :
  Tile_list w' = Tile_list w -> heap w' = heap w ->
  tiles_sorted w -> tiles_sorted w'.
Proof. unfold tiles_sorted. intros -> ->. exact id. Qed.

Lemma add_tileIndex `{Host} (SeedCtor : Data -> Seed.t) (data : Data)
    (g : Random) (w : World) (seed : Seed.t) :
  position_only ->
  admitted SeedCtor data g w = Some seed ->
  Tile_getIndex seed = Seed.tileIndex seed.
Proof. intros Hpos. admitted_cases; apply Hpos; reflexivity. Qed.

Lemma add_sorted `{Host} (SeedCtor : Data -> Seed.t) (data : Data)
    (g : Random) (w : World) :
  position_only -> tiles_sorted w -> tiles_sorted (fst (add SeedCtor data g w)).
Proof.
  intros Hpos [Hone Hsorted].
  destruct (admitted_is_Some SeedCtor data g w) as [seed Hseed].
  pose proof (add_heap_admitted SeedCtor data g w seed Hseed) as Hheap.
  pose proof (add_Tile_list SeedCtor data g w seed Hseed) as Htiles.
  assert (Hfresh : forall i j, ~ occupies (Tile_list w) (length (heap w)) i j).
  { intros i j Ho. destruct (Hsorted _ _ _ Ho) as (s & Hs & _).
    apply lookup_lt_Some in Hs. lia. }
  unfold tiles_sorted. rewrite Htiles, Hheap. split.
  - apply one_slot_place; assumption.
  - intros r i j Ho.
    destruct (occupies_place _ _ _ _ _ _ Ho) as [[-> ->]|Hold].
    + exists seed. split; [|split].
      * rewrite lookup_app_r, Nat.sub_diag by lia. reflexivity.
      * reflexivity.
      * exact (add_tileIndex SeedCtor data g w seed Hpos Hseed).
    + destruct (Hsorted _ _ _ Hold) as (s & Hs & Hi & Hg).
      exists s. split; [|split; assumption].
      rewrite lookup_app_l by (apply lookup_lt_Some in Hs; exact Hs). exact Hs.
Qed.

Lemma Tile_rem_tiles (r : ref) (w : World) :
  heap (Tile_rem r w) = heap w
  /\ (Tile_list (Tile_rem r w) = Tile_list w
      \/ exists k, Tile_list (Tile_rem r w) = alter (vacate r) k (Tile_list w)).
Proof.
  unfold Tile_rem. destruct (heap w !! r) as [seed|].
  - split; [reflexivity|]. right. eexists. reflexivity.
  - split; [reflexivity|]. left. reflexivity.
Qed.

Lemma remove_Tile_list (r : ref) (w : World) :
  Tile_list (world_after (remove r w)) = Tile_list w
  \/ exists k,
       Tile_list (world_after (remove r w)) = alter (vacate r) k (Tile_list w).
Proof.
  unfold remove. cbn.
  destruct (heap w !! r) as [seed|]; [|left; reflexivity].
  destruct (Seed.married seed); [destruct (Seed.relationSeed seed)|];
    cbn [world_after]; try (left; reflexivity);
    match goal with
    | |- context [Tile_rem r ?x] =>
        generalize (Tile_rem_tiles r x); generalize (Tile_rem r x)
    end;
    (intros w' [_ [E|[k E]]]; [left|right; exists k]; exact E).
Qed.

Lemma remove_sorted `{Host} (r : ref) (w : World) :
  position_only -> tiles_sorted w -> tiles_sorted (world_after (remove r w)).
Proof.
  intros Hpos [Hone Hsorted].
  assert (Hsub : forall r' i j,
            occupies (Tile_list (world_after (remove r w))) r' i j ->
            occupies (Tile_list w) r' i j).
  { intros r' i j. destruct (remove_Tile_list r w) as [->|[k ->]];
      [exact id|apply occupies_vacate]. }
  split.
  - intros r' i j i' j' Ho Ho'.
    exact (Hone _ _ _ _ _ (Hsub _ _ _ Ho) (Hsub _ _ _ Ho')).
  - intros r' i j Ho. destruct (Hsorted _ _ _ (Hsub _ _ _ Ho)) as (s & Hs & Hi & Hg).
    pose proof (remove_heap_proj Seed.tileIndex r w r'
                  (fun _ _ => eq_refl) (fun _ _ => eq_refl)) as Et.
    pose proof (remove_heap_proj Seed.x r w r'
                  (fun _ _ => eq_refl) (fun _ _ => eq_refl)) as Ex.
    pose proof (remove_heap_proj Seed.y r w r'
                  (fun _ _ => eq_refl) (fun _ _ => eq_refl)) as Ey.
    rewrite Hs in Et, Ex, Ey.
    destruct (heap (world_after (remove r w)) !! r') as [s'|]; [|discriminate].
    cbn in Et, Ex, Ey. injection Et as Et. injection Ex as Ex. injection Ey as Ey.
    exists s'. split; [reflexivity|]. split; [congruence|].
    rewrite (Hpos s' s Ex Ey). exact Hg.
Qed.

Lemma sorted_to_but `{Host} (r : ref) (seed : Seed.t) (w : World) :
  heap w !! r = Some seed -> tiles_sorted w ->
  tiles_sorted_but r (Seed.tileIndex seed) w.
Proof.
  intros Hr [Hone Hsorted]. split; [exact Hone|].
  intros r' i j Ho. destruct (Hsorted _ _ _ Ho) as (s & Hs & Hi & Hg).
  exists s. split; [exact Hs|]. split; [exact Hi|].
  destruct (decide (r' = r)) as [->|_]; [congruence|exact Hg].
Qed.

Lemma sorted_but_update_seed `{Host} (u : Seed.t -> Seed.t) (r : ref)
    (old : nat) (w : World) :
  (forall s, Seed.tileIndex (u s) = Seed.tileIndex s) ->
  tiles_sorted_but r old w -> tiles_sorted_but r old (update_seed r u w).
Proof.
  intros Hu [Hone Hsorted]. split; [exact Hone|].
  intros r' i j Ho. destruct (Hsorted _ _ _ Ho) as (s & Hs & Hi & Hg).
  rewrite lookup_update_seed.
  destruct (decide (r' = r)) as [->|Hne].
  - rewrite decide_True, Hs by reflexivity. exists (u s).
    split; [reflexivity|]. split; [rewrite Hu; exact Hi|exact Hg].
  - rewrite decide_False by congruence. exists s.
    split; [exact Hs|]. split; [exact Hi|exact Hg].
Qed.

(** Lines 412-421 put the seed that acted back in order. *)
Lemma relocate_sorted `{Host} (r : ref) (old : nat) (w : World) :
  position_only -> tiles_sorted_but r old w -> tiles_sorted (relocate r old w).
Proof.
  intros Hpos [Hone Hsorted]. unfold relocate.
  destruct (heap w !! r) as [seed|] eqn:Hr.
  - destruct (decide (Tile_getIndex seed = old)) as [Hsame|Hmoved].
    + split; [exact Hone|]. intros r' i j Ho.
      destruct (Hsorted _ _ _ Ho) as (s & Hs & Hi & Hg). exists s.
      split; [exact Hs|]. split; [exact Hi|].
      destruct (decide (r' = r)) as [->|_]; [congruence|exact Hg].
    + set (new := Tile_getIndex seed).
      assert (Hw : let w' := Tile_set r (update_seed r (Seed.set_tileIndex new)
                                           (Tile_rem r w)) in
                   Tile_list w'
                   = Tile_place r new
                       (alter (vacate r) (Seed.tileIndex seed) (Tile_list w))
                   /\ heap w' = alter (Seed.set_tileIndex new) r (heap w)).
      { unfold Tile_set, Tile_rem. rewrite Hr. cbn.
        rewrite list_lookup_alter_eq, Hr. cbn. split; reflexivity. }
      cbv zeta in Hw. destruct Hw as [Htiles Hheap].
      assert (Hgone : forall i j,
                ~ occupies (alter (vacate r) (Seed.tileIndex seed) (Tile_list w))
                    r i j).
      { intros i j. apply vacated; [exact Hone|].
        intros i' j' Ho. destruct (Hsorted _ _ _ Ho) as (s & Hs & Hi & _).
        congruence. }
      unfold tiles_sorted. rewrite Htiles, Hheap. split.
      * apply one_slot_place; [apply one_slot_vacate; exact Hone|exact Hgone].
      * intros r' i j Ho.
        destruct (occupies_place _ _ _ _ _ _ Ho) as [[-> ->]|Hold].
        -- exists (Seed.set_tileIndex new seed).
           rewrite list_lookup_alter_eq, Hr.
           split; [reflexivity|]. split; [reflexivity|].
           apply Hpos; reflexivity.
        -- assert (Hne : r' <> r) by (intros ->; exact (Hgone _ _ Hold)).
           destruct (Hsorted _ _ _ (occupies_vacate _ _ _ _ _ _ Hold))
             as (s & Hs & Hi & Hg).
           rewrite decide_False in Hg by exact Hne.
           exists s. rewrite list_lookup_alter_ne by congruence.
           split; [exact Hs|]. split; [exact Hi|exact Hg].
  - split; [exact Hone|]. intros r' i j Ho.
    destruct (Hsorted _ _ _ Ho) as (s & Hs & Hi & Hg). exists s.
    split; [exact Hs|]. split; [exact Hi|].
    destruct (decide (r' = r)) as [->|_]; [congruence|exact Hg].
Qed.

Lemma place_keeps (r r' : ref) (bucket : list (option ref)) (j : nat) :
  bucket !! j = Some (Some r') -> place r bucket !! j = Some (Some r').
Proof.
  revert j. induction bucket as [|[o|] bucket IH]; intros j; cbn.
  - rewrite lookup_nil. discriminate.
  - destruct j; cbn; [intros E; exact E|apply IH].
  - destruct j; cbn; [discriminate|intros E; exact E].
Qed.

Lemma vacate_keeps (r r' : ref) (bucket : list (option ref)) (j : nat) :
  r' <> r -> bucket !! j = Some (Some r') ->
  vacate r bucket !! j = Some (Some r').
Proof.
  intros Hne. revert j. induction bucket as [|[o|] bucket IH]; intros j; cbn.
  - intros E; exact E.
  - destruct (decide (o = r)) as [->|Hor];
      destruct j; cbn; first [intros [= E]; congruence|intros E; exact E|apply IH].
  - destruct j; cbn; [discriminate|apply IH].
Qed.

Lemma occupies_place_keeps (tiles : list (list (option ref))) (r r' : ref)
    (k i j : nat) :
  occupies tiles r' i j -> occupies (Tile_place r k tiles) r' i j.
Proof.
  rewrite !occupies_bucket. unfold Tile_place. intros (bucket & Hb & Hj).
  destruct (decide (i = k)) as [->|Hne].
  - exists (place r bucket). rewrite list_lookup_alter_eq, Hb.
    split; [reflexivity|apply place_keeps; exact Hj].
  - exists bucket. rewrite list_lookup_alter_ne by congruence. split; assumption.
Qed.

Lemma occupies_vacate_keeps (tiles : list (list (option ref))) (r r' : ref)
    (k i j : nat) :
  r' <> r -> occupies tiles r' i j -> occupies (alter (vacate r) k tiles) r' i j.
Proof.
  intros Hr. rewrite !occupies_bucket. intros (bucket & Hb & Hj).
  destruct (decide (i = k)) as [->|Hne].
  - exists (vacate r bucket). rewrite list_lookup_alter_eq, Hb.
    split; [reflexivity|apply vacate_keeps; assumption].
  - exists bucket. rewrite list_lookup_alter_ne by congruence. split; assumption.
Qed.

(** A seed put into a tile that exists is held by its bucket. *)
Lemma occupies_placed (tiles : list (list (option ref))) (r : ref) (k : nat) :
  (k < length tiles)%nat -> exists j, occupies (Tile_place r k tiles) r k j.
Proof.
  intros Hk. destruct (lookup_lt_is_Some_2 tiles k Hk) as [bucket Hb].
  pose proof (place_elem r bucket) as Hin.
  apply list_elem_of_lookup in Hin as [j Hj]. exists j.
  apply occupies_bucket. exists (place r bucket).
  unfold Tile_place. rewrite list_lookup_alter_eq, Hb. split; [reflexivity|exact Hj].
Qed.

Lemma remove_Statistic (r : ref) (w : World) :
  Statistic (world_after (remove r w))
  = Statistic w ++ [Statistic_seedRemoved r].
Proof.
  unfold remove. cbn.
  destruct (heap w !! r) as [seed|]; [|reflexivity].
  destruct (Seed.married seed); [destruct (Seed.relationSeed seed)|];
    cbn [world_after]; try reflexivity;
    match goal with
    | |- context [Tile_rem r ?x] =>
        change (Statistic (with_distributedTicks _ (Tile_rem r x)))
          with (Statistic (Tile_rem r x));
        assert (E : Statistic (Tile_rem r x) = Statistic x)
          by (unfold Tile_rem; destruct (heap x !! r); reflexivity);
        rewrite E; reflexivity
    end.
Qed.

Lemma remove_live (r : ref) (w : World) :
  live (world_after (remove r w)) = filter (fun r' => r' <> r) (live w).
Proof.
  transitivity (live (with_Statistic
                        (Statistic w ++ [Statistic_seedRemoved r]) w)).
  - apply live_Statistic. rewrite remove_Statistic. reflexivity.
  - exact (live_snoc w (Statistic_seedRemoved r)).
Qed.

Lemma add_index `{Host} (n : nat) (SeedCtor : Data -> Seed.t) (data : Data)
    (g : Random) (w : World) :
  position_only -> (forall s, (Tile_getIndex s < n)%nat) ->
  tiles_index n w -> tiles_index n (fst (add SeedCtor data g w)).
Proof.
  intros Hpos Hrange (Hlen & Hsorted & Hlive).
  destruct (admitted_is_Some SeedCtor data g w) as [seed Hseed].
  pose proof (add_heap_admitted SeedCtor data g w seed Hseed) as Hheap.
  pose proof (add_Tile_list SeedCtor data g w seed Hseed) as Htiles.
  pose proof (add_tileIndex SeedCtor data g w seed Hpos Hseed) as Hidx.
  split; [|split].
  - rewrite Htiles. unfold Tile_place. rewrite length_alter. exact Hlen.
  - apply add_sorted; assumption.
  - intros r Hr. rewrite add_live in Hr. rewrite Htiles, Hheap.
    apply elem_of_app in Hr as [Hr|Hr].
    + destruct (Hlive r Hr) as (s & j & Hs & Ho). exists s, j. split.
      * rewrite lookup_app_l by (apply lookup_lt_Some in Hs; exact Hs). exact Hs.
      * apply occupies_place_keeps. exact Ho.
    + apply list_elem_of_singleton in Hr as ->.
      destruct (occupies_placed (Tile_list w) (length (heap w))
                  (Seed.tileIndex seed)) as [j Hj].
      { rewrite Hlen, <- Hidx. apply Hrange. }
      exists seed, j. split; [|exact Hj].
      rewrite lookup_app_r, Nat.sub_diag by lia. reflexivity.
Qed.

Lemma remove_index `{Host} (n : nat) (r : ref) (w : World) :
  position_only ->
  tiles_index n w -> tiles_index n (world_after (remove r w)).
Proof.
  intros Hpos (Hlen & Hsorted & Hlive). split; [|split].
  - destruct (remove_Tile_list r w) as [->|[k ->]];
      rewrite ?length_alter; exact Hlen.
  - apply remove_sorted; assumption.
  - intros r' Hr'. rewrite remove_live in Hr'.
    apply list_elem_of_filter in Hr' as [Hne Hr'].
    destruct (Hlive r' Hr') as (s & j & Hs & Ho).
    pose proof (remove_heap_proj Seed.tileIndex r w r'
                  (fun _ _ => eq_refl) (fun _ _ => eq_refl)) as Et.
    rewrite Hs in Et.
    destruct (heap (world_after (remove r w)) !! r') as [s'|]; [|discriminate].
    cbn in Et. injection Et as Et. exists s', j. split; [reflexivity|].
    rewrite Et.
    destruct (remove_Tile_list r w) as [->|[k ->]];
      [exact Ho|apply occupies_vacate_keeps; assumption].
Qed.

Lemma index_to_but `{Host} (n : nat) (r : ref) (seed : Seed.t) (w : World) :
  heap w !! r = Some seed -> tiles_index n w ->
  tiles_index_but n r (Seed.tileIndex seed) w.
Proof.
  intros Hr (Hlen & Hsorted & Hlive).
  split; [exact Hlen|]. split; [apply sorted_to_but; assumption|exact Hlive].
Qed.

Lemma index_but_update_seed `{Host} (n : nat) (u : Seed.t -> Seed.t) (r : ref)
    (old : nat) (w : World) :
  (forall s, Seed.tileIndex (u s) = Seed.tileIndex s) ->
  tiles_index_but n r old w -> tiles_index_but n r old (update_seed r u w).
Proof.
  intros Hu (Hlen & Hsorted & Hlive).
  split; [exact Hlen|]. split; [apply sorted_but_update_seed; assumption|].
  intros r' Hr'. destruct (Hlive r' Hr') as (s & j & Hs & Ho).
  rewrite lookup_update_seed.
  destruct (decide (r = r')) as [->|Hne].
  - rewrite Hs. exists (u s), j. split; [reflexivity|]. rewrite Hu. exact Ho.
  - exists s, j. split; [exact Hs|exact Ho].
Qed.

(** Lines 412-421 put the seed that acted into the bucket of its new tile,
    and leave the others where they are. *)
Lemma relocate_index `{Host} (n : nat) (r : ref) (old : nat) (w : World) :
  position_only -> (forall s, (Tile_getIndex s < n)%nat) ->
  tiles_index_but n r old w -> tiles_index n (relocate r old w).
Proof.
  intros Hpos Hrange (Hlen & Hsorted & Hlive).
  pose proof (relocate_sorted r old w Hpos Hsorted) as Hs'.
  split; [|split; [exact Hs'|]]; clear Hs'; unfold relocate.
  - destruct (heap w !! r) as [seed|] eqn:Hr; [|exact Hlen].
    destruct (decide (Tile_getIndex seed = old)); [exact Hlen|].
    unfold Tile_set, Tile_rem. rewrite Hr. cbn.
    rewrite list_lookup_alter_eq, Hr. cbn. unfold Tile_place.
    rewrite !length_alter. exact Hlen.
  - destruct (heap w !! r) as [seed|] eqn:Hr; [|exact Hlive].
    destruct (decide (Tile_getIndex seed = old)) as [Hsame|Hmoved];
      [exact Hlive|].
    set (new := Tile_getIndex seed).
    assert (Hw : let w' := Tile_set r (update_seed r (Seed.set_tileIndex new)
                                         (Tile_rem r w)) in
                 Tile_list w'
                 = Tile_place r new
                     (alter (vacate r) (Seed.tileIndex seed) (Tile_list w))
                 /\ heap w' = alter (Seed.set_tileIndex new) r (heap w)
                 /\ Statistic w' = Statistic w).
    { unfold Tile_set, Tile_rem. rewrite Hr. cbn.
      rewrite list_lookup_alter_eq, Hr. cbn. repeat split; reflexivity. }
    cbv zeta in Hw. destruct Hw as (Htiles & Hheap & Hstat).
    intros r' Hr'. rewrite (live_Statistic _ w Hstat) in Hr'.
    rewrite Htiles, Hheap.
    destruct (decide (r' = r)) as [->|Hne].
    + destruct (occupies_placed
                  (alter (vacate r) (Seed.tileIndex seed) (Tile_list w)) r new)
        as [j Hj].
      { rewrite length_alter, Hlen. apply Hrange. }
      exists (Seed.set_tileIndex new seed), j.
      rewrite list_lookup_alter_eq, Hr. split; [reflexivity|exact Hj].
    + destruct (Hlive r' Hr') as (s & j & Hs & Ho). exists s, j.
      rewrite list_lookup_alter_ne by congruence. split; [exact Hs|].
      apply occupies_place_keeps, occupies_vacate_keeps; assumption.
Qed.

Lemma visit_index `{Host} (n : nat) (yearPassed reDraw : bool) (speed0 cap : Z)
    (i j : nat) (st : Pass * Z) :
  position_only -> (forall s, (Tile_getIndex s < n)%nat) ->
  (forall speed r old w,
     is_Some (heap w !! r) -> tiles_index_but n r old w ->
     tiles_index_but n r old (Seed_tick speed r w)) ->
  tiles_index n (world_of (fst st)) ->
  tiles_index n (world_of (fst (visit yearPassed reDraw speed0 cap i j st))).
Proof.
  intros Hpos Hrange Htick Hst. unfold visit.
  destruct (Tile_list (world_of (fst st)) !! i ≫= (fun seeds => seeds !! j))
    as [[r|]|]; [|exact Hst|exact Hst].
  destruct (heap (world_of (fst st)) !! r) as [seed|] eqn:Hr; [|exact Hst].
  destruct (num_eqb _ _); [exact Hst|]. cbn [fst world_of].
  apply relocate_index; [exact Hpos|exact Hrange|]. apply Htick.
  - destruct yearPassed; rewrite !lookup_update_seed, !decide_True, Hr
      by reflexivity; eexists; reflexivity.
  - pose proof (index_to_but n r seed _ Hr Hst) as Hbut.
    destruct yearPassed;
      repeat (apply index_but_update_seed; [reflexivity|]); exact Hbut.
Qed.

Lemma tiles_index_ext `{Host} (n : nat) (w w' : World) :
  Tile_list w' = Tile_list w -> heap w' = heap w -> live w' = live w ->
  tiles_index n w -> tiles_index n w'.
Proof.
  unfold tiles_index, tiles_sorted, live_indexed. intros -> -> ->. exact id.
Qed.

(** X11: the tiles stay an index of the live seeds.  If every live seed is
    held by exactly one slot, in the bucket of the tile its position maps
    to, with that tile as [tileIndex], and the buckets hold nothing but seeds
    filed so, then the same holds after [add] (the new seed is in the bucket
    of its tile), after [remove] (the others stay where they are), and
    after [run]: a seed that changed tile during its tick is taken out of
    its old bucket and is in the bucket of its new tile.  [Tile.getIndex]
    is assumed to read only the position and to name one of the [n] tiles;
    a tick is assumed to leave the seed that acts in its bucket and the
    others in order. *)
Theorem tiles_stay_sorted `{Host} (n : nat) :
  position_only -> (forall s, (Tile_getIndex s < n)%nat) ->
  (forall SeedCtor data g w,
     tiles_index n w -> tiles_index n (fst (add SeedCtor data g w)))
  /\ (forall r w, tiles_index n w -> tiles_index n (world_after (remove r w)))
  /\ (forall w,
        (forall speed r old w,
           is_Some (heap w !! r) -> tiles_index_but n r old w ->
           tiles_index_but n r old (Seed_tick speed r w)) ->
        (forall k w, tiles_index n w -> tiles_index n (Callback_call k w)) ->
        tiles_index n w -> tiles_index n (fst (run w))).
Proof.
  intros Hpos Hrange. split; [|split].
  - intros SeedCtor data g w. apply add_index; assumption.
  - intros r w. apply remove_index. exact Hpos.
  - intros w Htick Hcb Hw.
    assert (Hpass : tiles_index n (world_of (pass_of w))).
    { unfold pass_of. cbv zeta.
      apply (traverse_invariant (fun p => tiles_index n (world_of p)));
        [exact Hw|].
      intros i j st. apply visit_index; assumption. }
    assert (Hloop : forall w' ev,
              tiles_index n w' -> tiles_index n (fst (loop_animation w' ev))).
    { intros w' ev Hw'. unfold loop_animation.
      destruct (running w'); [exact Hw'|]. cbn [fst].
      destruct (stopCallback w') as [|k]; [exact Hw'|].
      apply (tiles_index_ext n (Callback_call k w')); try reflexivity.
      apply Hcb. exact Hw'. }
    assert (Hyear : forall a w',
              tiles_index n w' ->
              tiles_index n
                (with_Statistic (Statistic w' ++ [Statistic_yearPassed a]) w')).
    { intros a w' Hw'. apply (tiles_index_ext n w'); try reflexivity; [|exact Hw'].
      exact (live_snoc w' (Statistic_yearPassed a)). }
    rewrite run_pass_of. cbv zeta.
    destruct (num_eqb (next_tickMod w) (Int 0)); [|apply Hloop; exact Hpass].
    destruct (population (stats (pass_of w)) =? 0).
    + apply (tiles_index_ext n
               (with_Statistic
                  (Statistic (world_of (pass_of w))
                   ++ [Statistic_yearPassed (stats (pass_of w))])
                  (world_of (pass_of w)))); try reflexivity.
      apply Hyear. exact Hpass.
    + apply Hloop.
      apply (tiles_index_ext n
               (with_Statistic
                  (Statistic (world_of (pass_of w))
                   ++ [Statistic_yearPassed (stats (pass_of w))])
                  (world_of (pass_of w)))); try reflexivity.
      apply Hyear. exact Hpass.
Qed.

Lemma demo_position_only : position_only.
Proof. intros s s' Hx _. cbn. rewrite Hx. reflexivity. Qed.

Lemma demo_two_tiles : forall s, (Tile_getIndex s < 2)%nat.
Proof. intros s. cbn. lia. Qed.

Lemma demo_tick_keeps_index :
  forall speed r old w,
    is_Some (heap w !! r) -> tiles_index_but 2 r old w ->
    tiles_index_but 2 r old (Seed_tick speed r w).
Proof.
  intros speed r old w _. apply index_but_update_seed. reflexivity.
Qed.

Lemma demo_crossing_index : tiles_index 2 demo_crossing_live.
Proof.
  assert (Hslots : forall r i j,
            occupies (Tile_list demo_crossing_live) r i j ->
            (r = 0 /\ i = 0 /\ j = 0)%nat \/ (r = 1 /\ i = 1 /\ j = 1)%nat).
  { intros r i j.
    destruct i as [|[|i]]; destruct j as [|[|j]]; cbn; try discriminate;
      intros [= <-]; auto. }
  split; [reflexivity|]. split; [split|].
  - intros r i j i' j' Ho Ho'.
    destruct (Hslots _ _ _ Ho) as [(-> & -> & ->)|(-> & -> & ->)];
      destruct (Hslots _ _ _ Ho') as [(E & -> & ->)|(E & -> & ->)];
      first [discriminate|split; reflexivity].
  - intros r i j Ho.
    destruct (Hslots _ _ _ Ho) as [(-> & -> & ->)|(-> & -> & ->)];
      eexists; (split; [reflexivity|]); split; reflexivity.
  - intros r Hr. change (live demo_crossing_live) with [0; 1]%nat in Hr.
    apply elem_of_cons in Hr as [->|Hr];
      [|apply elem_of_cons in Hr as [->|Hr]; [|inversion Hr]].
    + eexists _, 0%nat. split; reflexivity.
    + eexists _, 1%nat. split; reflexivity.
Qed.

(** The seed at address 0 walks from tile 0 into tile 1: it is taken out of
    the bucket of tile 0 and is held by the bucket of tile 1. *)
Lemma tiles_stay_sorted_witness :
  (position_only /\ tiles_index 2 demo_crossing_live)
  /\ live demo_crossing_live = [0; 1]%nat
  /\ Tile_list demo_crossing_live = [[Some 0%nat]; [None; Some 1%nat]]
  /\ tiles_index 2 (fst (run demo_crossing_live))
  /\ live (fst (run demo_crossing_live)) = [0; 1]%nat
  /\ Tile_list (fst (run demo_crossing_live))
     = [[None]; [Some 0%nat; Some 1%nat]].
Proof.
  split; [split; [exact demo_position_only|exact demo_crossing_index]|].
  split; [reflexivity|]. split; [reflexivity|].
  split; [|split; reflexivity].
  exact (proj2 (proj2 (tiles_stay_sorted 2 demo_position_only demo_two_tiles))
           demo_crossing_live demo_tick_keeps_index (fun _ _ Hw => Hw)
           demo_crossing_index).
Defined.

(** ** Eviction is not guarded *)

(** X12: [remove] does not look whether the seed is still in the world.
    Removing an unmarried seed a second time decrements the counter of its
    frame a second time and tells the statistics again, so that the counters
    add up to one less than they did after the first call. *)
Theorem remove_twice_decrements_twice (r : ref) (seed : Seed.t) (w : World)
    (zs : list Z) (z : Z) :
  heap w !! r = Some seed -> Seed.married seed = false ->
  distributedTicks w = Int <$> zs -> zs !! Seed.tickIndex seed = Some z ->
  exists w1 w2,
    remove r w = Returned w1 /\ remove r w1 = Returned w2
    /\ distributedTicks w1 = Int <$> <[Seed.tickIndex seed := z - 1]> zs
    /\ distributedTicks w2 = Int <$> <[Seed.tickIndex seed := z - 2]> zs
    /\ num_sum (distributedTicks w2) = Int (foldr Z.add 0 zs - 2)
    /\ Statistic w2
       = Statistic w ++ [Statistic_seedRemoved r; Statistic_seedRemoved r].
Proof.
  intros Hr Hm Hzs Hz.
  assert (Hlt : (Seed.tickIndex seed < length zs)%nat)
    by (apply lookup_lt_is_Some; eauto).
  destruct (remove_unmarried r w seed Hr Hm) as (w1 & Hrem1 & Hh1 & Hs1 & Hd1).
  rewrite Hzs, (array_get_int _ _ _ Hz) in Hd1. cbn [num_sub] in Hd1.
  rewrite array_set_int in Hd1 by exact Hlt.
  assert (Hr1 : heap w1 !! r = Some seed) by (rewrite Hh1; exact Hr).
  destruct (remove_unmarried r w1 seed Hr1 Hm) as (w2 & Hrem2 & _ & Hs2 & Hd2).
  rewrite Hd1 in Hd2.
  rewrite (array_get_int _ _ (z - 1)) in Hd2
    by (apply list_lookup_insert_eq; exact Hlt).
  cbn [num_sub] in Hd2.
  rewrite array_set_int in Hd2 by (rewrite length_insert; exact Hlt).
  rewrite list_insert_insert_eq in Hd2.
  replace (z - 1 - 1) with (z - 2) in Hd2 by lia.
  exists w1, w2. split; [exact Hrem1|]. split; [exact Hrem2|].
  split; [exact Hd1|]. split; [exact Hd2|]. split.
  - rewrite Hd2, num_sum_int. f_equal.
    replace (z - 2) with (z + -2) by lia.
    rewrite (sum_insert zs _ z (-2) Hz). lia.
  - rewrite Hs2, Hs1, <- app_assoc. reflexivity.
Qed.

Lemma remove_twice_decrements_twice_witness :
  exists w1 w2,
    remove 2%nat demo_family = Returned w1 /\ remove 2%nat w1 = Returned w2
    /\ distributedTicks w2 = [Int 1; Int 1; Int (-1)] ++ replicate 56 (Int 0)
    /\ num_sum (distributedTicks w2) = Int 1.
Proof.
  destruct (remove_twice_decrements_twice 2%nat _ demo_family
              ([1; 1; 1] ++ replicate 56 0) 1 eq_refl eq_refl eq_refl eq_refl)
    as (w1 & w2 & H1 & H2 & _ & Hd & Hsum & _).
  exists w1, w2. split; [exact H1|]. split; [exact H2|].
  split; [exact Hd|exact Hsum].
Defined.

(** ** Ages *)

Lemma ages_kept_refl (w : World) : ages_kept w w.
Proof. intros r s Hs. exists s. split; [exact Hs|reflexivity]. Qed.

Lemma ages_kept_trans (w1 w2 w3 : World) :
  ages_kept w1 w2 -> ages_kept w2 w3 -> ages_kept w1 w3.
Proof.
  intros H12 H23 r s Hs. destruct (H12 r s Hs) as (s2 & H2 & E2).
  destruct (H23 r s2 H2) as (s3 & H3 & E3).
  exists s3. split; [exact H3|congruence].
Qed.

Lemma ages_kept_heap (w w' : World) : heap w' = heap w -> ages_kept w w'.
Proof. intros Hh r s Hs. exists s. rewrite Hh. split; [exact Hs|reflexivity]. Qed.

Lemma ages_kept_update_seed (u : Seed.t -> Seed.t) (r : ref) (w : World) :
  (forall s, Seed.age (u s) = Seed.age s) -> ages_kept w (update_seed r u w).
Proof.
  intros Hu r' s Hs. rewrite lookup_update_seed. case_decide.
  - subst r'. rewrite Hs. exists (u s). split; [reflexivity|apply Hu].
  - exists s. split; [exact Hs|reflexivity].
Qed.

Lemma ages_kept_relocate `{Host} (r : ref) (old : nat) (w : World) :
  ages_kept w (relocate r old w).
Proof.
  unfold relocate. destruct (heap w !! r) as [seed|]; [|apply ages_kept_refl].
  case_decide; [apply ages_kept_refl|].
  eapply ages_kept_trans; [apply ages_kept_heap, heap_Tile_rem|].
  eapply ages_kept_trans; [|apply ages_kept_heap, heap_Tile_set].
  apply ages_kept_update_seed. reflexivity.
Qed.

(** What [run] does once the pass is over changes no age, when the stop
    callback changes none. *)
Lemma run_ages_kept `{Host} (w : World) :
  (forall k w, ages_kept w (Callback_call k w)) ->
  ages_kept (world_of (pass_of w)) (fst (run w)).
Proof.
  intros Hcb.
  assert (Hloop : forall w0 w' ev,
            ages_kept w0 w' -> ages_kept w0 (fst (loop_animation w' ev))).
  { intros w0 w' ev Hw'. unfold loop_animation.
    destruct (running w'); [exact Hw'|]. cbn [fst].
    destruct (stopCallback w') as [|k]; [exact Hw'|].
    apply (ages_kept_trans _ (Callback_call k w'));
      [|apply ages_kept_heap; reflexivity].
    apply (ages_kept_trans _ w'); [exact Hw'|apply Hcb]. }
  rewrite run_pass_of. cbv zeta.
  destruct (num_eqb (next_tickMod w) (Int 0));
    [|apply Hloop, ages_kept_refl].
  destruct (population (stats (pass_of w)) =? 0);
    [apply ages_kept_heap; reflexivity|].
  apply Hloop, ages_kept_heap. reflexivity.
Qed.

Lemma visit_ages `{Host} (w0 : World) (yearPassed reDraw : bool)
    (speed0 cap : Z) (i j : nat) (st : Pass * Z) :
  (forall speed r w, stamps_kept w (Seed_tick speed r w)) ->
  (forall speed r w, ages_kept w (Seed_tick speed r w)) ->
  let P (p : Pass) :=
    pass_ok p
    /\ forall r s, heap w0 !! r = Some s ->
         exists s', heap (world_of p) !! r = Some s'
           /\ Seed.age s' = Seed.age s + years_added yearPassed (events p) r in
  P (fst st) -> P (fst (visit yearPassed reDraw speed0 cap i j st)).
Proof.
  intros Hstamps Hages P [Hok Hst].
  split; [exact (proj1 (visit_ok Hstamps yearPassed reDraw speed0 cap i j st Hok))|].
  destruct (visit_cases yearPassed reDraw speed0 cap i j st)
    as [->|(r0 & seed0 & Hr0 & Hneq & Hw & Hev & _)]; [exact Hst|].
  destruct Hok as (Hint & _ & Hstamped).
  assert (Hnew : r0 ∉ ticked (events (fst st))).
  { intros Hin. destruct (Hstamped _ Hin) as (s & Hs & E).
    rewrite Hr0 in Hs. injection Hs as <-.
    rewrite E, num_eqb_refl in Hneq by exact Hint. discriminate. }
  intros r s Hs. destruct (Hst r s Hs) as (s1 & Hs1 & Hage1).
  rewrite Hw. unfold years_added in *. rewrite Hev.
  set (wp := world_of (fst st)) in *.
  set (w1 := update_seed r0 (Seed.set_tickMod (tickMod wp)) wp).
  set (w2 := if yearPassed
             then update_seed r0 (Seed.set_age (Seed.age seed0 + 1)) w1
             else w1).
  assert (Hkept : ages_kept w2 (visited yearPassed speed0 r0 seed0 wp)).
  { unfold visited. fold w1. fold w2.
    eapply ages_kept_trans; [apply Hages|apply ages_kept_relocate]. }
  assert (H2 : exists s2, heap w2 !! r = Some s2
                 /\ Seed.age s2
                    = Seed.age s1
                      + if decide (r = r0)
                        then (if yearPassed then 1 else 0) else 0).
  { subst w2 w1. destruct (decide (r = r0)) as [->|Hne].
    - rewrite Hr0 in Hs1. injection Hs1 as <-.
      destruct yearPassed;
        rewrite !lookup_update_seed, !decide_True, Hr0 by reflexivity;
        eexists; (split; [reflexivity|]); cbn; lia.
    - destruct yearPassed;
        rewrite !lookup_update_seed, !decide_False by congruence;
        exists s1; (split; [exact Hs1|]); lia. }
  destruct H2 as (s2 & Hs2 & Hage2).
  destruct (Hkept r s2 Hs2) as (s' & Hs' & Hage').
  exists s'. split; [exact Hs'|]. rewrite Hage', Hage2, Hage1.
  destruct (decide (r = r0)) as [->|Hne].
  - rewrite (decide_False (P := r0 ∈ ticked (events (fst st)))) by exact Hnew.
    rewrite decide_True by (apply elem_of_app; right; left). lia.
  - destruct (decide (r ∈ ticked (events (fst st)))) as [Hin|Hout].
    + rewrite decide_True by (apply elem_of_app; left; exact Hin). lia.
    + rewrite decide_False; [lia|].
      intros Hin. apply elem_of_app in Hin as [Hin|Hin]; [exact (Hout Hin)|].
      apply list_elem_of_singleton in Hin. exact (Hne Hin).
Qed.

(** X13: a tick adds one year to the age of a seed exactly when it closes a
    year and that seed is ticked in it; no other tick changes an age, as long
    as the seeds' own behaviour and the stop callback change none. *)
Theorem ages_advance_once_a_year `{Host} (w : World) :
  (forall speed r w, stamps_kept w (Seed_tick speed r w)) ->
  (forall speed r w, ages_kept w (Seed_tick speed r w)) ->
  (forall k w, ages_kept w (Callback_call k w)) ->
  is_int (next_tickMod w) ->
  forall r s, heap w !! r = Some s ->
    exists s', heap (fst (run w)) !! r = Some s'
      /\ Seed.age s'
         = Seed.age s
           + years_added (num_eqb (next_tickMod w) (Int 0)) (snd (run w)) r.
Proof.
  intros Hstamps Hages Hcb Hint r s Hs.
  assert (HP : pass_ok (pass_of w)
               /\ forall r s, heap w !! r = Some s ->
                    exists s', heap (world_of (pass_of w)) !! r = Some s'
                      /\ Seed.age s'
                         = Seed.age s
                           + years_added (num_eqb (next_tickMod w) (Int 0))
                               (events (pass_of w)) r).
  { unfold pass_of. cbv zeta.
    apply (traverse_invariant
             (fun p => pass_ok p
                       /\ forall r s, heap w !! r = Some s ->
                            exists s', heap (world_of p) !! r = Some s'
                              /\ Seed.age s'
                                 = Seed.age s
                                   + years_added
                                       (num_eqb (next_tickMod w) (Int 0))
                                       (events p) r)).
    - split.
      + split; [exact Hint|]. cbn [events world_of].
        destruct (_ || _); cbn; split;
          first [apply NoDup_nil_2|intros r' Hr'; inversion Hr'].
      + intros r' s' Hs'. exists s'. split; [exact Hs'|].
        unfold years_added. cbn [events].
        rewrite decide_False; [lia|].
        destruct (_ || _); cbn; intros Hin; inversion Hin.
    - intros i j st. exact (visit_ages w _ _ _ _ i j st Hstamps Hages). }
  destruct (proj2 HP r s Hs) as (s1 & Hs1 & Hage1).
  destruct (run_ages_kept w Hcb r s1 Hs1) as (s' & Hs' & Hage').
  exists s'. split; [exact Hs'|]. rewrite Hage', Hage1.
  unfold years_added. rewrite run_ticked. reflexivity.
Qed.

Lemma demo_tick_keeps_ages :
  forall speed r w, ages_kept w (Seed_tick speed r w).
Proof. intros speed r w. apply ages_kept_update_seed. reflexivity. Qed.

(** The tick that closes the year makes everybody one year older; the tick
    after it changes no age. *)
Lemma ages_advance_once_a_year_witness :
  let w := with_heap (Seed.set_tickMod (Int 59) <$> heap demo_family)
             (with_tickMod (Int 59) demo_family) in
  Seed.age <$> heap w = [0; 0; 0]
  /\ Seed.age <$> heap (fst (run w)) = [1; 1; 1]
  /\ Seed.age <$> heap (fst (run (fst (run w)))) = [1; 1; 1]
  /\ exists s', heap (fst (run w)) !! 2%nat = Some s'
       /\ Seed.age s' = 0 + years_added true (snd (run w)) 2%nat.
Proof.
  cbv zeta. split; [reflexivity|]. split; [reflexivity|]. split; [reflexivity|].
  exact (ages_advance_once_a_year
           (with_heap (Seed.set_tickMod (Int 59) <$> heap demo_family)
              (with_tickMod (Int 59) demo_family))
           demo_tick_keeps_stamps demo_tick_keeps_ages
           (fun _ w => ages_kept_refl w) I 2%nat _ eq_refl).
Defined.
